(** * The segmentation lecture notebook (lectures/4_segmentation.ipynb)

    The notebook is a sequence of code cells over NumPy arrays.  Two layers
    are modelled here:

    - the array code the notebook itself contains ([mean_color], the
      region filter, the thresholding before the distance transform, the
      seed mask), over a small model of the NumPy operations it uses;
    - the cell structure of the whole notebook, for the statements about
      which calls are made, in which order, and what happens on failure.

    Library functions of scikit-image, SciPy and matplotlib are not part of
    the notebook: they appear as section variables. *)

From Stdlib Require Import ZArith QArith Reals Lra Ascii String.
From stdpp Require Import base option list sorting gmap strings.

Close Scope Q_scope.
Close Scope R_scope.
Open Scope Z_scope.

(** Floats are read as the rationals they denote; [<] on them is decided
    on the cross products. *)
#[global] Instance Qlt_decision (x y : Q) : Decision (x < y)%Q :=
  Z_lt_dec (Qnum x * QDen y) (Qnum y * QDen x).

(** * Part I: the program *)

(** ** NumPy arrays *)

Module Np.

(** An [ndarray]: its [shape] and its elements in row-major (C) order.  For
    an image with trailing channel axes the shape below is the shape of the
    pixel grid, and an element is the vector of values along the trailing
    axes (one value for a grey-level image, three for RGB). *)
Record ndarray (A : Type) := NdArray { shape : list nat; data : list A }.
Arguments NdArray {A} _ _.
Arguments shape {A} _.
Arguments data {A} _.

Abbreviation pixel := (list Z).

(** [np.prod(shape)]: the number of grid positions. *)
Definition size (sh : list nat) : nat := foldr Nat.mul 1%nat sh.

(** The data holds one element per grid position. *)
Definition wf {A} (a : ndarray A) : Prop := length (data a) = size (shape a).

(** All pixels of an image have the same number of channel values. *)
Definition channels (c : nat) (a : ndarray pixel) : Prop :=
  Forall (λ px, length px = c) (data a).

(** dtype uint8: every value lies in 0..255. *)
Definition uint8 (a : ndarray pixel) : Prop :=
  Forall (Forall (λ v, 0 ≤ v ≤ 255)) (data a).

(** A multi-index with one coordinate per grid axis, and its position in
    the row-major data; [None] is NumPy's IndexError: a coordinate out of
    bounds, or more coordinates than axes.  The indices of this notebook
    are of that kind: the coordinate arrays of [np.nonzero] on an array of
    the same grid, and the rows of the (N, ndim) array that peak finding
    returns.  NumPy reads an index with fewer coordinates than axes as a
    whole sub-array and does not raise; [ravel] has no position for it and
    answers [None] too, so what is stated below about an IndexError is
    stated for indices with one coordinate per axis. *)
Fixpoint ravel (sh : list nat) (ix : list nat) : option nat :=
  match sh, ix with
  | [], [] => Some 0%nat
  | n :: sh', i :: ix' =>
      if decide (i < n)%nat
      then (λ r, i * size sh' + r)%nat <$> ravel sh' ix'
      else None
  | _, _ => None
  end.

Fixpoint unravel (sh : list nat) (k : nat) : list nat :=
  match sh with
  | [] => []
  | _ :: sh' => (k `div` size sh')%nat :: unravel sh' (k `mod` size sh')%nat
  end.

(** [np.zeros_like(a)]: same shape and dtype, every value 0. *)
Definition zeros_like (a : ndarray pixel) : ndarray pixel :=
  NdArray (shape a) ((λ px : pixel, (λ _, 0) <$> px) <$> data a).

(** [np.unique(a)]: the sorted distinct elements. *)
Definition unique (a : ndarray Z) : list Z :=
  remove_dups (merge_sort Z.le (data a)).

(** [a == v], elementwise. *)
Definition eq_scalar (a : ndarray Z) (v : Z) : ndarray bool :=
  NdArray (shape a) ((λ x, bool_decide (x = v)) <$> data a).

(** [np.nonzero(m)]: the coordinates of the true elements, in row-major
    order.  NumPy returns one coordinate array per axis; the list of
    multi-indices below is that tuple read row by row. *)
Definition nonzero (m : ndarray bool) : list (list nat) :=
  unravel (shape m) <$>
    filter (λ k, data m !! k = Some true) (seq 0 (length (data m))).

(** [a[indices]] for a tuple of coordinate arrays. *)
Definition getitem {A} (a : ndarray A) (ixs : list (list nat)) : option (list A) :=
  mapM (λ ix, ravel (shape a) ix ≫= λ k, data a !! k) ixs.

(** [a[indices] = v] for a tuple of coordinate arrays and one value [v],
    broadcast to every selected position. *)
Definition setitem {A} (a : ndarray A) (ixs : list (list nat)) (v : A)
  : option (ndarray A) :=
  ks ← mapM (ravel (shape a)) ixs;
  Some (NdArray (shape a) (foldr (λ k d, <[k:=v]> d) (data a) ks)).

(** [a.copy()] allocates; as a value the copy is the array itself. *)
Definition copy {A} (a : ndarray A) : ndarray A := NdArray (shape a) (data a).

(** [a[m] = v] for a boolean mask [m]: every position where [m] is true
    receives [v].  NumPy raises IndexError when the mask does not have the
    shape of [a]. *)
Definition setmask {A} (a : ndarray A) (m : ndarray bool) (v : A)
  : option (ndarray A) :=
  if decide (shape m = shape a ∧ length (data m) = length (data a))
  then Some (NdArray (shape a)
               (zip_with (λ x (b : bool), if b then v else x) (data a) (data m)))
  else None.

(** [a < t], elementwise, on a float array. *)
Definition lt_scalar (a : ndarray Q) (t : Q) : ndarray bool :=
  NdArray (shape a) ((λ x, bool_decide (x < t)%Q) <$> data a).

(** [np.zeros(shape, np.bool)] *)
Definition zeros_bool (sh : list nat) : ndarray bool :=
  NdArray sh (replicate (size sh) false).

(** Sum of channel vectors, channel by channel. *)
Definition px_add (p q : pixel) : pixel := zip_with Z.add p q.

Definition px_sum (ps : list pixel) : pixel :=
  match ps with
  | [] => []
  | p :: ps' => foldl px_add p ps'
  end.

(** [np.mean(ps, axis=0)]: one float per channel; below, the exact
    quotient.  NumPy adds and divides in float64, so the two differ where
    float64 rounds: not in what [cast] makes of them on the images of
    [exact_in_float64], and possibly so beyond (a sum above 2^53 is no
    longer exact).  On no pixel at all NumPy returns nan; the loop of
    [mean_color] never selects an empty set. *)
Definition mean_axis0 (ps : list pixel) : list Q :=
  (λ s, inject_Z s / inject_Z (Z.of_nat (length ps)))%Q <$> px_sum ps.

(** The images on which the mean above, once stored, is the one NumPy
    stores: dtype uint8 and at most 2^44 pixels.  A sum of at most 2^44
    values below 256 stays below 2^52, and float64 adds such integers
    exactly in any order.  The quotient [s/n] is rounded once; when it is
    not an integer it lies at least [1/n >= 2^-44] below the next one
    [k+1 <= 256], and [k + 1 - 2^-44] is a float64, so the rounded quotient
    stays below [k+1] and is truncated to the same [k]. *)
Definition exact_in_float64 (a : ndarray pixel) : Prop :=
  uint8 a ∧ Z.of_nat (length (data a)) ≤ 2 ^ 44.

(** What that argument uses of the rounding [fl] of a quotient to
    float64: it is monotone, and it leaves a multiple of 2^-44 with a
    numerator of at most 2^53 as it is (such a number is a float64). *)
Definition rounds_like_float64 (fl : Q → Q) : Prop :=
  (∀ a b, (a <= b)%Q → (fl a <= fl b)%Q) ∧
  (∀ m : Z, 0 ≤ m ≤ 2 ^ 53 → (fl (m # 2 ^ 44) == m # 2 ^ 44)%Q).

(** Storing a float into an integer array truncates towards zero. *)
Definition cast (q : Q) : Z := Z.quot (Qnum q) (Z.pos (Qden q)).

End Np.

(** ** The object store

    Python variables hold references.  Arrays that the notebook names live
    in a store, so that a copy ([ws.copy()], [np.zeros_like(image)]) and an
    alias can be told apart; temporaries ([labels == label], the index
    tuple) are plain values. *)

Module Py.
Import Np.

Inductive exn :=
  | IndexError | TypeError | NameError | AttributeError | ValueError.

Inductive object :=
  | Image (a : ndarray pixel)
  | Labels (a : ndarray Z).

Abbreviation loc := nat.
Abbreviation store := (gmap nat object).

Inductive result (A : Type) :=
  | Ok (a : A)
  | Raise (e : exn).
Arguments Ok {A} _.
Arguments Raise {A} _.

(** A computation reads and updates the store; a raised exception leaves
    the store as it was when it was raised. *)
Definition M (A : Type) : Type := store → result A * store.

#[global] Instance M_ret : MRet M := λ A a h, (Ok a, h).
#[global] Instance M_bind : MBind M := λ A B f m h,
  match m h with
  | (Ok a, h') => f a h'
  | (Raise e, h') => (Raise e, h')
  end.

Definition raise {A} (e : exn) : M A := λ h, (Raise e, h).

Definition lift {A} (e : exn) (o : option A) : M A :=
  match o with Some a => mret a | None => raise e end.

(** A Python [for] loop over a list already evaluated. *)
Fixpoint for_ {A} (l : list A) (body : A → M unit) : M unit :=
  match l with
  | [] => mret ()
  | x :: l' => body x ;; for_ l' body
  end.

Definition alloc (o : object) : M loc := λ h,
  let l := fresh (dom h) in (Ok l, <[l:=o]> h).

Definition write (l : loc) (o : object) : M unit := λ h, (Ok (), <[l:=o]> h).

Definition image_at (l : loc) : M (ndarray pixel) := λ h,
  match h !! l with
  | Some (Image a) => (Ok a, h)
  | _ => (Raise TypeError, h)
  end.

Definition labels_at (l : loc) : M (ndarray Z) := λ h,
  match h !! l with
  | Some (Labels a) => (Ok a, h)
  | _ => (Raise TypeError, h)
  end.

(** [np.zeros_like(image)]: a new array. *)
Definition zeros_like (image : loc) : M loc :=
  a ← image_at image; alloc (Image (Np.zeros_like a)).

(** [np.unique(labels)] *)
Definition unique (labels : loc) : M (list Z) :=
  a ← labels_at labels; mret (Np.unique a).

(** [np.nonzero(labels == label)] *)
Definition nonzero_eq (labels : loc) (label : Z) : M (list (list nat)) :=
  a ← labels_at labels; mret (nonzero (eq_scalar a label)).

(** [image[indices]] *)
Definition getitem (image : loc) (indices : list (list nat)) : M (list pixel) :=
  a ← image_at image; lift IndexError (Np.getitem a indices).

(** [out[indices] = v]: the float vector [v] is converted to the dtype of
    [out] and written, in place, at every selected position. *)
Definition setitem (out : loc) (indices : list (list nat)) (v : list Q) : M unit :=
  a ← image_at out;
  a' ← lift IndexError (Np.setitem a indices (cast <$> v));
  write out (Image a').

(** The notebook's function:
<<
    def mean_color(image, labels):
        out = np.zeros_like(image)
        for label in np.unique(labels):
            indices = np.nonzero(labels == label)
            out[indices] = np.mean(image[indices], axis=0)
        return out
>> *)
Definition mean_color (image labels : loc) : M loc :=
  out ← zeros_like image;
  ls ← unique labels;
  for_ ls (λ label,
    indices ← nonzero_eq labels label;
    sub ← getitem image indices;
    setitem out indices (mean_axis0 sub));;
  mret out.

(** [ws.copy()]: a new array with the same contents. *)
Definition copy (a : loc) : M loc :=
  x ← labels_at a; alloc (Labels (Np.copy x)).

(** [a[a == v] = w] on a label array, in place. *)
Definition setitem_where_eq (a : loc) (v w : Z) : M unit :=
  x ← labels_at a;
  x' ← lift IndexError (setmask x (eq_scalar x v) w);
  write a (Labels x').

End Py.

(** ** What [mean_color] is to compute

    Written from the statement, not from the code: the pixels of [img]
    whose label is [l], the sum of their values in channel [j], and the
    mean of that channel truncated to an integer. *)

Module MeanSpec.
Import Np.

Definition members (img : ndarray pixel) (lab : ndarray Z) (l : Z) : list pixel :=
  fst <$> filter (λ pl, pl.2 = l) (zip (data img) (data lab)).

Definition chan (j : nat) (px : pixel) : Z := default 0 (px !! j).

Definition sumZ (l : list Z) : Z := foldr Z.add 0 l.

Definition mean_of (j : nat) (ps : list pixel) : Z :=
  Z.quot (sumZ (chan j <$> ps)) (Z.of_nat (length ps)).

End MeanSpec.

(** ** The loop of [mean_color] as a function on data *)

Module Paint.
Import Np MeanSpec.

(** Flat positions at which a label array holds [l]. *)
Definition where_eq (a : ndarray Z) (l : Z) : list nat :=
  filter (λ k, data a !! k = Some l) (seq 0 (length (data a))).

(** One pass of the loop body, as a function on the data of [out]. *)
Definition paint (img : ndarray pixel) (lab : ndarray Z) (l : Z) (d : list pixel)
  : list pixel :=
  foldr (λ k d, <[k := cast <$> mean_axis0 (members img lab l)]> d) d (where_eq lab l).

(** The data of the array [mean_color] returns. *)
Definition painted (img : ndarray pixel) (lab : ndarray Z) : list pixel :=
  foldl (λ d l, paint img lab l d) (data (Np.zeros_like img)) (Np.unique lab).

End Paint.

(** ** The region filter *)

Module RegionFilter.
Import Np Py.

(** A region descriptor of [skimage.measure.regionprops]: the label of the
    region and its eccentricity (a finite float, read as the rational it
    denotes). *)
Record region := Region { label : Z; eccentricity : Q }.

(** The float literal [0.6].  No float lies between the literal's value and
    the decimal 0.6, so comparing a float with one or the other gives the
    same answer. *)
Definition max_eccentricity : Q := (6 # 10)%Q.

Section Filter.
(** [regionprops(ws)], computed by the library from the contents of the
    label map. *)
Variable regionprops : ndarray Z → list region.

Definition regionprops_at (ws : loc) : M (list region) :=
  a ← labels_at ws; mret (regionprops a).

(** The cell
<<
  regions = regionprops(ws)

  ws_updated = ws.copy()
  for region in regions:
      if region.eccentricity > 0.6:
          ws_updated[ws_updated == region.label] = 0
>>
    returning the reference held by [ws_updated]. *)
Definition filter_regions (ws : loc) : M loc :=
  regions ← regionprops_at ws;
  ws_updated ← copy ws;
  for_ regions (λ region,
    if decide (max_eccentricity < eccentricity region)%Q
    then setitem_where_eq ws_updated (label region) 0
    else mret ());;
  mret ws_updated.
End Filter.

(** What one region does to one label value. *)
Definition step (r : region) (x : Z) : Z :=
  if decide (max_eccentricity < eccentricity r)%Q
  then (if decide (x = label r) then 0 else x)
  else x.

Definition too_eccentric (x : Z) (r : region) : Prop :=
  label r = x ∧ (max_eccentricity < eccentricity r)%Q.

#[global] Instance too_eccentric_dec x r : Decision (too_eccentric x r).
Proof. unfold too_eccentric. apply _. Defined.

End RegionFilter.

(** ** Notebook variables and the clustering cells *)

Module Nb.
Import Np Py.
#[local] Open Scope string_scope.

(** What a global name is bound to: an array, by reference, or a module
    or a function.  The notebook binds such a name by an import or by
    [def mean_color], and no cell binds it to anything else: [Lib] stands
    for the module or function that the notebook gave that name. *)
Inductive binding :=
  | Arr (l : loc)
  | Lib.

(** The notebook's global names and the objects behind the references. *)
Record state := State { globals : gmap string binding; objects : store }.

Definition N (A : Type) : Type := state → result A * state.

#[global] Instance N_ret : MRet N := λ A a s, (Ok a, s).
#[global] Instance N_bind : MBind N := λ A B f m s,
  match m s with
  | (Ok a, s') => f a s'
  | (Raise e, s') => (Raise e, s')
  end.

Definition raiseN {A} (e : exn) : N A := λ s, (Raise e, s).

(** An array operation run from a cell: it sees the objects, not the names. *)
Definition liftM {A} (m : M A) : N A := λ s,
  let '(r, h) := m (objects s) in (r, State (globals s) h).

(** Reading a global name; an unbound name is a NameError. *)
Definition getvar (x : string) : N binding := λ s,
  match globals s !! x with
  | Some b => (Ok b, s)
  | None => (Raise NameError, s)
  end.

(** [x = ...]: the name is rebound; the object it named before is not
    touched. *)
Definition setvar (x : string) (b : binding) : N unit := λ s,
  (Ok (), State (<[x := b]> (globals s)) (objects s)).

(** [m.f] for what the name of a module is bound to: an array has no such
    attribute. *)
Definition module (b : binding) : N unit :=
  match b with Lib => mret () | Arr _ => raiseN AttributeError end.

(** [f(...)] for what the name of a function is bound to: an array cannot
    be called. *)
Definition callable (b : binding) : N unit :=
  match b with Lib => mret () | Arr _ => raiseN TypeError end.

(** An argument that has to be an array. *)
Definition arr (b : binding) : N loc :=
  match b with Arr l => mret l | Lib => raiseN TypeError end.

(** The array a name refers to. *)
Definition var (s : state) (x : string) : option object :=
  globals s !! x ≫= λ b,
    match b with Arr l => objects s !! l | Lib => None end.


(** The keyword arguments the notebook passes to [seg.slic]; [None] is an
    argument left at the library's default. *)
Record slic_kwargs := SlicKwargs {
  n_segments : Z;
  compactness : Z;
  sigma : option Z;
  enforce_connectivity : option bool
}.

(** The arguments of the five clustering cells, in notebook order. *)
Definition kw_first := SlicKwargs 18 10 None None.
Definition kw_connectivity := SlicKwargs 18 10 None (Some true).
Definition kw_sigma := SlicKwargs 18 10 (Some 2) (Some true).
Definition kw_segments := SlicKwargs 24 10 (Some 2) (Some true).
Definition kw_compactness := SlicKwargs 24 40 (Some 2) (Some true).

(** [def mean_color(image, labels): ...] binds the name. *)
Definition def_mean_color : N unit := setvar "mean_color" Lib.

(** [mean_color(image, labels)] in a cell: the three names are read, the
    function is called, and its body starts by reading [np]. *)
Definition call_mean_color : N loc :=
  f ← getvar "mean_color";
  image ← getvar "image";
  labels ← getvar "labels";
  callable f;;
  np ← getvar "np";
  module np;;
  i ← arr image;
  l ← arr labels;
  liftM (mean_color i l).



Section Slic.
(** [seg.slic]: the label map it computes from the contents of the image
    and the keyword arguments, or the exception it raises (for arguments
    out of range, say). *)
Variable slic : ndarray pixel → slic_kwargs → result (ndarray Z).

(** [seg.slic(image, ...)] returns a new array; when it raises, nothing
    has been allocated. *)
Definition slic_at (image : loc) (kw : slic_kwargs) : M loc :=
  a ← image_at image;
  match slic a kw with
  | Ok lab => alloc (Labels lab)
  | Raise e => raise e
  end.

(** [labels = seg.slic(image, ...)], the assignment every clustering cell
    starts with: [seg] is read, then its attribute, then [image]; the
    library is called, and only then is [labels] rebound.  (The first cell
    goes on to render [labels.astype(float) / labels.max()] and to print
    [labels]; neither changes a name or an array.) *)
Definition cluster (kw : slic_kwargs) : N unit :=
  seg ← getvar "seg";
  module seg;;
  image ← getvar "image";
  i ← arr image;
  labels ← liftM (slic_at i kw);
  setvar "labels" (Arr labels).

(** The two assignments of a re-run of the clustering with other
    arguments:
<<
  labels = seg.slic(image, n_segments=..., compactness=..., ...)
  label_image = mean_color(image, labels)
>>
    The call [skdemo.imshow_all(image, label_image)] that ends the cell
    renders; it binds no name and changes no array. *)
Definition rerun (kw : slic_kwargs) : N unit :=
  cluster kw;;
  label_image ← call_mean_color;
  setvar "label_image" (Arr label_image).

End Slic.

End Nb.

(** ** Seeds for the watershed of the coins image *)

Module Coins.
Import Np.

(** [threshold = 0.4].  The float64 that Python reads for [0.4] lies just
    above 4/10, and no float64 lies between the two: for the floats of an
    edge image, [x < threshold] holds of the float exactly when it holds
    of the rational. *)
Definition threshold : Q := (4 # 10)%Q.

(** Squared Euclidean distance between two grid positions, and the
    distance itself.  The float a library returns for a distance is read as
    the real number it stands for. *)
Definition sq_dist (ix jx : list nat) : Z :=
  foldr Z.add 0 (zip_with (λ i j, (Z.of_nat i - Z.of_nat j) ^ 2) ix jx).

Definition euclid (ix jx : list nat) : R := sqrt (IZR (sq_dist ix jx)).

(** The unit roundoff of float64, 2^-53: a correctly rounded operation
    returns its exact result [d] up to [eps * |d|]. *)
Definition eps : R := (/ 9007199254740992)%R.

(** [v] is the distance [d] as a float64. *)
Definition rounds (d v : R) : Prop := (Rabs (v - d) <= eps * d)%R.

(** SciPy's contract for [ndi.distance_transform_edt(m)]: every element is
    replaced by its distance to the nearest background (false) element, 0
    on the background itself.  The result is a float64 array: SciPy finds
    a nearest background element exactly, on integer squared distances,
    and returns the square root of that integer as float64 rounds it.  The
    contract says nothing of a mask without background. *)
Definition is_edt (m : ndarray bool) (d : ndarray R) : Prop :=
  shape d = shape m ∧
  ∀ ix k, ravel (shape m) ix = Some k →
    ∃ v, data d !! k = Some v ∧
      (data m !! k = Some false → v = 0%R) ∧
      ((∃ j, data m !! j = Some false) →
         ∃ jx j, ravel (shape m) jx = Some j ∧ data m !! j = Some false ∧
           (∀ jx' j', ravel (shape m) jx' = Some j' →
              data m !! j' = Some false → sq_dist ix jx ≤ sq_dist ix jx') ∧
           rounds (euclid ix jx) v).

(** SciPy's contract for [ndi.label(m)], as far as the seeds need it: the
    labelled array has the shape of [m] and is non-zero exactly on the true
    elements of [m]. *)
Definition is_labelling (m : ndarray bool) (s : ndarray Z) : Prop :=
  shape s = shape m ∧
  ∀ k b, data m !! k = Some b →
    ∃ v, data s !! k = Some v ∧ (v ≠ 0 ↔ b = true).

Section Seeds.
Variable sobel : ndarray Z → ndarray Q.
Variable distance_transform_edt : ndarray bool → ndarray R.
Variable peak_local_max : ndarray R → list (list nat).
Variable ndi_label : ndarray bool → ndarray Z * nat.
Variable watershed : ndarray Q → ndarray Z → ndarray Z.

(** [non_edges = (edges < threshold)] *)
Definition non_edges (edges : ndarray Q) : ndarray bool :=
  lt_scalar edges threshold.

(** [distance_from_edge = ndi.distance_transform_edt(non_edges)] *)
Definition distance_from_edge (edges : ndarray Q) : ndarray R :=
  distance_transform_edt (non_edges edges).

(** [peaks_image = np.zeros(coins.shape, np.bool)] followed by
    [peaks_image[tuple(np.transpose(peaks))] = True].  [peaks] is the
    (N, ndim) array of peak finding, given by its rows: one row per peak,
    one coordinate per axis of the image.  Its transpose, as a tuple, is
    the tuple of coordinate arrays that selects those rows' positions. *)
Definition peaks_image (coins : ndarray Z) (peaks : list (list nat))
  : option (ndarray bool) :=
  setitem (zeros_bool (shape coins)) peaks true.

(** The coins cells up to the flooding:
<<
  coins = data.coins()
  edges = filters.sobel(coins)
  ...
  peaks = feature.peak_local_max(distance_from_edge)
  ...
  seeds, num_seeds = ndi.label(peaks_image)
  ...
  ws = watershed(edges, seeds)
>> *)
Definition edges_of (coins : ndarray Z) : ndarray Q := sobel coins.

Definition peaks_of (coins : ndarray Z) : list (list nat) :=
  peak_local_max (distance_from_edge (edges_of coins)).

Definition seeds_of (coins : ndarray Z) : option (ndarray Z) :=
  m ← peaks_image coins (peaks_of coins); Some (ndi_label m).1.

Definition ws_of (coins : ndarray Z) : option (ndarray Z) :=
  seeds ← seeds_of coins; Some (watershed (edges_of coins) seeds).
End Seeds.

(** What the statement calls a boundary pixel: the Sobel response is at
    least 0.4. *)
Definition boundary (edges : ndarray Q) (j : nat) : Prop :=
  ∃ e, data edges !! j = Some e ∧ (4 # 10 <= e)%Q.

End Coins.

(** ** Library contracts on shapes *)

Module Contracts.
Import Np Nb.


End Contracts.

(** ** Frames *)

Module Frame.
Import Np Py.

(** [frame l m Q]: run from a store in which [l] is allocated, [m] leaves
    the object at [l] as it is, whether it returns or raises, and a
    returned value satisfies [Q]. *)
Definition frame {A} (l : loc) (m : M A) (Q : A → Prop) : Prop :=
  ∀ h, is_Some (h !! l) →
    (m h).2 !! l = h !! l ∧ ∀ a, (m h).1 = Ok a → Q a.

(** [keeps X m]: on every state, whether it returns or raises, the cell
    code [m] leaves every object that exists as it is and rebinds no name
    outside [X]. *)
Definition keeps {A} (X : list string) (m : Nb.N A) : Prop :=
  ∀ s,
    (∀ l, is_Some (Nb.objects s !! l) →
          Nb.objects (m s).2 !! l = Nb.objects s !! l) ∧
    (∀ x, x ∉ X → Nb.globals (m s).2 !! x = Nb.globals s !! x).

End Frame.

(** ** The code cells of the notebook

    The cells as syntax: what is called, in which order, inside which
    loops.  A keyword argument [k=e] is the argument [Kw k e]; an omitted
    slice bound is [NoneE]. *)

Module Syntax.
#[local] Open Scope string_scope.
#[local] Set Warnings "-register-all".

(** [==], [<], [>] and [/], [+], [%]. *)
Inductive cmpop := CmpEq | CmpLt | CmpGt.
Inductive binop := Div | Add | Mod.

(** Expressions.  A list display and a tuple display are kept apart; the
    unary minus is [Neg]. *)
Inductive expr :=
  | Name (x : string)
  | Str (s : string)
  | Int (n : Z)
  | Float (q : Q)
  | TrueE
  | NoneE
  | Attr (e : expr) (a : string)
  | Call (f : expr) (args : list expr)
  | Kw (k : string) (e : expr)
  | Subscript (e : expr) (ix : expr)
  | Slice (lo hi : expr)
  | Tuple (es : list expr)
  | List (es : list expr)
  | Compare (op : cmpop) (a b : expr)
  | BinOp (op : binop) (a b : expr)
  | Neg (e : expr).

(** Statements.  [Import m a] is [import m as a], [FromImport m names] is
    [from m import x as a, ...], [Magic] a line starting with [%].  No cell
    of the notebook has a [try]; the language has one, so that its absence
    says something. *)
Inductive stmt :=
  | Import (module asname : string)
  | FromImport (module : string) (names : list (string * string))
  | Magic (line : string)
  | Assign (target value : expr)
  | Expr (e : expr)
  | For (target iter : expr) (body : list stmt)
  | If (test : expr) (body orelse : list stmt)
  | Def (name : string) (params : list string) (body : list stmt)
  | Return (e : expr)
  | Try (body handler : list stmt).

End Syntax.

Module Cells.
Import Syntax.
#[local] Open Scope string_scope.

(** [seg.slic(image, n_segments=n, compactness=c, ...)] *)
Definition slic_call (kws : list expr) : expr :=
  Call (Attr (Name "seg") "slic") (Name "image" :: kws).

Definition cell_future : list stmt :=
  [FromImport "__future__" [("division", "division"); ("print_function", "print_function")];
   Magic "matplotlib inline"].

Definition cell_numpy : list stmt :=
  [Import "numpy" "np";
   FromImport "matplotlib" [("pyplot", "plt")]].

Definition cell_load : list stmt :=
  [Import "skdemo" "skdemo";
   Assign (Subscript (Attr (Name "plt") "rcParams") (Str "image.cmap")) (Str "spectral");
   FromImport "skimage" [("io", "io"); ("segmentation", "seg"); ("color", "color")];
   Assign (Name "url") (Str "../images/spice_1.jpg");
   Assign (Name "image") (Call (Attr (Name "io") "imread") [Name "url"])].

(** [labels = seg.slic(image, n_segments=18, compactness=10)] *)
Definition clustering : stmt :=
  Assign (Name "labels") (slic_call [Kw "n_segments" (Int 18); Kw "compactness" (Int 10)]).

Definition cell_slic : list stmt :=
  [clustering;
   Expr (Call (Attr (Name "skdemo") "imshow_all")
           [Name "image";
            BinOp Div (Call (Attr (Name "labels") "astype") [Name "float"])
                      (Call (Attr (Name "labels") "max") [])]);
   Expr (Call (Name "print") [Name "labels"])].

Definition def_mean_color : stmt :=
  Def "mean_color" ["image"; "labels"]
    [Assign (Name "out") (Call (Attr (Name "np") "zeros_like") [Name "image"]);
     For (Name "label") (Call (Attr (Name "np") "unique") [Name "labels"])
       [Assign (Name "indices")
          (Call (Attr (Name "np") "nonzero") [Compare CmpEq (Name "labels") (Name "label")]);
        Assign (Subscript (Name "out") (Name "indices"))
          (Call (Attr (Name "np") "mean")
             [Subscript (Name "image") (Name "indices"); Kw "axis" (Int 0)])];
     Return (Name "out")].

(** [skdemo.imshow_all(image, mean_color(image, labels))] *)
Definition visualization : stmt :=
  Expr (Call (Attr (Name "skdemo") "imshow_all")
          [Name "image"; Call (Name "mean_color") [Name "image"; Name "labels"]]).

Definition cell_mean_color : list stmt := [def_mean_color; visualization].

Definition cell_rerun (kws : list expr) : list stmt :=
  [Assign (Name "labels") (slic_call kws);
   Assign (Name "label_image") (Call (Name "mean_color") [Name "image"; Name "labels"]);
   Expr (Call (Attr (Name "skdemo") "imshow_all") [Name "image"; Name "label_image"])].

Definition cell_connectivity : list stmt :=
  cell_rerun [Kw "n_segments" (Int 18); Kw "compactness" (Int 10);
              Kw "enforce_connectivity" TrueE].

Definition cell_sigma : list stmt :=
  cell_rerun [Kw "n_segments" (Int 18); Kw "compactness" (Int 10);
              Kw "sigma" (Int 2); Kw "enforce_connectivity" TrueE].

Definition cell_segments : list stmt :=
  cell_rerun [Kw "n_segments" (Int 24); Kw "compactness" (Int 10);
              Kw "sigma" (Int 2); Kw "enforce_connectivity" TrueE].

Definition cell_compactness : list stmt :=
  cell_rerun [Kw "n_segments" (Int 24); Kw "compactness" (Int 40);
              Kw "sigma" (Int 2); Kw "enforce_connectivity" TrueE].

Definition cell_url2 : list stmt :=
  [Assign (Name "url2") (Str "../images/spices.jpg")].

Definition cell_imports : list stmt :=
  [FromImport "skimage" [("data", "data")];
   FromImport "skimage" [("filters", "filters")];
   FromImport "matplotlib" [("pyplot", "plt"); ("cm", "cm")]].

(** [edges = filters.sobel(coins)] *)
Definition edge_detection : stmt :=
  Assign (Name "edges") (Call (Attr (Name "filters") "sobel") [Name "coins"]).

Definition cell_coins : list stmt :=
  [Assign (Name "coins") (Call (Attr (Name "data") "coins") []);
   edge_detection;
   Expr (Call (Attr (Name "plt") "imshow") [Name "edges"; Kw "cmap" (Str "gray")])].

Definition cell_one_dimensional : list stmt :=
  [FromImport "skimage.morphology" [("watershed", "watershed")];
   FromImport "scipy" [("ndimage", "ndi")];
   Assign (Name "x")
     (Call (Attr (Name "np") "array")
        [List [Int 0; Int 1; Int 2; Int 3; Int 4; Int 5; Int 6; Int 7; Int 8; Int 9;
               Int 10; Int 11]]);
   Assign (Name "y")
     (Call (Attr (Name "np") "array")
        [List [Int 1; Int 0; Int 1; Int 2; Int 1; Int 3; Int 2; Int 0; Int 2; Int 4;
               Int 1; Int 0]]);
   Assign (Name "seeds")
     (Subscript (Call (Attr (Name "ndi") "label") [Compare CmpEq (Name "y") (Int 0)])
                (Int 0));
   Assign (Name "seed_positions")
     (Subscript (Call (Attr (Name "np") "argwhere") [Name "seeds"])
                (Tuple [Slice NoneE NoneE; Int 0]));
   Expr (Call (Name "print") [Str "Seeds:"; Name "seeds"]);
   Expr (Call (Name "print") [Str "Seed positions:"; Name "seed_positions"]);
   Assign (Name "result") (Call (Name "watershed") [Name "y"; Name "seeds"]);
   Expr (Call (Attr (Name "plt") "figure") [Kw "figsize" (Tuple [Int 10; Int 5])]);
   Expr (Call (Attr (Name "plt") "plot")
           [Name "y"; Str "-o"; Kw "label" (Str "Image slice"); Kw "linewidth" (Int 3)]);
   Expr (Call (Attr (Name "plt") "plot")
           [Name "seed_positions";
            Call (Attr (Name "np") "zeros_like") [Name "seed_positions"];
            Str "r^"; Kw "label" (Str "Seeds"); Kw "markersize" (Int 15)]);
   For (Tuple [Name "n"; Name "label"])
       (Call (Name "enumerate") [Call (Attr (Name "np") "unique") [Name "result"]])
     [Assign (Name "mask") (Compare CmpEq (Name "result") (Name "label"));
      Expr (Call (Attr (Name "plt") "bar")
              [Subscript (Subscript (Name "x") (Name "mask")) (Slice NoneE (Neg (Int 1)));
               Subscript (Subscript (Name "result") (Name "mask")) (Slice NoneE (Neg (Int 1)));
               Kw "width" (Int 1);
               Kw "label" (BinOp Mod (Str "Region %d") (Name "n"));
               Kw "alpha" (Float (1 # 10))])];
   Expr (Call (Attr (Name "plt") "vlines")
           [BinOp Add
              (Call (Attr (Name "np") "argwhere")
                 [Call (Attr (Name "np") "diff") [Name "result"]])
              (Float (5 # 10));
            Neg (Float (2 # 10)); Float (41 # 10); Str "m";
            Kw "linewidth" (Int 3); Kw "linestyle" (Str "--")]);
   Expr (Call (Attr (Name "plt") "legend")
           [Kw "loc" (Str "upper left"); Kw "numpoints" (Int 1)]);
   Expr (Call (Attr (Name "plt") "axis") [Str "off"]);
   Expr (Call (Attr (Name "plt") "ylim") [Neg (Float (2 # 10)); Float (41 # 10)])].

(** [distance_from_edge = ndi.distance_transform_edt(non_edges)] *)
Definition distance_transform : stmt :=
  Assign (Name "distance_from_edge")
    (Call (Attr (Name "ndi") "distance_transform_edt") [Name "non_edges"]).

Definition cell_distance : list stmt :=
  [Assign (Name "threshold") (Float (4 # 10));
   Assign (Name "non_edges") (Compare CmpLt (Name "edges") (Name "threshold"));
   distance_transform;
   Expr (Call (Attr (Name "plt") "imshow")
           [Name "distance_from_edge"; Kw "cmap" (Str "gray")])].

(** [peaks = feature.peak_local_max(distance_from_edge)] *)
Definition peak_finding : stmt :=
  Assign (Name "peaks")
    (Call (Attr (Name "feature") "peak_local_max") [Name "distance_from_edge"]).

Definition cell_peaks : list stmt :=
  [FromImport "skimage" [("feature", "feature")];
   peak_finding;
   Expr (Call (Name "print") [Str "Peaks shape:"; Attr (Name "peaks") "shape"]);
   Assign (Name "peaks_image")
     (Call (Attr (Name "np") "zeros")
        [Attr (Name "coins") "shape"; Attr (Name "np") "bool"]);
   Assign (Subscript (Name "peaks_image")
             (Call (Name "tuple") [Call (Attr (Name "np") "transpose") [Name "peaks"]]))
          TrueE;
   Assign (Tuple [Name "seeds"; Name "num_seeds"])
     (Call (Attr (Name "ndi") "label") [Name "peaks_image"]);
   Expr (Call (Attr (Name "plt") "imshow") [Name "edges"; Kw "cmap" (Str "gray")]);
   Expr (Call (Attr (Name "plt") "plot")
           [Subscript (Name "peaks") (Tuple [Slice NoneE NoneE; Int 1]);
            Subscript (Name "peaks") (Tuple [Slice NoneE NoneE; Int 0]);
            Str "ro"]);
   Expr (Call (Attr (Name "plt") "axis") [Str "image"])].

(** [ws = watershed(edges, seeds)] *)
Definition flooding : stmt :=
  Assign (Name "ws") (Call (Name "watershed") [Name "edges"; Name "seeds"]).

Definition cell_watershed : list stmt :=
  [flooding;
   FromImport "skimage" [("color", "color")];
   Expr (Call (Attr (Name "plt") "imshow")
           [Call (Attr (Name "color") "label2rgb") [Name "ws"; Name "coins"]])].

(** The region filter: three statements, the last one a loop. *)
Definition region_filtering : list stmt :=
  [Assign (Name "regions") (Call (Name "regionprops") [Name "ws"]);
   Assign (Name "ws_updated") (Call (Attr (Name "ws") "copy") []);
   For (Name "region") (Name "regions")
     [If (Compare CmpGt (Attr (Name "region") "eccentricity") (Float (6 # 10)))
        [Assign (Subscript (Name "ws_updated")
                   (Compare CmpEq (Name "ws_updated") (Attr (Name "region") "label")))
                (Int 0)]
        []]].

Definition cell_filter : list stmt :=
  FromImport "skimage.measure" [("regionprops", "regionprops")]
  :: region_filtering ++
  [Expr (Call (Attr (Name "plt") "imshow")
           [Call (Attr (Name "color") "label2rgb")
              [Name "ws_updated"; Name "coins"; Kw "bg_label" (Int 0)]])].

Definition cell_style : list stmt :=
  [Magic "reload_ext load_style";
   Magic "load_style ../themes/tutorial.css"].

(** The code cells in notebook order (the last cell is empty). *)
Definition notebook : list (list stmt) :=
  [cell_future; cell_numpy; cell_load; cell_slic; cell_mean_color;
   cell_connectivity; cell_sigma; cell_segments; cell_compactness;
   cell_url2; cell_imports; cell_coins; cell_one_dimensional;
   cell_distance; cell_peaks; cell_watershed; cell_filter; cell_style; []].

End Cells.

(** ** Running the cells

    The cells are run against the libraries, which are a parameter: every
    operation that the notebook does not implement itself (a call of a
    library function or method, an attribute, an operator on arrays, an
    import, an IPython magic) is asked of [lib], which answers with a value
    or raises, and may change the world (files, figures, the kernel).
    Each such operation is recorded in [log]. *)

Module Sem.
Import Syntax.
#[local] Open Scope string_scope.
#[local] Set Warnings "-register-all".

Inductive val :=
  | VStr (s : string)
  | VInt (n : Z)
  | VFloat (q : Q)
  | VBool (b : bool)
  | VNone
  | VKw (k : string) (v : val)
  | VTuple (vs : list val)
  | VFun (name : string)
  | VObj (id : nat).

Abbreviation exn := string.

Inductive prim :=
  | PImport (module : string)
  | PImportFrom (module name : string)
  | PMagic (line : string)
  | PBuiltin (x : string)
  | PAttr (a : string)
  | PCall (callee : expr)
  | PSubscript
  | PSetItem
  | PSlice
  | PCompare (op : cmpop)
  | PBinOp (op : binop)
  | PNeg
  | PIter
  | PTruth.

Record event := Event { op : prim; args : list val; outcome : val + exn }.

Inductive res (A : Type) :=
  | Val (a : A)
  | Ret (v : val)
  | Exc (e : exn)
  | Timeout.
Arguments Val {A} _.
Arguments Ret {A} _.
Arguments Exc {A} _.
Arguments Timeout {A}.

Section Run.
Variable W : Type.
Variable lib : prim → list val → W → (val + exn) * W.

Record st := St {
  globals : gmap string val;
  locals : option (gmap string val);
  funs : gmap string (list string * list stmt);
  world : W;
  log : list event
}.

Definition X (A : Type) : Type := st → res A * st.

Definition ret {A} (a : A) : X A := λ s, (Val a, s).

Definition raise {A} (e : exn) : X A := λ s, (Exc e, s).

(** An exception, a [return] and the end of the fuel all skip the rest. *)
Definition bind {A B} (m : X A) (f : A → X B) : X B := λ s,
  match m s with
  | (Val a, s') => f a s'
  | (Ret v, s') => (Ret v, s')
  | (Exc e, s') => (Exc e, s')
  | (Timeout, s') => (Timeout, s')
  end.

Notation "x ⇐ m ;; k" := (bind m (λ x, k))
  (at level 100, m at next level, right associativity).

(** One operation of the libraries. *)
Definition ask (p : prim) (vs : list val) : X val := λ s,
  let '(r, w) := lib p vs (world s) in
  (match r with inl v => Val v | inr e => Exc e end,
   St (globals s) (locals s) (funs s) w (log s ++ [Event p vs r])).

(** A name: local, then global, then a builtin of the kernel. *)
Definition lookup (x : string) : X val := λ s,
  match locals s ≫= (λ l, l !! x) with
  | Some v => (Val v, s)
  | None =>
      match globals s !! x with
      | Some v => (Val v, s)
      | None => ask (PBuiltin x) [] s
      end
  end.

Definition bind_name (x : string) (v : val) : X unit := λ s,
  match locals s with
  | Some l => (Val (), St (globals s) (Some (<[x := v]> l)) (funs s) (world s) (log s))
  | None => (Val (), St (<[x := v]> (globals s)) None (funs s) (world s) (log s))
  end.

Definition define (name : string) (params : list string) (body : list stmt) : X unit :=
  λ s, (Val (), St (globals s) (locals s) (<[name := (params, body)]> (funs s))
                   (world s) (log s)).

(** The items of an iterable. *)
Definition items (v : val) : X (list val) :=
  r ⇐ ask PIter [v];;
  match r with VTuple vs => ret vs | _ => raise "TypeError" end.

Fixpoint bind_names (xs : list expr) (vs : list val) : X unit :=
  match xs, vs with
  | [], [] => ret ()
  | Name x :: xs', v :: vs' => _ ⇐ bind_name x v;; bind_names xs' vs'
  | _, _ => raise "ValueError"
  end.

(** [target = v] *)
Definition assign (ev : expr → X val) (target : expr) (v : val) : X unit :=
  match target with
  | Name x => bind_name x v
  | Tuple ts => vs ⇐ items v;; bind_names ts vs
  | Subscript e ix =>
      a ⇐ ev e;; i ⇐ ev ix;; _ ⇐ ask PSetItem [a; i; v];; ret ()
  | _ => raise "SyntaxError"
  end.

Fixpoint for_each (vs : list val) (body : val → X unit) : X unit :=
  match vs with
  | [] => ret ()
  | v :: vs' => _ ⇐ body v;; for_each vs' body
  end.

Fixpoint import_names (module : string) (names : list (string * string)) : X unit :=
  match names with
  | [] => ret ()
  | (x, a) :: names' =>
      v ⇐ ask (PImportFrom module x) [];;
      _ ⇐ bind_name a v;;
      import_names module names'
  end.

(** A call of a function defined in the notebook: the body runs with the
    parameters as its local names. *)
Definition call_fun (run : list stmt → X unit) (name : string) (vs : list val)
  : X val := λ s,
  match funs s !! name with
  | None => (Exc "NameError", s)
  | Some (params, body) =>
      if decide (length params = length vs) then
        let caller := locals s in
        let s1 := St (globals s) (Some (list_to_map (zip params vs)))
                     (funs s) (world s) (log s) in
        let '(r, s2) := run body s1 in
        let s3 := St (globals s2) caller (funs s2) (world s2) (log s2) in
        match r with
        | Val _ => (Val VNone, s3)
        | Ret v => (Val v, s3)
        | Exc e => (Exc e, s3)
        | Timeout => (Timeout, s3)
        end
      else (Exc "TypeError", s)
  end.

(** [try: body except: handler] *)
Definition try_ (body handler : X unit) : X unit := λ s,
  match body s with
  | (Exc e, s') => handler s'
  | r => r
  end.

Fixpoint eval (n : nat) (e : expr) {struct n} : X val :=
  match n with
  | O => λ s, (Timeout, s)
  | S n =>
      match e with
      | Name x => lookup x
      | Str s => ret (VStr s)
      | Int z => ret (VInt z)
      | Float q => ret (VFloat q)
      | TrueE => ret (VBool true)
      | NoneE => ret VNone
      | Attr e a => v ⇐ eval n e;; ask (PAttr a) [v]
      | Call f es =>
          fv ⇐ eval n f;;
          vs ⇐ eval_list n es;;
          match fv with
          | VFun name => call_fun (exec_list n) name vs
          | _ => ask (PCall f) (fv :: vs)
          end
      | Kw k e => v ⇐ eval n e;; ret (VKw k v)
      | Subscript e ix => v ⇐ eval n e;; i ⇐ eval n ix;; ask PSubscript [v; i]
      | Slice lo hi => l ⇐ eval n lo;; h ⇐ eval n hi;; ask PSlice [l; h]
      | Tuple es => vs ⇐ eval_list n es;; ret (VTuple vs)
      | List es => vs ⇐ eval_list n es;; ret (VTuple vs)
      | Compare o a b => x ⇐ eval n a;; y ⇐ eval n b;; ask (PCompare o) [x; y]
      | BinOp o a b => x ⇐ eval n a;; y ⇐ eval n b;; ask (PBinOp o) [x; y]
      | Neg e => v ⇐ eval n e;; ask PNeg [v]
      end
  end
with eval_list (n : nat) (es : list expr) {struct n} : X (list val) :=
  match n with
  | O => λ s, (Timeout, s)
  | S n =>
      match es with
      | [] => ret []
      | e :: es' => v ⇐ eval n e;; vs ⇐ eval_list n es';; ret (v :: vs)
      end
  end
with exec (n : nat) (c : stmt) {struct n} : X unit :=
  match n with
  | O => λ s, (Timeout, s)
  | S n =>
      match c with
      | Import m a => v ⇐ ask (PImport m) [];; bind_name a v
      | FromImport m names => import_names m names
      | Magic line => _ ⇐ ask (PMagic line) [];; ret ()
      | Assign target value => v ⇐ eval n value;; assign (eval n) target v
      | Expr e => _ ⇐ eval n e;; ret ()
      | For target iter body =>
          it ⇐ eval n iter;;
          vs ⇐ items it;;
          for_each vs (λ v, _ ⇐ assign (eval n) target v;; exec_list n body)
      | If test body orelse =>
          t ⇐ eval n test;;
          b ⇐ ask PTruth [t];;
          match b with
          | VBool true => exec_list n body
          | VBool false => exec_list n orelse
          | _ => raise "TypeError"
          end
      | Def name params body =>
          _ ⇐ define name params body;; bind_name name (VFun name)
      | Return e => v ⇐ eval n e;; (λ s, (Ret v, s))
      | Try body handler => try_ (exec_list n body) (exec_list n handler)
      end
  end
with exec_list (n : nat) (cs : list stmt) {struct n} : X unit :=
  match n with
  | O => λ s, (Timeout, s)
  | S n =>
      match cs with
      | [] => ret ()
      | c :: cs' => _ ⇐ exec n c;; exec_list n cs'
      end
  end.

(** Running the cells from the top, in order, in a fresh kernel: the run
    stops at the first cell that does not complete. *)
Fixpoint run_cells (n : nat) (cells : list (list stmt)) : X unit :=
  match cells with
  | [] => ret ()
  | cell :: cells' => _ ⇐ exec_list n cell;; run_cells n cells'
  end.

Definition fresh_kernel (w : W) : st := St ∅ None ∅ w [].

Definition run (n : nat) (cells : list (list stmt)) (w : W) : res unit * st :=
  run_cells n cells (fresh_kernel w).

End Run.

Arguments St {W} _ _ _ _ _.
Arguments globals {W} _.
Arguments locals {W} _.
Arguments funs {W} _.
Arguments world {W} _.
Arguments log {W} _.

End Sem.

(** ** Static checks on the cells *)

Module Static.
Import Syntax Sem.
#[local] Open Scope string_scope.

Section Allowed.
(** The operations a piece of code may ask of the libraries. *)
Variable allowed : prim → bool.

Fixpoint good_expr (e : expr) : bool :=
  match e with
  | Name x => allowed (PBuiltin x)
  | Str _ | Int _ | Float _ | TrueE | NoneE => true
  | Attr e a => good_expr e && allowed (PAttr a)
  | Call f es => good_expr f && forallb good_expr es && allowed (PCall f)
  | Kw _ e => good_expr e
  | Subscript e ix => good_expr e && good_expr ix && allowed PSubscript
  | Slice lo hi => good_expr lo && good_expr hi && allowed PSlice
  | Tuple es | List es => forallb good_expr es
  | Compare o a b => good_expr a && good_expr b && allowed (PCompare o)
  | BinOp o a b => good_expr a && good_expr b && allowed (PBinOp o)
  | Neg e => good_expr e && allowed PNeg
  end.

Definition good_target (t : expr) : bool :=
  match t with
  | Tuple _ => allowed PIter
  | Subscript e ix => good_expr e && good_expr ix && allowed PSetItem
  | _ => true
  end.

(** Code without [try], all of whose operations are allowed. *)
Fixpoint good_stmt (c : stmt) : bool :=
  match c with
  | Import m _ => allowed (PImport m)
  | FromImport m names => forallb (λ xa, allowed (PImportFrom m xa.1)) names
  | Magic line => allowed (PMagic line)
  | Assign t v => good_expr v && good_target t
  | Expr e => good_expr e
  | For t it body =>
      good_expr it && allowed PIter && good_target t && forallb good_stmt body
  | If test body orelse =>
      good_expr test && allowed PTruth && forallb good_stmt body
      && forallb good_stmt orelse
  | Def _ _ body => forallb good_stmt body
  | Return e => good_expr e
  | Try _ _ => false
  end.

Definition good_cells (cells : list (list stmt)) : bool :=
  forallb (forallb good_stmt) cells.
End Allowed.

(** Any operation at all: what is left of [good_stmt] is the absence of
    a handler. *)
Definition anything (p : prim) : bool := true.

Definition no_handler (cells : list (list stmt)) : bool := good_cells anything cells.

End Static.

(** ** Failures in a run *)

Module Trace.
Import Syntax Sem.

(** The operation returned. *)
Definition succeeded (ev : event) : Prop :=
  match outcome ev with inl _ => True | inr _ => False end.

(** No operation so far has failed. *)
Definition clean (l : list event) : Prop := Forall succeeded l.

(** [e] was raised by the last operation, and by no operation before it. *)
Definition raised_last (e : exn) (l : list event) : Prop :=
  ∃ l0 ev, l = l0 ++ [ev] ∧ clean l0 ∧ outcome ev = inr e.

End Trace.

(** ** Runs without a handled failure *)

Module Sound.
Import Syntax Sem Static Trace.

Section Allowed.
Context {W : Type}.
Variable allowed : prim → bool.

Definition good_funs (fs : gmap string (list string * list stmt)) : Prop :=
  map_Forall (λ _ pb, forallb (good_stmt allowed) pb.2 = true) fs.

Definition within (l : list event) : Prop :=
  Forall (λ ev, allowed (op ev) = true) l.

Definition pre (s : st W) : Prop :=
  good_funs (funs s) ∧ within (log s) ∧ clean (log s).

Definition post {A} (rs : res A * st W) : Prop :=
  good_funs (funs rs.2) ∧ within (log rs.2) ∧
  match rs.1 with
  | Exc e => clean (log rs.2) ∨ raised_last e (log rs.2)
  | _ => clean (log rs.2)
  end.

(** [sound m]: started before any failure, [m] ends either without a
    failure or by raising the exception of its last operation. *)
Definition sound {A} (m : X W A) : Prop := ∀ s, pre s → post (m s).
End Allowed.

End Sound.

(** ** What the operations of a run do to the outside *)

Module IO.
Import Syntax Cells Sem.
#[local] Open Scope string_scope.

(** What an operation does outside the kernel's memory. *)
Inductive io :=
  | Pure        (* computes on values in memory *)
  | Kernel      (* loads a module or an extension, sets a kernel option *)
  | ReadImage   (* reads an image file *)
  | Render      (* draws into the inline figure of the cell *)
  | PrintText   (* writes text to the output of the cell *)
  | ReadStyle   (* reads a stylesheet and puts it into the page *)
  | Unknown.    (* not a function the notebook is known to call *)

#[global] Instance io_eq_dec : EqDecision io.
Proof. solve_decision. Defined.

(** The dotted name of a callee: [np.unique] is [["np"; "unique"]]. *)
Fixpoint dotted (f : expr) : option (list string) :=
  match f with
  | Name x => Some [x]
  | Attr e a => (λ d, d ++ [a])%list <$> dotted e
  | _ => None
  end.

(** The functions and methods the notebook calls, by their documentation.
    [mean_color] is the notebook's own function: a call of it runs its
    body, whose operations are recorded one by one. *)
Definition calls : list (list string * io) :=
  [ (["mean_color"], Pure);
    (["io"; "imread"], ReadImage);
    (["data"; "coins"], ReadImage);
    (["skdemo"; "imshow_all"], Render);
    (["plt"; "imshow"], Render);
    (["plt"; "figure"], Render);
    (["plt"; "plot"], Render);
    (["plt"; "bar"], Render);
    (["plt"; "vlines"], Render);
    (["plt"; "legend"], Render);
    (["plt"; "axis"], Render);
    (["plt"; "ylim"], Render);
    (["print"], PrintText);
    (["seg"; "slic"], Pure);
    (["filters"; "sobel"], Pure);
    (["ndi"; "label"], Pure);
    (["ndi"; "distance_transform_edt"], Pure);
    (["feature"; "peak_local_max"], Pure);
    (["color"; "label2rgb"], Pure);
    (["watershed"], Pure);
    (["regionprops"], Pure);
    (["tuple"], Pure);
    (["enumerate"], Pure);
    (["np"; "zeros_like"], Pure);
    (["np"; "unique"], Pure);
    (["np"; "nonzero"], Pure);
    (["np"; "mean"], Pure);
    (["np"; "array"], Pure);
    (["np"; "argwhere"], Pure);
    (["np"; "diff"], Pure);
    (["np"; "zeros"], Pure);
    (["np"; "transpose"], Pure);
    (["labels"; "astype"], Pure);
    (["labels"; "max"], Pure);
    (["ws"; "copy"], Pure) ].

Definition magics : list (string * io) :=
  [ ("matplotlib inline", Kernel);
    ("reload_ext load_style", Kernel);
    ("load_style ../themes/tutorial.css", ReadStyle) ].

Fixpoint assoc {K V} `{EqDecision K} (k : K) (t : list (K * V)) : option V :=
  match t with
  | [] => None
  | (k', v) :: t' => if decide (k = k') then Some v else assoc k t'
  end.

Definition io_of (p : prim) : io :=
  match p with
  | PCall f => default Unknown (dotted f ≫= λ d, assoc d calls)
  | PMagic line => default Unknown (assoc line magics)
  | PImport _ | PImportFrom _ _ => Kernel
  | _ => Pure
  end.

(** The statement as the specification makes it: image files are read and
    plots are rendered, and nothing else touches the outside. *)
Definition images_and_plots_only (l : list event) : Prop :=
  Forall (λ ev, io_of (op ev) ∈ [Pure; Kernel; ReadImage; Render]) l.

(** What the cells do: they also print, and the last cell loads a
    stylesheet. *)
Definition permitted (p : prim) : bool :=
  bool_decide (io_of p ∈ [Pure; Kernel; ReadImage; Render; PrintText; ReadStyle]).

(** The argument lists of the calls of [f] in an expression, a statement,
    the cells. *)
Fixpoint calls_of (f : list string) (e : expr) : list (list expr) :=
  match e with
  | Attr e _ | Kw _ e | Neg e => calls_of f e
  | Call g es =>
      (if decide (dotted g = Some f) then [es] else [])
      ++ calls_of f g ++ flat_map (calls_of f) es
  | Subscript a b | Slice a b | Compare _ a b | BinOp _ a b =>
      calls_of f a ++ calls_of f b
  | Tuple es | List es => flat_map (calls_of f) es
  | _ => []
  end.

Fixpoint calls_in (f : list string) (c : stmt) : list (list expr) :=
  match c with
  | Assign t v => calls_of f t ++ calls_of f v
  | Expr e | Return e => calls_of f e
  | For t it body => calls_of f t ++ calls_of f it ++ flat_map (calls_in f) body
  | If test body orelse =>
      calls_of f test ++ flat_map (calls_in f) body ++ flat_map (calls_in f) orelse
  | Def _ _ body => flat_map (calls_in f) body
  | Try body handler => flat_map (calls_in f) body ++ flat_map (calls_in f) handler
  | _ => []
  end.

(** Everything a name is ever bound to: [Some e] for an assignment of [e],
    [None] for any other binding (a loop variable, an unpacking, a
    parameter, a function definition, an import). *)
Definition is_name (x : string) (t : expr) : bool :=
  match t with
  | Name y => bool_decide (x = y)
  | _ => false
  end.

Definition binds (x : string) (t : expr) : bool :=
  match t with
  | Tuple ts => existsb (is_name x) ts
  | _ => is_name x t
  end.

Fixpoint bindings (x : string) (c : stmt) : list (option expr) :=
  match c with
  | Import _ a => if decide (x = a) then [None] else []
  | FromImport _ names => if decide (x ∈ names.*2) then [None] else []
  | Assign (Name y) v => if decide (x = y) then [Some v] else []
  | Assign t _ => if binds x t then [None] else []
  | For t _ body =>
      (if binds x t then [None] else []) ++ flat_map (bindings x) body
  | If _ body orelse => flat_map (bindings x) body ++ flat_map (bindings x) orelse
  | Def f params body =>
      (if decide (x = f ∨ x ∈ params) then [None] else [])
      ++ flat_map (bindings x) body
  | Try body handler => flat_map (bindings x) body ++ flat_map (bindings x) handler
  | _ => []
  end.

(** A path with a scheme ([http://...]) is not a local one. *)
Fixpoint has_scheme (s : string) : bool :=
  match s with
  | String ":"%char (String "/"%char (String "/"%char _)) => true
  | String _ s' => has_scheme s'
  | EmptyString => false
  end.

End IO.

(** ** The operations the specification names *)

Module Operations.
Import Syntax Cells IO.
#[local] Open Scope string_scope.

Inductive operation :=
  | Clustering
  | EdgeDetection
  | DistanceTransform
  | PeakFinding
  | Flooding
  | RegionFiltering
  | Visualization.

(** The statements of the notebook that carry out an operation. *)
Definition code_of (o : operation) : list stmt :=
  match o with
  | Clustering => [clustering]
  | EdgeDetection => [edge_detection]
  | DistanceTransform => [distance_transform]
  | PeakFinding => [peak_finding]
  | Flooding => [flooding]
  | RegionFiltering => region_filtering
  | Visualization => [visualization]
  end.

(** The names the notebook imports. *)
Definition imports_of (c : stmt) : list string :=
  match c with
  | Import _ a => [a]
  | FromImport _ names => names.*2
  | _ => []
  end.

Definition imported : list string := flat_map (flat_map imports_of) notebook.

(** The functions the notebook defines. *)
Definition defs_of (c : stmt) : list string :=
  match c with
  | Def f _ _ => [f]
  | _ => []
  end.

Definition defined : list string := flat_map (flat_map defs_of) notebook.

(** A callee that is an imported function, or a function of an imported
    module. *)
Definition library_callee (f : expr) : bool :=
  match dotted f with
  | Some (root :: _) => bool_decide (root ∈ imported)
  | _ => false
  end.

Definition atom (e : expr) : bool :=
  match e with
  | Name _ | Str _ | Int _ | Float _ | TrueE | NoneE => true
  | _ => false
  end.

(** An argument that is a name or a literal, possibly passed by keyword. *)
Definition plain (e : expr) : bool :=
  match e with
  | Kw _ e' => atom e'
  | _ => atom e
  end.

(** One call of a library function on names and literals, its result
    bound to a name or dropped. *)
Definition library_call (c : stmt) : bool :=
  match c with
  | Assign (Name _) (Call f es) | Expr (Call f es) =>
      library_callee f && forallb plain es
  | _ => false
  end.

Definition single_library_call (code : list stmt) : bool :=
  match code with
  | [c] => library_call c
  | _ => false
  end.

(** The statement as the specification makes it. *)
Definition every_operation_is_one_library_call : Prop :=
  ∀ o, single_library_call (code_of o) = true.

(** A loop, at the top of a statement or inside a function it defines. *)
Fixpoint loops (c : stmt) : bool :=
  match c with
  | For _ _ _ => true
  | If _ body orelse => existsb loops body || existsb loops orelse
  | Def _ _ body => existsb loops body
  | Try body handler => existsb loops body || existsb loops handler
  | _ => false
  end.

End Operations.

(** ** Small inputs *)

Module Examples.
Import Np Py.

(** A 2 x 3 RGB image and a label map with three labels, in a store. *)
Definition img1 : ndarray pixel :=
  NdArray [2; 3]%nat [[10;0;0]; [20;0;3]; [255;9;9]; [13;0;0]; [254;1;1]; [7;7;8]].
Definition lab1 : ndarray Z := NdArray [2; 3]%nat [1; 0; 1; 0; 5; 1].
Definition h1 : store := <[0%nat := Image img1]> (<[1%nat := Labels lab1]> ∅).

(** A 2 x 4 watershed map with background 0, and descriptors of which the
    second is too eccentric. *)
Definition ws1 : ndarray Z := NdArray [2; 4]%nat [1; 1; 2; 0; 3; 2; 2; 3].
Definition regions1 (a : ndarray Z) : list RegionFilter.region :=
  [RegionFilter.Region 1 (1 # 2); RegionFilter.Region 2 (9 # 10);
   RegionFilter.Region 3 (6 # 10)].
Definition h2 : store := <[5%nat := Labels ws1]> ∅.

(** A one-row edge image with one boundary pixel, and the distance map of
    its thresholding. *)
Definition edges1 : ndarray Q := NdArray [1; 2]%nat [(1 # 2)%Q; (1 # 10)%Q].
Definition edt1 (m : ndarray bool) : ndarray R := NdArray (shape m) [0%R; 1%R].

(** A grey-level image, two peaks in it, and a labelling that gives every
    marked pixel the label 1. *)
Definition coins1 : ndarray Z := NdArray [2; 3]%nat [5; 9; 5; 7; 5; 8].
Definition peaks1 (d : ndarray R) : list (list nat) := [[0; 1]; [1; 2]]%nat.
Definition label1 (m : ndarray bool) : ndarray Z * nat :=
  (NdArray (shape m) ((λ b : bool, if b then 1 else 0) <$> data m), 1%nat).

(** Stand-ins for the libraries that keep shapes ([slic1] refuses a
    number of segments that is not positive), and two notebook states with
    the same image, in which the imports and the definition of
    [mean_color] have been run: one with a label map from before, one
    without. *)
Definition slic1 (a : ndarray pixel) (kw : Nb.slic_kwargs) : result (ndarray Z) :=
  if decide (0 < Nb.n_segments kw)
  then Ok (NdArray (shape a) ((λ _, Nb.n_segments kw) <$> data a))
  else Raise ValueError.
Definition kw_bad : Nb.slic_kwargs := Nb.SlicKwargs 0 10 None None.
Definition libs : gmap string Nb.binding :=
  <["skdemo"%string := Nb.Lib]> (<["np"%string := Nb.Lib]>
    (<["seg"%string := Nb.Lib]> (<["mean_color"%string := Nb.Lib]> ∅))).
Definition s1 : Nb.state :=
  Nb.State (<["image"%string := Nb.Arr 0]> (<["labels"%string := Nb.Arr 1]> libs)) h1.
Definition s2 : Nb.state :=
  Nb.State (<["image"%string := Nb.Arr 0]> libs) (<[0%nat := Image img1]> ∅).
Definition sobel1 (a : ndarray Z) : ndarray Q :=
  NdArray (shape a) ((λ _, (1 # 2)%Q) <$> data a).
Definition watershed1 (e : ndarray Q) (s : ndarray Z) : ndarray Z :=
  NdArray (shape e) ((λ _, 1) <$> data e).

End Examples.

Module SemExamples.
Import Syntax Cells Sem.
#[local] Open Scope string_scope.

(** Libraries in which every operation succeeds: an iterable has two items,
    every test is true, everything else is some object. *)
Definition lib_ok (p : prim) (vs : list val) (w : unit) : (val + exn) * unit :=
  match p with
  | PIter => (inl (VTuple [VInt 1; VInt 2]), w)
  | PTruth => (inl (VBool true), w)
  | _ => (inl (VObj 0), w)
  end.

(** The same libraries with the image file missing. *)
Definition lib_no_file (p : prim) (vs : list val) (w : unit) : (val + exn) * unit :=
  match p with
  | PCall (Attr (Name "io") "imread") => (inr "IOError", w)
  | _ => lib_ok p vs w
  end.

End SemExamples.

(** ** Reading a result back, running cells by hand *)

Module Outcome.
Import Np Py Nb.

(** The array behind the reference a call returned; [None] when the call
    raised. *)
Definition returned (r : result loc * store) : option (ndarray pixel) :=
  match r with
  | (Ok out, h) =>
      match h !! out with
      | Some (Image o) => Some o
      | _ => None
      end
  | (Raise _, _) => None
  end.

(** The same segmentation with its labels renamed by [f]. *)
Definition relabel (f : Z → Z) (lab : ndarray Z) : ndarray Z :=
  NdArray (shape lab) (f <$> data lab).

(** Cells run one after the other by hand: a cell that raises keeps what
    it did up to there, and the next cell is run all the same. *)
Definition run_each (cells : list (N unit)) (s : state) : state :=
  foldl (λ s cell, (cell s).2) s cells.

End Outcome.

(** ** More small inputs *)

Module MoreExamples.
Import Np Py Nb Outcome Examples.

(** One label per pixel of [img1], and the labels of [lab1] moved by 10. *)
Definition lab_own : ndarray Z := NdArray [2; 3]%nat [4; 0; 2; 5; 1; 3].
Definition h_own : store := <[0%nat := Image img1]> (<[1%nat := Labels lab_own]> ∅).
Definition h_moved : store :=
  <[3%nat := Image img1]> (<[7%nat := Labels (relabel (λ x, x + 10) lab1)]> ∅).

End MoreExamples.

(** ** The one-dimensional example

    The arrays of this cell have one axis; they are lists here.  [result]
    comes from the library. *)

Module OneDim.
Import Np.

Definition array (a : list Z) : ndarray Z := NdArray [length a] a.

(** [a[m]] for a boolean mask [m]: the elements where [m] is true.  NumPy
    raises IndexError when the mask does not have the length of [a]. *)
Definition getmask {A} (a : list A) (m : list bool) : option (list A) :=
  if decide (length m = length a)
  then Some ((filter (λ p : A * bool, p.2 = true) (zip a m)).*1)
  else None.

(** [a[:-1]]: all but the last element; nothing of an empty array. *)
Definition but_last {A} (a : list A) : list A := take (length a - 1) a.

(** [np.diff(a)]: the differences [a[i+1] - a[i]]. *)
Definition diff (a : list Z) : list Z := zip_with Z.sub (drop 1 a) a.

(** [np.argwhere(a)]: the positions of the elements that are not 0. *)
Definition argwhere (a : list Z) : list nat :=
  filter (λ k, a !! k ≠ Some 0) (seq 0 (length a)).

(** The bars of the plot: for every label of [result], in the order of
    [np.unique], the positions [x[mask][:-1]] and the heights
    [result[mask][:-1]] that go to [plt.bar]. *)
Definition bars (x result : list Z) : option (list (list Z * list Z)) :=
  mapM (λ label,
          let mask := data (eq_scalar (array result) label) in
          xs ← getmask x mask;
          hs ← getmask result mask;
          Some (but_last xs, but_last hs))
       (unique (array result)).

(** The dashed lines: [np.argwhere(np.diff(result)) + 0.5]. *)
Definition vlines (result : list Z) : list Q :=
  (λ k : nat, inject_Z (Z.of_nat k) + (1 # 2))%Q <$> argwhere (diff result).

(** How many samples carry the label [v]. *)
Definition count (v : Z) (a : list Z) : nat := length (filter (λ u, u = v) a).

Section Label.
Variable ndi_label : ndarray bool → ndarray Z * nat.

(** [seeds = ndi.label(y == 0)[0]] *)
Definition seeds (y : list Z) : list Z :=
  data (ndi_label (eq_scalar (array y) 0)).1.

(** [seed_positions = np.argwhere(seeds)[:, 0]] *)
Definition seed_positions (y : list Z) : list nat := argwhere (seeds y).
End Label.

(** The samples of the cell, and a flooding of them into three basins. *)
Definition x12 : list Z := [0; 1; 2; 3; 4; 5; 6; 7; 8; 9; 10; 11].
Definition y12 : list Z := [1; 0; 1; 2; 1; 3; 2; 0; 2; 4; 1; 0].
Definition result12 : list Z := [1; 1; 1; 1; 1; 2; 2; 2; 2; 3; 3; 3].

End OneDim.

(** ** Names bound before they are read

    A check of the cells from the top: [flow B c] is the list of names that
    are bound after the statement [c] when those of [B] are bound before
    it, and [None] when [c] may read a name that is neither bound by then
    nor one of the kernel's own.  A loop may run zero times and a branch may
    not be taken, so what they bind does not count afterwards.  The body of
    a function is checked where the function is defined, with its
    parameters bound. *)

Module Flow.
Import Syntax Cells.
#[local] Open Scope string_scope.









End Flow.

(** ** What a run keeps bound *)

Module Bound.
Import Syntax Sem Flow.
#[local] Open Scope string_scope.

Section Kernel.
Context {W : Type}.



(** No name has been unbound from [s] to [s'], in the same function. *)
Definition le (s s' : st W) : Prop :=
  dom (globals s) ⊆ dom (globals s') ∧
  match locals s, locals s' with
  | None, None => True
  | Some l, Some l' => dom l ⊆ dom l'
  | _, _ => False
  end.







End Kernel.

End Bound.

(** * Part II: what holds of it *)

(** ** The definitions at work *)

Module Checks.
Import Np Py Syntax Cells Sem Examples SemExamples.
#[local] Open Scope string_scope.

(** Label 1 covers pixels 0, 2 and 5: (10 + 255 + 7) / 3 = 90.67 is stored
    as 90. *)
Example mean_color_img1 :
  (λ r, (r.1, r.2 !! 2%nat)) (mean_color 0%nat 1%nat h1)
  = (Ok 2%nat,
     Some (Image (NdArray [2; 3]%nat
             [[90; 5; 5]; [16; 0; 1]; [90; 5; 5];
              [16; 0; 1]; [254; 1; 1]; [90; 5; 5]]))).
Proof. vm_compute. reflexivity. Qed.

Example nonzero_lab1 :
  nonzero (eq_scalar lab1 1) = [[0; 0]; [0; 2]; [1; 2]]%nat.
Proof. reflexivity. Qed.

(** A label map with a column more than the image: the index of its last
    pixel is out of bounds. *)
Example mean_color_shape_mismatch :
  (mean_color 0%nat 1%nat
     (<[0%nat := Image (NdArray [1; 2]%nat [[1]; [2]])]>
        (<[1%nat := Labels (NdArray [1; 3]%nat [0; 0; 7])]> ∅))).1
  = Raise IndexError.
Proof. vm_compute. reflexivity. Qed.

(** A clustering cell run before the imports stops at the name [seg]; with
    an argument that the library refuses it raises what the library
    raises. *)
Example cluster_before_imports :
  (Nb.cluster slic1 Nb.kw_first
     (Nb.State (<["image" := Nb.Arr 0]> ∅) (<[0%nat := Image img1]> ∅))).1
  = Raise NameError ∧
  (Nb.cluster slic1 kw_bad s2).1 = Raise ValueError.
Proof. split; vm_compute; reflexivity. Qed.

(** Region 2 (eccentricity 0.9) is erased; region 3, at exactly 0.6, stays. *)
Example filter_regions_ws1 :
  (λ r, (r.1, r.2 !! 6%nat, r.2 !! 5%nat)) (RegionFilter.filter_regions regions1 5%nat h2)
  = (Ok 6%nat,
     Some (Labels (NdArray [2; 4]%nat [1; 1; 0; 0; 3; 0; 0; 3])),
     Some (Labels ws1)).
Proof. vm_compute. reflexivity. Qed.

Example ravel_2_3 : ravel [2; 3]%nat [1; 2]%nat = Some 5%nat ∧
                    ravel [2; 3]%nat [2; 0]%nat = None ∧
                    unravel [2; 3]%nat 5 = [1; 2]%nat.
Proof. by split_and!. Qed.

(** With every library operation succeeding, the nineteen cells run to the
    end in 283 operations. *)
Example run_lib_ok :
  (λ r, (r.1, length (log r.2))) (run unit lib_ok 100 notebook tt)
  = (Val (), 283%nat).
Proof. vm_compute. reflexivity. Qed.

(** With the image file missing the run stops at the thirteenth operation. *)
Example run_lib_no_file :
  (λ r, (r.1, length (log r.2))) (run unit lib_no_file 100 notebook tt)
  = (Exc "IOError", 13%nat).
Proof. vm_compute. reflexivity. Qed.

(** A handler, had the notebook one, would see the failure and go on. *)
Example a_handler_would_catch :
  (λ r, (r.1, op <$> log r.2))
    (run unit lib_no_file 100
       [[Try [Expr (Call (Attr (Name "io") "imread") [Str "x.jpg"])]
             [Expr (Call (Name "print") [Str "no image"])]]] tt)
  = (Val (),
     [PBuiltin "io"; PAttr "imread"; PCall (Attr (Name "io") "imread");
      PBuiltin "print"; PCall (Name "print")]).
Proof. vm_compute. reflexivity. Qed.

End Checks.

Module NpFacts.
Import Np Paint.

Lemma size_cons n sh : size (n :: sh) = (n * size sh)%nat.
Proof. reflexivity. Qed.

Lemma ravel_unravel sh k : (k < size sh)%nat → ravel sh (unravel sh k) = Some k.
Proof.
  revert k. induction sh as [|n sh IH]; intros k Hk; simpl in *.
  - f_equal. lia.
  - assert (size sh ≠ 0)%nat as Hs by (intros E; rewrite E in Hk; lia).
    rewrite decide_True.
    2:{ apply Nat.Div0.div_lt_upper_bound. lia. }
    rewrite IH by (apply Nat.mod_upper_bound; done).
    simpl. f_equal.
    pose proof (Nat.div_mod_eq k (size sh)). lia.
Qed.

Lemma ravel_Some sh ix k :
  ravel sh ix = Some k → (k < size sh)%nat ∧ unravel sh k = ix.
Proof.
  revert ix k. induction sh as [|n sh IH]; intros [|i ix] k; simpl; try done.
  - intros [= <-]. split; [lia|done].
  - case_decide as Hi; [|done].
    destruct (ravel sh ix) as [r|] eqn:Hr; simpl; [|done].
    intros [= <-]. destruct (IH _ _ Hr) as [Hlt Hu].
    split; [nia|].
    rewrite Nat.div_add_l by lia. rewrite (Nat.div_small r) by done.
    replace (i * size sh + r)%nat with (r + i * size sh)%nat by lia.
    rewrite Nat.Div0.mod_add, (Nat.mod_small r) by done.
    rewrite Hu. f_equal. lia.
Qed.

Lemma ravel_inj sh ix ix' k :
  ravel sh ix = Some k → ravel sh ix' = Some k → ix = ix'.
Proof.
  intros H1 H2. apply ravel_Some in H1 as [_ <-], H2 as [_ <-]. done.
Qed.

Lemma elem_of_where_eq a l k : k ∈ where_eq a l ↔ data a !! k = Some l.
Proof.
  unfold where_eq. rewrite list_elem_of_filter, elem_of_seq.
  split; [tauto|]. intros H. split; [done|].
  apply lookup_lt_Some in H. lia.
Qed.

Lemma where_eq_lt a l : Forall (λ k, (k < length (data a))%nat) (where_eq a l).
Proof.
  apply Forall_forall. intros k Hk%elem_of_where_eq. by eapply lookup_lt_Some.
Qed.

Lemma nonzero_eq_scalar a l :
  nonzero (eq_scalar a l) = unravel (shape a) <$> where_eq a l.
Proof.
  unfold nonzero, eq_scalar, where_eq. simpl. rewrite length_fmap. f_equal.
  apply list_filter_iff. intros k. rewrite list_lookup_fmap.
  destruct (data a !! k) as [x|]; simpl; [|naive_solver].
  case_bool_decide; naive_solver.
Qed.

Lemma mapM_ravel_unravel sh ks :
  Forall (λ k, (k < size sh)%nat) ks → mapM (ravel sh) (unravel sh <$> ks) = Some ks.
Proof.
  intros H. apply mapM_Some. induction H as [|k ks Hk _ IH]; simpl; constructor; auto.
  by apply ravel_unravel.
Qed.

Lemma getitem_unravel {A} (a : ndarray A) ks :
  wf a → Forall (λ k, (k < length (data a))%nat) ks →
  getitem a (unravel (shape a) <$> ks) = mapM (λ k, data a !! k) ks.
Proof.
  unfold wf, getitem. intros Hwf H. rewrite Hwf in H.
  induction H as [|k ks Hk _ IH]; [done|].
  rewrite fmap_cons. cbn [mapM]. rewrite IH, (ravel_unravel _ _ Hk). done.
Qed.

Lemma setitem_unravel {A} (a : ndarray A) ks v :
  wf a → Forall (λ k, (k < length (data a))%nat) ks →
  setitem a (unravel (shape a) <$> ks) v =
  Some (NdArray (shape a) (foldr (λ k d, <[k:=v]> d) (data a) ks)).
Proof.
  unfold wf, setitem. intros Hwf H. rewrite Hwf in H.
  by rewrite (mapM_ravel_unravel _ _ H).
Qed.

Lemma length_foldr_insert {A} (v : A) d ks :
  length (foldr (λ k d, <[k:=v]> d) d ks) = length d.
Proof. induction ks as [|k ks IH]; simpl; [done|]. by rewrite length_insert. Qed.

Lemma lookup_foldr_insert {A} (v : A) d ks j :
  (j < length d)%nat →
  foldr (λ k d, <[k:=v]> d) d ks !! j = if decide (j ∈ ks) then Some v else d !! j.
Proof.
  intros Hj. induction ks as [|k ks IH]; cbn [foldr].
  - rewrite decide_False; [done|]. apply not_elem_of_nil.
  - destruct (decide (k = j)) as [->|Hne].
    + rewrite list_lookup_insert_eq by (by rewrite length_foldr_insert).
      rewrite decide_True; [done|]. apply list_elem_of_here.
    + rewrite list_lookup_insert_ne by done. rewrite IH.
      destruct (decide (j ∈ ks)) as [Hin|Hin].
      * rewrite decide_True; [done|]. by apply list_elem_of_further.
      * rewrite decide_False; [done|].
        intros [?|?]%elem_of_cons; [congruence|done].
Qed.

End NpFacts.

Module MeanFacts.
Import Np Paint NpFacts MeanSpec.

Lemma gather_members_gen (xs : list pixel) (ys : list Z) l pre pre' :
  length xs = length ys → length pre = length pre' →
  mapM (λ k, (pre ++ xs) !! k)
       (filter (λ k, (pre' ++ ys) !! k = Some l) (seq (length pre) (length xs)))
  = Some (fst <$> filter (λ pl, pl.2 = l) (zip xs ys)).
Proof.
  revert ys pre pre'. induction xs as [|x xs IH]; intros [|y ys] pre pre' Hl Hp;
    simplify_eq/=; [done|].
  specialize (IH ys (pre ++ [x]) (pre' ++ [y]) ltac:(done)).
  rewrite !length_app in IH. simpl in IH.
  rewrite <-!(assoc_L (++)) in IH. simpl in IH.
  replace (length pre + 1)%nat with (S (length pre)) in IH by lia.
  specialize (IH ltac:(lia)).
  rewrite !filter_cons. simpl.
  rewrite (lookup_app_r pre') by lia.
  replace (length pre - length pre')%nat with 0%nat by lia. simpl.
  destruct (decide (y = l)) as [->|Hne].
  - rewrite decide_True by done. cbn [mapM].
    rewrite lookup_app_r by lia. rewrite Nat.sub_diag.
    change ((x :: xs) !! 0%nat) with (Some x). cbn [mbind option_bind].
    etrans; [eapply (f_equal (λ m, m ≫= _)); exact IH|done].
  - rewrite decide_False by congruence. done.
Qed.

Lemma gather_members img lab l :
  length (data img) = length (data lab) →
  mapM (λ k, data img !! k) (where_eq lab l) = Some (members img lab l).
Proof.
  intros Hlen. unfold where_eq, members. rewrite <-Hlen.
  apply (gather_members_gen (data img) (data lab) l [] []); done.
Qed.

Lemma members_nonempty img lab l k :
  length (data img) = length (data lab) → data lab !! k = Some l →
  members img lab l ≠ [].
Proof.
  intros Hlen Hk E.
  pose proof (gather_members img lab l Hlen) as Hg. rewrite E in Hg.
  apply length_mapM in Hg. simpl in Hg.
  apply elem_of_where_eq in Hk. destruct (where_eq lab l); [|done].
  by apply not_elem_of_nil in Hk.
Qed.

Lemma members_channels c img lab l :
  channels c img → Forall (λ px, length px = c) (members img lab l).
Proof.
  unfold channels, members. intros H. apply Forall_fmap, Forall_forall.
  intros [px y] [_ Hin]%list_elem_of_filter. simpl.
  apply elem_of_zip_l in Hin. by eapply Forall_forall in H.
Qed.

Lemma sumZ_cons x l : sumZ (x :: l) = x + sumZ l.
Proof. reflexivity. Qed.

Lemma length_px_add p q : length (px_add p q) = (length p `min` length q)%nat.
Proof. apply length_zip_with. Qed.

Lemma length_foldl_px_add c p ps :
  length p = c → Forall (λ q, length q = c) ps → length (foldl px_add p ps) = c.
Proof.
  intros Hp H. revert p Hp. induction H as [|q ps Hq _ IH]; intros p Hp; simpl; [done|].
  apply IH. rewrite length_px_add. lia.
Qed.

Lemma lookup_foldl_px_add c p ps j :
  length p = c → Forall (λ q, length q = c) ps → (j < c)%nat →
  foldl px_add p ps !! j = Some (chan j p + sumZ (chan j <$> ps)).
Proof.
  intros Hp H Hj. revert p Hp.
  induction H as [|q ps Hq _ IH]; intros p Hp; cbn [foldl]; rewrite ?fmap_cons.
  - unfold chan. destruct (lookup_lt_is_Some_2 p j) as [v ->]; [lia|].
    simpl. f_equal. lia.
  - rewrite IH by (rewrite length_px_add; lia). f_equal.
    rewrite sumZ_cons.
    destruct (lookup_lt_is_Some_2 p j) as [v Hv]; [lia|].
    destruct (lookup_lt_is_Some_2 q j) as [w Hw]; [lia|].
    unfold chan at 1 3 4. unfold px_add.
    rewrite lookup_zip_with, Hv, Hw. simpl. lia.
Qed.

Lemma length_px_sum c ps :
  ps ≠ [] → Forall (λ q, length q = c) ps → length (px_sum ps) = c.
Proof.
  destruct ps as [|p ps]; [done|].
  intros _ [Hp H]%Forall_cons. simpl. by apply length_foldl_px_add.
Qed.

Lemma lookup_px_sum c ps j :
  ps ≠ [] → Forall (λ q, length q = c) ps → (j < c)%nat →
  px_sum ps !! j = Some (sumZ (chan j <$> ps)).
Proof.
  destruct ps as [|p ps]; [done|].
  intros _ [Hp H]%Forall_cons Hj. simpl.
  by rewrite (lookup_foldl_px_add c).
Qed.

Lemma cast_mean s n :
  (0 < n)%nat → cast (inject_Z s / inject_Z (Z.of_nat n))%Q = Z.quot s (Z.of_nat n).
Proof.
  intros Hn. destruct n as [|n]; [lia|].
  unfold cast, Qdiv, Qinv, Qmult, inject_Z. simpl.
  by rewrite Z.mul_1_r.
Qed.

(** The value written for a selection [ps]: channel [j] holds the mean of
    channel [j], truncated. *)
Lemma lookup_cast_mean c ps j :
  ps ≠ [] → Forall (λ q, length q = c) ps → (j < c)%nat →
  (cast <$> mean_axis0 ps) !! j = Some (mean_of j ps).
Proof.
  intros Hne H Hj. unfold mean_axis0, mean_of.
  rewrite !list_lookup_fmap, (lookup_px_sum c) by done. simpl.
  f_equal. apply cast_mean. destruct ps; [done|simpl; lia].
Qed.

Lemma length_cast_mean c ps :
  ps ≠ [] → Forall (λ q, length q = c) ps → length (cast <$> mean_axis0 ps) = c.
Proof.
  intros Hne H. unfold mean_axis0. rewrite !length_fmap. by apply length_px_sum.
Qed.

Lemma length_members img lab l :
  (length (members img lab l) ≤ length (data img))%nat.
Proof.
  unfold members. rewrite length_fmap.
  etrans; [apply length_filter|]. rewrite length_zip. lia.
Qed.

(** Truncation of a non-negative number: the integer below it. *)
Lemma cast_floor q k :
  0 ≤ k → (inject_Z k <= q)%Q → (q < inject_Z (k + 1))%Q → cast q = k.
Proof.
  destruct q as [a b]. unfold cast, Qle, Qlt, inject_Z. simpl.
  rewrite !Z.mul_1_r. intros Hk H1 H2.
  rewrite Z.quot_div_nonneg by lia.
  symmetry. apply (Z.div_unique a (Z.pos b) k (a - k * Z.pos b)); lia.
Qed.

(** The mean of at most 2^44 values below 256 is truncated to the same
    integer whether float64 has rounded it or not. *)
Lemma float_mean_truncates fl s n :
  rounds_like_float64 fl → 0 < n ≤ 2 ^ 44 → 0 ≤ s ≤ 255 * n →
  cast (fl (inject_Z s / inject_Z n)%Q) = Z.quot s n.
Proof.
  intros [Hmono Hexact] Hn Hs.
  rewrite Z.quot_div_nonneg by lia.
  set (k := s `div` n).
  assert (k * n ≤ s < (k + 1) * n) as Hk.
  { unfold k. pose proof (Z.mul_div_le s n). pose proof (Z.mul_succ_div_gt s n).
    lia. }
  assert (0 ≤ k ≤ 255) as Hk255 by (unfold k; nia).
  assert (2 ^ 44 = 17592186044416) as E44 by reflexivity.
  assert (2 ^ 53 = 9007199254740992) as E53 by reflexivity.
  assert (Z.pos (2 ^ 44) = 17592186044416) as P44 by reflexivity.
  destruct n as [|p|p]; try lia.
  apply cast_floor; [lia| |].
  - apply Qle_trans with (fl (k * 2 ^ 44 # 2 ^ 44)%Q).
    + rewrite Hexact by lia. unfold Qle, inject_Z. simpl. lia.
    + apply Hmono. unfold Qle, Qdiv, Qmult, Qinv, inject_Z. simpl. nia.
  - apply Qle_lt_trans with (fl (((k + 1) * 2 ^ 44 - 1) # 2 ^ 44)%Q).
    + apply Hmono. unfold Qle, Qdiv, Qmult, Qinv, inject_Z. simpl. nia.
    + rewrite Hexact by lia. unfold Qlt, inject_Z. simpl. lia.
Qed.


End MeanFacts.

(** ** [mean_color] on the store *)

Module MeanColorFacts.
Import Np Py Paint NpFacts MeanSpec MeanFacts.

Ltac run := unfold mbind, M_bind, mret, M_ret, raise, lift; simpl.

Lemma bind_ok {A B} (m : M A) (f : A → M B) h a h' :
  m h = (Ok a, h') → (m ≫= f) h = f a h'.
Proof. unfold mbind, M_bind. by intros ->. Qed.

Lemma bind_raise {A B} (m : M A) (f : A → M B) h e h' :
  m h = (Raise e, h') → (m ≫= f) h = (Raise e, h').
Proof. unfold mbind, M_bind. by intros ->. Qed.

Lemma zeros_like_run (h : store) image img :
  h !! image = Some (Image img) →
  zeros_like image h =
    (Ok (fresh (dom h)), <[fresh (dom h) := Image (Np.zeros_like img)]> h).
Proof. intros Hi. unfold zeros_like, image_at, alloc. run. by rewrite Hi. Qed.

Lemma unique_run (h : store) labels lab :
  h !! labels = Some (Labels lab) → unique labels h = (Ok (Np.unique lab), h).
Proof. intros Hl. unfold unique, labels_at. run. by rewrite Hl. Qed.

Lemma body_run (h : store) image labels out img lab o l :
  h !! image = Some (Image img) → h !! labels = Some (Labels lab) →
  h !! out = Some (Image o) →
  wf img → wf lab → wf o → shape lab = shape img → shape o = shape img →
  (indices ← nonzero_eq labels l;
   sub ← getitem image indices;
   setitem out indices (mean_axis0 sub)) h
  = (Ok (), <[out := Image (NdArray (shape o) (paint img lab l (data o)))]> h).
Proof.
  intros Hi Hl Ho Wi Wl Wo Sl So.
  assert (length (data img) = length (data lab)) as Hlen
    by (unfold wf in *; congruence).
  assert (length (data o) = length (data lab)) as Hlen'
    by (unfold wf in *; congruence).
  unfold nonzero_eq, getitem, setitem, labels_at, image_at, write. run.
  rewrite Hl. simpl. rewrite Hi. simpl.
  rewrite nonzero_eq_scalar, Sl.
  rewrite getitem_unravel by (rewrite ?Hlen; auto using where_eq_lt).
  rewrite gather_members by done. simpl. rewrite Ho. simpl.
  rewrite <-So.
  rewrite setitem_unravel by (rewrite ?Hlen'; auto using where_eq_lt).
  done.
Qed.

Lemma length_paint img lab l d : length (paint img lab l d) = length d.
Proof. apply length_foldr_insert. Qed.

Lemma length_paint_all img lab ls d :
  length (foldl (λ d l, paint img lab l d) d ls) = length d.
Proof.
  revert d. induction ls as [|l ls IH]; intros d; simpl; [done|].
  by rewrite IH, length_paint.
Qed.

Lemma loop_run (h : store) image labels out img lab o ls :
  h !! image = Some (Image img) → h !! labels = Some (Labels lab) →
  h !! out = Some (Image o) → out ≠ image → out ≠ labels →
  wf img → wf lab → wf o → shape lab = shape img → shape o = shape img →
  for_ ls (λ label,
    indices ← nonzero_eq labels label;
    sub ← getitem image indices;
    setitem out indices (mean_axis0 sub)) h
  = (Ok (), <[out := Image (NdArray (shape o)
                 (foldl (λ d l, paint img lab l d) (data o) ls))]> h).
Proof.
  revert h o. induction ls as [|l ls IH]; intros h o Hi Hl Ho Ni Nl Wi Wl Wo Sl So.
  - simpl. unfold mret, M_ret. f_equal. rewrite insert_id; [done|].
    by destruct o.
  - cbn [for_]. unfold mbind at 1, M_bind at 1.
    rewrite (body_run h image labels out img lab o l) by done.
    rewrite (IH _ (NdArray (shape o) (paint img lab l (data o))));
      simpl; rewrite ?lookup_insert_eq, ?lookup_insert_ne by done; try done.
    + by rewrite insert_insert_eq.
    + unfold wf in *. simpl. by rewrite length_paint.
Qed.

(** Reading the painted data: every position whose label was visited holds
    the value written for that label; the others are as before. *)
Lemma lookup_paint img lab l d k :
  (k < length d)%nat →
  paint img lab l d !! k =
    if decide (data lab !! k = Some l)
    then Some (cast <$> mean_axis0 (members img lab l)) else d !! k.
Proof.
  intros Hk. unfold paint. rewrite lookup_foldr_insert by done.
  destruct (decide (k ∈ where_eq lab l)) as [Hin|Hin];
    rewrite elem_of_where_eq in Hin;
    [by rewrite decide_True|by rewrite decide_False].
Qed.

Lemma lookup_paint_all img lab ls d k l :
  (k < length d)%nat → data lab !! k = Some l →
  foldl (λ d l, paint img lab l d) d ls !! k =
    if decide (l ∈ ls)
    then Some (cast <$> mean_axis0 (members img lab l)) else d !! k.
Proof.
  intros Hk Hl. revert d Hk. induction ls as [|x ls IH]; intros d Hk; cbn [foldl].
  - rewrite decide_False; [done|]. apply not_elem_of_nil.
  - rewrite IH by (by rewrite length_paint). rewrite lookup_paint by done.
    destruct (decide (l ∈ ls)) as [Hin|Hin].
    + rewrite decide_True; [done|]. by apply list_elem_of_further.
    + destruct (decide (x = l)) as [->|Hne].
      * rewrite decide_True by done. rewrite decide_True; [done|].
        apply list_elem_of_here.
      * rewrite decide_False by congruence. rewrite decide_False; [done|].
        intros [?|?]%elem_of_cons; [congruence|done].
Qed.

Lemma elem_of_unique (a : ndarray Z) l : l ∈ Np.unique a ↔ l ∈ data a.
Proof. unfold Np.unique. by rewrite elem_of_remove_dups, merge_sort_Permutation. Qed.

Lemma length_painted img lab : length (painted img lab) = length (data img).
Proof.
  unfold painted. rewrite length_paint_all. unfold Np.zeros_like. simpl.
  by rewrite length_fmap.
Qed.

(** On arrays of the same grid shape the call succeeds, allocating its
    result at the next free reference. *)
Lemma mean_color_eval (h : store) image labels img lab :
  h !! image = Some (Image img) → h !! labels = Some (Labels lab) →
  wf img → wf lab → shape lab = shape img →
  mean_color image labels h =
    (Ok (fresh (dom h)),
     <[fresh (dom h) := Image (NdArray (shape img) (painted img lab))]> h).
Proof.
  intros Hi Hl Wi Wl Sl.
  set (out := fresh (dom h)).
  assert (h !! out = None) as Hfresh by (apply not_elem_of_dom, is_fresh).
  assert (out ≠ image) as Ni by (intros ->; congruence).
  assert (out ≠ labels) as Nl by (intros ->; congruence).
  set (o0 := Np.zeros_like img).
  set (h0 := <[out := Image o0]> h).
  unfold mean_color.
  rewrite (bind_ok _ _ h out h0) by (by apply zeros_like_run).
  assert (h0 !! labels = Some (Labels lab)) as Hl0
    by (unfold h0; by rewrite lookup_insert_ne).
  rewrite (bind_ok _ _ h0 (Np.unique lab) h0) by (by apply unique_run).
  erewrite bind_ok.
  2:{ apply (loop_run h0 image labels out img lab o0); unfold h0;
        rewrite ?lookup_insert_eq, ?lookup_insert_ne by done; try done.
      unfold wf, o0, Np.zeros_like in *. simpl. by rewrite length_fmap. }
  unfold mret, M_ret, h0. simpl. by rewrite insert_insert_eq.
Qed.

Lemma chan_range j px : Forall (λ v, 0 ≤ v ≤ 255) px → 0 ≤ chan j px ≤ 255.
Proof.
  intros H. unfold chan. destruct (px !! j) as [v|] eqn:E; simpl; [|lia].
  by eapply Forall_lookup_1 in H.
Qed.

Lemma sumZ_chan_range j ps :
  Forall (Forall (λ v, 0 ≤ v ≤ 255)) ps →
  0 ≤ sumZ (chan j <$> ps) ≤ 255 * Z.of_nat (length ps).
Proof.
  induction 1 as [|px ps Hpx _ IH]; [simpl; lia|].
  rewrite fmap_cons, sumZ_cons. pose proof (chan_range j px Hpx).
  cbn [length]. lia.
Qed.

Lemma mean_of_range j ps :
  ps ≠ [] → Forall (Forall (λ v, 0 ≤ v ≤ 255)) ps → 0 ≤ mean_of j ps ≤ 255.
Proof.
  intros Hne H. unfold mean_of. pose proof (sumZ_chan_range j ps H) as [H0 H1].
  assert (0 < Z.of_nat (length ps)) by (destruct ps; [done|simpl; lia]).
  split.
  - apply Z.quot_pos; lia.
  - apply Z.quot_le_upper_bound; lia.
Qed.

Lemma members_uint8 img lab l :
  uint8 img → Forall (Forall (λ v, 0 ≤ v ≤ 255)) (members img lab l).
Proof.
  unfold uint8, members. intros H. apply Forall_fmap, Forall_forall.
  intros [px y] [_ Hin]%list_elem_of_filter. simpl.
  apply elem_of_zip_l in Hin. by eapply Forall_forall in H.
Qed.

(** On a selection of uint8 pixels, what is stored is the same whether the
    means are rounded to float64 first or not. *)
Lemma float_cast_mean fl c ps :
  rounds_like_float64 fl →
  ps ≠ [] → Forall (λ q, length q = c) ps →
  Forall (Forall (λ v, 0 ≤ v ≤ 255)) ps →
  Z.of_nat (length ps) ≤ 2 ^ 44 →
  cast <$> (fl <$> mean_axis0 ps) = cast <$> mean_axis0 ps.
Proof.
  intros Hfl Hne Hc Hu Hn. unfold mean_axis0.
  rewrite <-!list_fmap_compose. apply list_fmap_ext. intros j s Hj. simpl.
  assert (j < c)%nat as Hjc.
  { apply lookup_lt_Some in Hj. by rewrite (length_px_sum c) in Hj. }
  rewrite (lookup_px_sum c) in Hj by done. injection Hj as <-.
  assert (0 < length ps)%nat as Hpos by (destruct ps; [done|simpl; lia]).
  rewrite cast_mean by done.
  apply float_mean_truncates; [done|lia|]. by apply sumZ_chan_range.
Qed.

End MeanColorFacts.

(** ** The region filter on the store *)

Module RegionFilterFacts.
Import Np Py MeanColorFacts RegionFilter.

Lemma foldl_step_0 rs : foldl (λ x r, step r x) 0 rs = 0.
Proof.
  induction rs as [|r rs IH]; simpl; [done|].
  unfold step at 2. repeat case_decide; done.
Qed.

Lemma foldl_step x rs :
  foldl (λ x r, step r x) x rs =
    if decide (Exists (too_eccentric x) rs) then 0 else x.
Proof.
  revert x. induction rs as [|r rs IH]; intros x; cbn [foldl].
  - rewrite decide_False; [done|]. by intros ?%Exists_nil.
  - unfold step at 2. destruct (decide (max_eccentricity < eccentricity r)%Q) as [Hbig|Hsmall].
    + destruct (decide (x = label r)) as [->|Hne].
      * rewrite foldl_step_0. rewrite decide_True; [done|].
        apply Exists_cons_hd. by split.
      * rewrite IH. apply decide_ext. rewrite Exists_cons.
        unfold too_eccentric at 2. intuition congruence.
    + rewrite IH. apply decide_ext. rewrite Exists_cons.
      unfold too_eccentric at 2. intuition congruence.
Qed.

Lemma zip_with_mask (d : list Z) v w :
  zip_with (λ x (b : bool), if b then w else x) d ((λ x, bool_decide (x = v)) <$> d)
  = (λ y, if decide (y = v) then w else y) <$> d.
Proof.
  induction d as [|y d IH]; [done|].
  rewrite !fmap_cons. cbn [zip_with]. rewrite IH. f_equal.
  by case_bool_decide; case_decide.
Qed.

Lemma setmask_eq_scalar (x : ndarray Z) v w :
  setmask x (eq_scalar x v) w =
  Some (NdArray (shape x) ((λ y, if decide (y = v) then w else y) <$> data x)).
Proof.
  unfold setmask, eq_scalar. simpl. rewrite decide_True by (by rewrite length_fmap).
  by rewrite zip_with_mask.
Qed.

Lemma setitem_where_eq_run (h : store) a x v w :
  h !! a = Some (Labels x) →
  setitem_where_eq a v w h =
  (Ok (), <[a := Labels (NdArray (shape x)
                   ((λ y, if decide (y = v) then w else y) <$> data x))]> h).
Proof.
  intros Ha. unfold setitem_where_eq, labels_at, write. run.
  rewrite Ha. simpl. by rewrite setmask_eq_scalar.
Qed.

Lemma filter_loop_run (h : store) upd x rs :
  h !! upd = Some (Labels x) →
  for_ rs (λ region,
    if decide (max_eccentricity < eccentricity region)%Q
    then setitem_where_eq upd (label region) 0
    else mret ()) h
  = (Ok (), <[upd := Labels (NdArray (shape x)
                 ((λ y, foldl (λ y r, step r y) y rs) <$> data x))]> h).
Proof.
  revert h x. induction rs as [|r rs IH]; intros h x Hx; cbn [for_].
  - unfold mret, M_ret. simpl. rewrite list_fmap_id.
    rewrite insert_id; [done|]. by destruct x.
  - set (x1 := NdArray (shape x) (step r <$> data x)).
    assert ((if decide (max_eccentricity < eccentricity r)%Q
             then setitem_where_eq upd (label r) 0 else mret ()) h
            = (Ok (), <[upd := Labels x1]> h)) as Hstep.
    { unfold x1, step. case_decide.
      - by rewrite (setitem_where_eq_run h upd x).
      - unfold mret, M_ret. rewrite list_fmap_id.
        rewrite insert_id; [done|]. by destruct x. }
    rewrite (bind_ok _ _ _ _ _ Hstep).
    rewrite (IH _ x1) by (by rewrite lookup_insert_eq).
    rewrite insert_insert_eq. unfold x1. simpl.
    by rewrite <-list_fmap_compose.
Qed.

End RegionFilterFacts.

(** ** The distance map and the seeds *)

Module CoinsFacts.
Import Np NpFacts Coins.

Lemma non_edges_false edges j :
  data (non_edges edges) !! j = Some false ↔ boundary edges j.
Proof.
  unfold non_edges, lt_scalar, boundary. simpl. rewrite list_lookup_fmap.
  destruct (data edges !! j) as [e|]; simpl.
  - split.
    + intros [= Hb]. exists e. split; [done|].
      apply bool_decide_eq_false in Hb. by apply Qnot_lt_le.
    + intros (e' & [= <-] & Hle). f_equal. apply bool_decide_eq_false.
      by apply Qle_not_lt.
  - split; [done|]. by intros (e & ? & _).
Qed.

Lemma elem_of_mapM {A B} (f : A → option B) l ks k :
  mapM f l = Some ks → k ∈ ks ↔ ∃ x, x ∈ l ∧ f x = Some k.
Proof.
  intros H%mapM_Some. induction H as [|x y l ks Hxy _ IH].
  - split; [by intros ?%not_elem_of_nil|]. by intros (x & ?%not_elem_of_nil & _).
  - rewrite elem_of_cons, IH. split.
    + intros [->|(x' & Hin & Hx')].
      * exists x. split; [apply list_elem_of_here|done].
      * exists x'. split; [by apply list_elem_of_further|done].
    + intros (x' & [->|Hin]%elem_of_cons & Hx').
      * left. congruence.
      * right. by exists x'.
Qed.

Lemma mapM_ravel_is_Some sh (ixs : list (list nat)) :
  Forall (λ ix, is_Some (ravel sh ix)) ixs → is_Some (mapM (ravel sh) ixs).
Proof. intros H. by apply mapM_is_Some. Qed.

Lemma peaks_image_spec (coins : ndarray Z) peaks :
  Forall (λ ix, is_Some (ravel (shape coins) ix)) peaks →
  ∃ m, peaks_image coins peaks = Some m ∧ shape m = shape coins ∧
       length (data m) = size (shape coins) ∧
       ∀ ix k, ravel (shape coins) ix = Some k →
         data m !! k = Some (bool_decide (ix ∈ peaks)).
Proof.
  intros Hok. destruct (mapM_ravel_is_Some _ _ Hok) as [ks Hks].
  unfold peaks_image, setitem, zeros_bool. simpl. rewrite Hks. simpl.
  eexists. split; [done|]. simpl. split; [done|]. split.
  { by rewrite length_foldr_insert, length_replicate. }
  intros ix k Hk. destruct (ravel_Some _ _ _ Hk) as [Hlt _].
  rewrite lookup_foldr_insert by (by rewrite length_replicate).
  assert (k ∈ ks ↔ ix ∈ peaks) as Hiff.
  { rewrite (elem_of_mapM _ _ _ _ Hks). split.
    - intros (ix' & Hin & Hk'). by rewrite (ravel_inj _ _ _ _ Hk Hk').
    - intros Hin. by exists ix. }
  destruct (decide (k ∈ ks)) as [Hin|Hin].
  - by rewrite bool_decide_eq_true_2 by (by apply Hiff).
  - rewrite bool_decide_eq_false_2 by (by rewrite <-Hiff).
    by apply lookup_replicate_2.
Qed.


(** A multi-index is a position of the grid when it has one coordinate per
    axis, each below the extent of its axis. *)
Lemma ravel_is_Some sh ix :
  is_Some (ravel sh ix) ↔ Forall2 (λ i n, (i < n)%nat) ix sh.
Proof.
  revert ix. induction sh as [|n sh IH]; intros [|i ix]; simpl.
  - split; [constructor|by eexists].
  - split; [by intros [? ?]|by intros ?%Forall2_cons_nil_inv].
  - split; [by intros [? ?]|by intros ?%Forall2_nil_cons_inv].
  - case_decide as Hi.
    + rewrite fmap_is_Some, IH. split.
      * by constructor.
      * by intros [_ ?]%Forall2_cons.
    + split; [by intros [? ?]|]. by intros [? _]%Forall2_cons.
Qed.

Lemma Rabs_le_bounds (x a : R) : (Rabs x <= a)%R → (- a <= x <= a)%R.
Proof.
  intros H. pose proof (Rle_abs x). pose proof (Rle_abs (- x)) as H'.
  rewrite Rabs_Ropp in H'. lra.
Qed.

(** With one coordinate per axis, an index fails to be a position exactly
    when some coordinate reaches the extent of its axis. *)
Lemma out_of_bounds (ix sh : list nat) :
  length ix = length sh →
  ¬ Forall2 (λ i n, (i < n)%nat) ix sh ↔
  Exists (λ inn : nat * nat, (inn.2 ≤ inn.1)%nat) (zip ix sh).
Proof.
  revert sh. induction ix as [|i ix IH]; intros [|n sh] Hlen; simplify_eq/=.
  - split; [intros H; destruct H; constructor|by intros ?%Exists_nil].
  - rewrite Forall2_cons, Exists_cons, <-(IH sh Hlen). simpl.
    destruct (decide (i < n)%nat); split; intros H; try tauto.
    + destruct H as [?|?]; [lia|tauto].
    + left. lia.
Qed.

Lemma ravel_length sh ix k : ravel sh ix = Some k → length ix = length sh.
Proof.
  intros H. assert (is_Some (ravel sh ix)) as Hs by (by eexists).
  apply ravel_is_Some in Hs. by eapply Forall2_length.
Qed.

Lemma peaks_image_None (coins : ndarray Z) peaks :
  peaks_image coins peaks = None ↔
  Exists (λ ix, ravel (shape coins) ix = None) peaks.
Proof.
  unfold peaks_image, setitem. simpl. rewrite <-mapM_None.
  destruct (mapM _ peaks); simpl; split; done.
Qed.

(** The squared distance of two positions of one grid is 0 only from a
    position to itself. *)
Lemma sq_dist_nonneg ix jx : 0 ≤ sq_dist ix jx.
Proof.
  unfold sq_dist. revert jx. induction ix as [|i ix IH]; intros [|j jx]; simpl;
    try lia.
  specialize (IH jx). nia.
Qed.

Lemma sq_dist_pos ix jx :
  length ix = length jx → ix ≠ jx → 1 ≤ sq_dist ix jx.
Proof.
  unfold sq_dist. revert jx. induction ix as [|i ix IH]; intros [|j jx] Hlen Hne;
    simplify_eq/=.
  pose proof (sq_dist_nonneg ix jx) as Hnn. unfold sq_dist in Hnn.
  destruct (decide (i = j)) as [->|Hij].
  - assert (ix ≠ jx) as Hne' by congruence. specialize (IH jx Hlen Hne'). nia.
  - assert (1 ≤ (Z.of_nat i - Z.of_nat j) ^ 2) by nia. lia.
Qed.

Lemma euclid_ge_1 ix jx :
  length ix = length jx → ix ≠ jx → (1 <= euclid ix jx)%R.
Proof.
  intros Hlen Hne. unfold euclid. rewrite <-sqrt_1.
  apply sqrt_le_1_alt. apply IZR_le. by apply sq_dist_pos.
Qed.

End CoinsFacts.

(** ** What a computation leaves alone *)

Module FrameFacts.
Import Np Py Frame.

Lemma frame_ret {A} l (a : A) (Q : A → Prop) : Q a → frame l (mret a) Q.
Proof. intros HQ h _. split; [done|]. by intros ? [= <-]. Qed.

Lemma frame_raise {A} l e (Q : A → Prop) : frame l (raise e) Q.
Proof. intros h _. split; [done|]. by intros ? [=]. Qed.

Lemma frame_lift {A} l e (o : option A) : frame l (lift e o) (λ _, True).
Proof. destruct o; [by apply frame_ret|apply frame_raise]. Qed.

Lemma frame_conseq {A} l (m : M A) (P Q : A → Prop) :
  (∀ a, P a → Q a) → frame l m P → frame l m Q.
Proof. intros HPQ Hm h Hl. destruct (Hm h Hl) as [? HP]. split; auto. Qed.

Lemma frame_bind {A B} l (m : M A) (f : A → M B) (P : A → Prop) (Q : B → Prop) :
  frame l m P → (∀ a, P a → frame l (f a) Q) → frame l (m ≫= f) Q.
Proof.
  intros Hm Hf h Hl. destruct (Hm h Hl) as [Hsame HP].
  unfold mbind, M_bind. destruct (m h) as [[a|e] h'] eqn:E; simpl in *.
  - destruct (Hf a (HP a eq_refl) h') as [Hsame' HQ]; [by rewrite Hsame|].
    split; [by rewrite Hsame'|done].
  - split; [done|]. by intros ? [=].
Qed.

Lemma frame_image_at l a : frame l (image_at a) (λ _, True).
Proof.
  intros h _. unfold image_at. by destruct (h !! a) as [[]|].
Qed.

Lemma frame_labels_at l a : frame l (labels_at a) (λ _, True).
Proof.
  intros h _. unfold labels_at. by destruct (h !! a) as [[]|].
Qed.

Lemma frame_alloc l o : frame l (alloc o) (λ a, a ≠ l).
Proof.
  intros h Hl. unfold alloc. simpl.
  assert (fresh (dom h) ≠ l) as Hne.
  { intros <-. apply elem_of_dom in Hl. by apply is_fresh in Hl. }
  split; [by rewrite lookup_insert_ne|]. by intros ? [= <-].
Qed.

Lemma frame_write l a o : a ≠ l → frame l (write a o) (λ _, True).
Proof. intros Hne h _. unfold write. simpl. by rewrite lookup_insert_ne. Qed.

Lemma frame_for {A} l (xs : list A) (body : A → M unit) :
  (∀ x, frame l (body x) (λ _, True)) → frame l (for_ xs body) (λ _, True).
Proof.
  intros Hbody. induction xs as [|x xs IH]; simpl.
  - by apply frame_ret.
  - eapply frame_bind; [apply Hbody|]. by intros.
Qed.

(** [mean_color] changes no array that existed before the call, on any
    arguments, and also when it raises. *)
Lemma frame_mean_color l image labels :
  frame l (mean_color image labels) (λ out, out ≠ l).
Proof.
  unfold mean_color, zeros_like, unique, nonzero_eq, getitem, setitem.
  eapply frame_bind.
  { eapply frame_bind; [apply frame_image_at|]. intros; apply frame_alloc. }
  intros out Hout. simpl in Hout.
  eapply frame_bind.
  { eapply frame_bind; [apply frame_labels_at|].
    intros; by apply (frame_ret _ _ (λ _, True)). }
  intros ls _.
  eapply frame_bind; [|intros; by apply frame_ret].
  apply frame_for. intros label.
  eapply frame_bind.
  { eapply frame_bind; [apply frame_labels_at|].
    intros; by apply (frame_ret _ _ (λ _, True)). }
  intros indices _.
  eapply frame_bind.
  { eapply frame_bind; [apply frame_image_at|]. intros; apply frame_lift. }
  intros sub _.
  eapply frame_bind; [apply frame_image_at|]. intros a _.
  eapply frame_bind; [apply frame_lift|]. intros a' _.
  by apply frame_write.
Qed.

End FrameFacts.

(** ** The clustering cells *)

Module NbFacts.
Import Np Py Paint Nb MeanColorFacts Frame FrameFacts.
#[local] Open Scope string_scope.

Lemma state_eta s : State (globals s) (objects s) = s.
Proof. by destruct s. Qed.

Lemma var_image_inv s x img :
  var s x = Some (Image img) →
  ∃ image, globals s !! x = Some (Arr image) ∧ objects s !! image = Some (Image img).
Proof.
  unfold var. destruct (globals s !! x) as [[image|]|]; [|done..].
  simpl. intros H. by exists image.
Qed.


(** ** What the cells leave alone *)

Lemma keeps_ret {A} X (a : A) : keeps X (mret a).
Proof. by intros s. Qed.

Lemma keeps_raise {A} X e : keeps X (raiseN (A:=A) e).
Proof. by intros s. Qed.

Lemma keeps_bind {A B} X (m : N A) (f : A → N B) :
  keeps X m → (∀ a, keeps X (f a)) → keeps X (m ≫= f).
Proof.
  intros Hm Hf s. destruct (Hm s) as [Ho Hg]. unfold mbind, N_bind.
  destruct (m s) as [[a|e] s']; simpl in *; [|done].
  destruct (Hf a s') as [Ho' Hg']. split.
  - intros l Hl. rewrite Ho'; [by apply Ho|]. by rewrite Ho.
  - intros x Hx. rewrite Hg' by done. by apply Hg.
Qed.

Lemma keeps_getvar X x : keeps X (getvar x).
Proof. intros s. unfold getvar. by destruct (globals s !! x). Qed.

Lemma keeps_module X b : keeps X (module b).
Proof. destruct b; [apply keeps_raise|apply keeps_ret]. Qed.

Lemma keeps_callable X b : keeps X (callable b).
Proof. destruct b; [apply keeps_raise|apply keeps_ret]. Qed.

Lemma keeps_arr X b : keeps X (arr b).
Proof. destruct b; [apply keeps_ret|apply keeps_raise]. Qed.

Lemma keeps_setvar X x b : x ∈ X → keeps X (setvar x b).
Proof.
  intros Hx s. split; [done|]. intros y Hy. simpl.
  rewrite lookup_insert_ne; [done|]. by intros ->.
Qed.

Lemma keeps_liftM {A} X (m : M A) :
  (∀ l, frame l m (λ _, True)) → keeps X (liftM m).
Proof.
  intros Hm s. unfold liftM. split.
  - intros l Hl. destruct (Hm l (objects s) Hl) as [Hsame _].
    by destruct (m (objects s)).
  - intros x _. by destruct (m (objects s)).
Qed.

Lemma frame_slic_at slic l image kw :
  frame l (slic_at slic image kw) (λ _, True).
Proof.
  unfold slic_at. eapply frame_bind; [apply frame_image_at|]. intros a _.
  destruct (slic a kw) as [lab|e].
  - eapply frame_conseq; [|apply frame_alloc]. done.
  - apply frame_raise.
Qed.

Lemma keeps_cluster slic kw : keeps ["labels"] (cluster slic kw).
Proof.
  unfold cluster.
  apply keeps_bind; [apply keeps_getvar|]. intros seg.
  apply keeps_bind; [apply keeps_module|]. intros _.
  apply keeps_bind; [apply keeps_getvar|]. intros image.
  apply keeps_bind; [apply keeps_arr|]. intros i.
  apply keeps_bind; [apply keeps_liftM; intros; apply frame_slic_at|].
  intros labels. apply keeps_setvar. left.
Qed.

Lemma keeps_call_mean_color X : keeps X call_mean_color.
Proof.
  unfold call_mean_color.
  apply keeps_bind; [apply keeps_getvar|]. intros f.
  apply keeps_bind; [apply keeps_getvar|]. intros image.
  apply keeps_bind; [apply keeps_getvar|]. intros labels.
  apply keeps_bind; [apply keeps_callable|]. intros _.
  apply keeps_bind; [apply keeps_getvar|]. intros np.
  apply keeps_bind; [apply keeps_module|]. intros _.
  apply keeps_bind; [apply keeps_arr|]. intros i.
  apply keeps_bind; [apply keeps_arr|]. intros l.
  apply keeps_liftM. intros l'.
  eapply frame_conseq; [|apply frame_mean_color]. done.
Qed.

Lemma keeps_rerun slic kw : keeps ["labels"; "label_image"] (rerun slic kw).
Proof.
  unfold rerun.
  apply keeps_bind.
  { intros s. destruct (keeps_cluster slic kw s) as [Ho Hg]. split; [done|].
    intros x Hx. apply Hg. intros ->%list_elem_of_singleton. apply Hx. left. }
  intros _. apply keeps_bind; [apply keeps_call_mean_color|].
  intros label_image. apply keeps_setvar. right. left.
Qed.

(** An array that a name refers to is the same after code that does not
    rebind the name. *)
Lemma keeps_var {A} X (m : N A) s x o :
  keeps X m → x ∉ X → var s x = Some o → var (m s).2 x = Some o.
Proof.
  intros Hm Hx Hv. destruct (Hm s) as [Ho Hg]. unfold var in *.
  rewrite Hg by done. destruct (globals s !! x) as [[l|]|]; [|done..].
  simpl in *. rewrite Ho; [done|]. by eexists.
Qed.

(** ** Running the cells *)

Lemma cluster_eval slic kw s image img lab :
  globals s !! "seg" = Some Lib →
  globals s !! "image" = Some (Arr image) → objects s !! image = Some (Image img) →
  slic img kw = Ok lab →
  cluster slic kw s =
    (Ok (), State (<["labels" := Arr (fresh (dom (objects s)))]> (globals s))
                  (<[fresh (dom (objects s)) := Labels lab]> (objects s))).
Proof.
  intros Hs Hg Hh Hl.
  unfold cluster, slic_at, getvar, module, arr, liftM, setvar, image_at, alloc.
  unfold mbind, mret, N_bind, N_ret, M_bind. rewrite Hs. simpl. rewrite Hg. simpl.
  rewrite Hh. simpl. by rewrite Hl.
Qed.

(** When [seg.slic] raises, the cell raises the same exception and has
    changed nothing. *)
Lemma cluster_raise slic kw s image img e :
  globals s !! "seg" = Some Lib →
  globals s !! "image" = Some (Arr image) → objects s !! image = Some (Image img) →
  slic img kw = Raise e →
  cluster slic kw s = (Raise e, s).
Proof.
  intros Hs Hg Hh Hl.
  unfold cluster, slic_at, getvar, module, arr, liftM, setvar, image_at, raise.
  unfold mbind, mret, N_bind, N_ret, M_bind. rewrite Hs. simpl. rewrite Hg. simpl.
  rewrite Hh. simpl. rewrite Hl. simpl. by rewrite state_eta.
Qed.

Lemma rerun_raise slic kw s image img e :
  globals s !! "seg" = Some Lib →
  globals s !! "image" = Some (Arr image) → objects s !! image = Some (Image img) →
  slic img kw = Raise e →
  rerun slic kw s = (Raise e, s).
Proof.
  intros Hs Hg Hh Hl. unfold rerun. unfold mbind at 1, N_bind at 1.
  by rewrite (cluster_raise slic kw s image img e).
Qed.




Lemma cluster_labels slic kw s img lab :
  globals s !! "seg" = Some Lib →
  var s "image" = Some (Image img) →
  slic img kw = Ok lab →
  var (cluster slic kw s).2 "labels" = Some (Labels lab).
Proof.
  intros Hs (image & Hg & Hh)%var_image_inv Hl.
  rewrite (cluster_eval slic kw s image img lab) by done.
  unfold var. simpl. rewrite lookup_insert_eq. simpl. by rewrite lookup_insert_eq.
Qed.

Lemma rerun_labels slic kw s img lab :
  globals s !! "seg" = Some Lib →
  var s "image" = Some (Image img) →
  slic img kw = Ok lab →
  var (rerun slic kw s).2 "labels" = Some (Labels lab).
Proof.
  intros Hs Hi Hl. pose proof (cluster_labels slic kw s img lab Hs Hi Hl) as Hc.
  unfold rerun. unfold mbind at 1, N_bind at 1.
  destruct (cluster slic kw s) as [[[]|e] s'] eqn:E; simpl in *; [|done].
  apply (keeps_var ["label_image"]); [|by intros ?%list_elem_of_singleton|done].
  apply keeps_bind; [apply keeps_call_mean_color|].
  intros label_image. apply keeps_setvar. left.
Qed.

End NbFacts.

Module SemFacts.
Import Syntax Sem Static Trace Sound.
#[local] Open Scope string_scope.

Section Runs.
Context {W : Type} (lib : prim → list val → W → (val + exn) * W).
Variable allowed : prim → bool.

#[local] Abbreviation good_funs := (Sound.good_funs allowed).
#[local] Abbreviation within := (Sound.within allowed).
#[local] Abbreviation pre := (Sound.pre allowed).
#[local] Abbreviation post := (Sound.post allowed).
#[local] Abbreviation sound := (Sound.sound allowed).

Lemma sound_ret {A} (a : A) : sound (ret W a).
Proof. intros s (? & ? & ?). by split_and!. Qed.

Lemma sound_raise {A} e : sound (raise W (A:=A) e).
Proof. intros s (? & ? & ?). split_and!; [done|done|by left]. Qed.

Lemma sound_bind {A B} (m : X W A) (f : A → X W B) :
  sound m → (∀ a, sound (f a)) → sound (bind W m f).
Proof.
  intros Hm Hf s Hs. specialize (Hm s Hs). unfold bind.
  destruct (m s) as [[a|v|e|] s']; try done.
  destruct Hm as (? & ? & ?). by apply Hf.
Qed.

Lemma sound_ask p vs : allowed p = true → sound (ask W lib p vs).
Proof.
  intros Hp s (Hf & Hw & Hc). unfold ask, Sound.post.
  destruct (lib p vs (world s)) as [[v|e] w]; simpl.
  - split_and!; [done| |].
    + apply Forall_app. split; [done|]. by apply Forall_singleton.
    + apply Forall_app. split; [done|]. by apply Forall_singleton.
  - split_and!; [done| |].
    + apply Forall_app. split; [done|]. by apply Forall_singleton.
    + right. by eexists _, _.
Qed.

Lemma sound_lookup x : allowed (PBuiltin x) = true → sound (lookup W lib x).
Proof.
  intros Hx s Hs. unfold lookup.
  destruct (locals s ≫= _) as [v|]; [by apply (sound_ret v)|].
  destruct (globals s !! x) as [v|]; [by apply (sound_ret v)|].
  by apply sound_ask.
Qed.

Lemma sound_bind_name x v : sound (bind_name W x v).
Proof.
  intros s (? & ? & ?). unfold bind_name.
  destruct (locals s); by split_and!.
Qed.

Lemma sound_define name params body :
  forallb (good_stmt allowed) body = true → sound (define W name params body).
Proof.
  intros Hb s (Hf & ? & ?). unfold define. split_and!; try done.
  simpl. by apply map_Forall_insert_2.
Qed.

Lemma sound_items v : allowed PIter = true → sound (items W lib v).
Proof.
  intros Hp. apply sound_bind; [by apply sound_ask|].
  intros []; first [apply sound_raise|apply sound_ret].
Qed.

Lemma sound_bind_names xs vs : sound (bind_names W xs vs).
Proof.
  revert vs. induction xs as [|x xs IH]; intros [|v vs].
  - apply sound_ret.
  - apply sound_raise.
  - destruct x; apply sound_raise.
  - destruct x; try apply sound_raise.
    cbn [bind_names].
    apply sound_bind; [apply sound_bind_name|]. intros _. apply IH.
Qed.

Lemma sound_assign (ev : expr → X W val) t v :
  (∀ e, good_expr allowed e = true → sound (ev e)) →
  good_target allowed t = true → sound (assign W lib ev t v).
Proof.
  intros Hev Ht. destruct t; simpl in *; try apply sound_raise.
  - apply sound_bind_name.
  - apply andb_prop in Ht as [[He Hix]%andb_prop Hset].
    apply sound_bind; [by apply Hev|]. intros a.
    apply sound_bind; [by apply Hev|]. intros i.
    apply sound_bind; [by apply sound_ask|]. intros _. apply sound_ret.
  - apply sound_bind; [by apply sound_items|]. intros vs. apply sound_bind_names.
Qed.

Lemma sound_for_each vs (body : val → X W unit) :
  (∀ v, sound (body v)) → sound (for_each W vs body).
Proof.
  intros Hb. induction vs as [|v vs IH]; simpl; [apply sound_ret|].
  apply sound_bind; [apply Hb|]. by intros _.
Qed.

Lemma sound_import_names m names :
  forallb (λ xa, allowed (PImportFrom m xa.1)) names = true →
  sound (import_names W lib m names).
Proof.
  induction names as [|[x a] names IH]; simpl; [intros _; apply sound_ret|].
  intros [Hx Hn]%andb_prop.
  apply sound_bind; [by apply sound_ask|]. intros v.
  apply sound_bind; [apply sound_bind_name|]. intros _. by apply IH.
Qed.

Lemma sound_call_fun (run : list stmt → X W unit) name vs :
  (∀ cs, forallb (good_stmt allowed) cs = true → sound (run cs)) →
  sound (call_fun W run name vs).
Proof.
  intros Hrun s (Hf & Hw & Hc). unfold call_fun.
  destruct (funs s !! name) as [[params body]|] eqn:Hname.
  2:{ split_and!; [done|done|by left]. }
  case_decide.
  2:{ split_and!; [done|done|by left]. }
  pose proof (Hf _ _ Hname) as Hbody. simpl in Hbody.
  set (s1 := St _ _ _ _ _).
  destruct (Hrun body Hbody s1) as (Hf' & Hw' & Hr); [by split_and!|].
  destruct (run body s1) as [[[]|v|e|] s2]; by split_and!.
Qed.

Ltac split_good H :=
  repeat match type of H with
         | _ && _ = true => let H' := fresh H in apply andb_prop in H as [H H']
         end.

Lemma sound_eval_list_step n es :
  (∀ e, good_expr allowed e = true → sound (eval W lib n e)) →
  (∀ es, forallb (good_expr allowed) es = true → sound (eval_list W lib n es)) →
  forallb (good_expr allowed) es = true → sound (eval_list W lib (S n) es).
Proof.
  intros He Hes Hgood. destruct es as [|e es]; cbn [eval_list]; [apply sound_ret|].
  simpl in Hgood. apply andb_prop in Hgood as [? ?].
  apply sound_bind; [by apply He|]. intros v.
  apply sound_bind; [by apply Hes|]. intros vs. apply sound_ret.
Qed.

Lemma sound_exec_list_step n cs :
  (∀ c, good_stmt allowed c = true → sound (exec W lib n c)) →
  (∀ cs, forallb (good_stmt allowed) cs = true → sound (exec_list W lib n cs)) →
  forallb (good_stmt allowed) cs = true → sound (exec_list W lib (S n) cs).
Proof.
  intros Hc Hcs Hgood. destruct cs as [|c cs]; cbn [exec_list]; [apply sound_ret|].
  simpl in Hgood. apply andb_prop in Hgood as [? ?].
  apply sound_bind; [by apply Hc|]. intros _. by apply Hcs.
Qed.

Lemma sound_eval_step n e :
  (∀ e, good_expr allowed e = true → sound (eval W lib n e)) →
  (∀ es, forallb (good_expr allowed) es = true → sound (eval_list W lib n es)) →
  (∀ cs, forallb (good_stmt allowed) cs = true → sound (exec_list W lib n cs)) →
  good_expr allowed e = true → sound (eval W lib (S n) e).
Proof.
  intros He Hes Hcs Hgood.
  destruct e; cbn [eval]; simpl in Hgood; split_good Hgood;
    try apply sound_ret.
  - by apply sound_lookup.
  - apply sound_bind; [by apply He|]. intros v. by apply sound_ask.
  - apply sound_bind; [by apply He|]. intros fv.
    apply sound_bind; [by apply Hes|]. intros vs.
    destruct fv; try (by apply sound_ask). by apply sound_call_fun.
  - apply sound_bind; [by apply He|]. intros v. apply sound_ret.
  - apply sound_bind; [by apply He|]. intros v.
    apply sound_bind; [by apply He|]. intros i. by apply sound_ask.
  - apply sound_bind; [by apply He|]. intros v.
    apply sound_bind; [by apply He|]. intros i. by apply sound_ask.
  - apply sound_bind; [by apply Hes|]. intros vs. apply sound_ret.
  - apply sound_bind; [by apply Hes|]. intros vs. apply sound_ret.
  - apply sound_bind; [by apply He|]. intros v.
    apply sound_bind; [by apply He|]. intros i. by apply sound_ask.
  - apply sound_bind; [by apply He|]. intros v.
    apply sound_bind; [by apply He|]. intros i. by apply sound_ask.
  - apply sound_bind; [by apply He|]. intros v. by apply sound_ask.
Qed.

Lemma sound_exec_step n c :
  (∀ e, good_expr allowed e = true → sound (eval W lib n e)) →
  (∀ cs, forallb (good_stmt allowed) cs = true → sound (exec_list W lib n cs)) →
  good_stmt allowed c = true → sound (exec W lib (S n) c).
Proof.
  intros He Hcs Hgood.
  destruct c; cbn [exec]; simpl in Hgood; split_good Hgood; try done.
  - apply sound_bind; [by apply sound_ask|]. intros v. apply sound_bind_name.
  - by apply sound_import_names.
  - apply sound_bind; [by apply sound_ask|]. intros _. apply sound_ret.
  - apply sound_bind; [by apply He|]. intros v. by apply sound_assign.
  - apply sound_bind; [by apply He|]. intros _. apply sound_ret.
  - apply sound_bind; [by apply He|]. intros it.
    apply sound_bind; [by apply sound_items|]. intros vs.
    apply sound_for_each. intros v.
    apply sound_bind; [by apply sound_assign|]. intros _. by apply Hcs.
  - apply sound_bind; [by apply He|]. intros t.
    apply sound_bind; [by apply sound_ask|]. intros b.
    destruct b as [| | |[|]| | | | |]; try apply sound_raise; by apply Hcs.
  - apply sound_bind; [by apply sound_define|]. intros _. apply sound_bind_name.
  - apply sound_bind; [by apply He|]. intros v s (? & ? & ?). by split_and!.
Qed.

(** Code that passes the static check runs soundly, with any fuel. *)
Lemma sound_all n :
  (∀ e, good_expr allowed e = true → sound (eval W lib n e)) ∧
  (∀ es, forallb (good_expr allowed) es = true → sound (eval_list W lib n es)) ∧
  (∀ c, good_stmt allowed c = true → sound (exec W lib n c)) ∧
  (∀ cs, forallb (good_stmt allowed) cs = true → sound (exec_list W lib n cs)).
Proof.
  induction n as [|n (He & Hes & Hc & Hcs)].
  - split_and!; intros ? _ s (? & ? & ?); by split_and!.
  - split_and!; intros.
    + by apply sound_eval_step.
    + by apply sound_eval_list_step.
    + by apply sound_exec_step.
    + by apply sound_exec_list_step.
Qed.

Lemma sound_run_cells n cells :
  good_cells allowed cells = true → sound (run_cells W lib n cells).
Proof.
  induction cells as [|cell cells IH]; simpl; [intros _; apply sound_ret|].
  intros [Hcell Hcells]%andb_prop.
  apply sound_bind; [by apply sound_all|]. intros _. by apply IH.
Qed.

(** A run of good cells from a fresh kernel. *)
Lemma run_post n cells w :
  good_cells allowed cells = true → post (run W lib n cells w).
Proof.
  intros Hgood. apply (sound_run_cells n cells Hgood).
  split_and!; [apply map_Forall_empty|apply Forall_nil_2|apply Forall_nil_2].
Qed.

End Runs.

(** In a log with a failure as its last entry and none before, that entry
    is the only failure. *)
Lemma failure_is_last l ev e e' :
  raised_last e' l → ev ∈ l → outcome ev = inr e →
  e = e' ∧ ∃ l0 : list event, l = (l0 ++ [ev])%list ∧ clean l0.
Proof.
  intros (l0 & ev' & -> & Hclean & Hev') Hin He.
  apply elem_of_app in Hin as [Hin|Hin%list_elem_of_singleton].
  - eapply Forall_forall in Hclean; [|done].
    unfold succeeded in Hclean. by rewrite He in Hclean.
  - subst ev'. split; [congruence|]. by exists l0.
Qed.

Lemma clean_no_failure l ev e : clean l → ev ∈ l → outcome ev = inr e → False.
Proof.
  intros Hclean Hin He. eapply Forall_forall in Hclean; [|done].
  unfold succeeded in Hclean. by rewrite He in Hclean.
Qed.

End SemFacts.

Module OperationsFacts.
Import Syntax Cells IO Operations.
#[local] Open Scope string_scope.

(** C1, as stated, fails: the region filter is not one library call but
    three statements, the last of which is a loop of the notebook. *)
Lemma region_filter_is_not_one_call : ¬ every_operation_is_one_library_call.
Proof. intros H. specialize (H RegionFiltering). discriminate H. Qed.

(** C1, amended.  Clustering, edge detection, the distance transform, peak
    finding and flooding are each one call of an imported library function
    on names and literals.  The region filter is not: it is a loop of the
    notebook over the library's region descriptors, with a comparison and
    a masked assignment in its body.  The mean-colour visualization is not
    either: the array it renders is computed by [mean_color], which the
    notebook defines, with a loop.  Each of these statements is in the
    cells. *)
Theorem operations_and_library_calls :
  single_library_call (code_of Clustering) = true ∧
  single_library_call (code_of EdgeDetection) = true ∧
  single_library_call (code_of DistanceTransform) = true ∧
  single_library_call (code_of PeakFinding) = true ∧
  single_library_call (code_of Flooding) = true ∧
  single_library_call (code_of RegionFiltering) = false ∧
  existsb loops (code_of RegionFiltering) = true ∧
  single_library_call (code_of Visualization) = false ∧
  calls_in ["mean_color"] visualization = [[Name "image"; Name "labels"]] ∧
  defined = ["mean_color"] ∧
  loops def_mean_color = true ∧
  clustering ∈ cell_slic ∧ edge_detection ∈ cell_coins ∧
  distance_transform ∈ cell_distance ∧ peak_finding ∈ cell_peaks ∧
  flooding ∈ cell_watershed ∧ visualization ∈ cell_mean_color ∧
  def_mean_color ∈ cell_mean_color ∧
  (∃ before after : list stmt,
     cell_filter = (before ++ region_filtering ++ after)%list).
Proof.
  split_and!; try reflexivity; try (repeat constructor; fail).
  by eexists [_], [_].
Qed.

End OperationsFacts.

Module MeanColor.
Import Np Py Paint NpFacts MeanSpec MeanFacts MeanColorFacts Examples.

(** C2.  For a uint8 image (of at most 2^44 pixels, so that float64
    computes its means as stated) and a label array of the same grid
    shape, [mean_color(image, labels)] returns a new array with the shape,
    channel count and dtype of the image; its value at a pixel, in each
    channel, is the mean of the image over the pixels that carry the same
    label, truncated to uint8; and the store is unchanged everywhere else,
    so both arguments are as they were.  The stored value is the same
    when the mean is rounded to float64 before it is truncated. *)
Theorem mean_color_region_means (h : store) image labels img lab c :
  h !! image = Some (Image img) → h !! labels = Some (Labels lab) →
  wf img → wf lab → shape lab = shape img → channels c img →
  exact_in_float64 img →
  ∃ out o h',
    mean_color image labels h = (Ok out, h') ∧
    h !! out = None ∧
    h' !! out = Some (Image o) ∧
    (∀ l, l ≠ out → h' !! l = h !! l) ∧
    h' !! image = Some (Image img) ∧
    h' !! labels = Some (Labels lab) ∧
    shape o = shape img ∧ wf o ∧ channels c o ∧ exact_in_float64 o ∧
    (∀ k l j, data lab !! k = Some l → (j < c)%nat →
       ∃ px, data o !! k = Some px ∧
             px !! j = Some (mean_of j (members img lab l))) ∧
    (∀ fl k l, rounds_like_float64 fl → data lab !! k = Some l →
       data o !! k = Some (cast <$> (fl <$> mean_axis0 (members img lab l)))).
Proof.
  intros Hi Hl Wi Wl Sl Hc [Hu Hsmall].
  assert (length (data img) = length (data lab)) as Hlen
    by (unfold wf in *; congruence).
  set (out := fresh (dom h)).
  assert (h !! out = None) as Hfresh
    by (apply not_elem_of_dom, is_fresh).
  assert (out ≠ image) as Ni by (intros ->; congruence).
  assert (out ≠ labels) as Nl by (intros ->; congruence).
  set (d := painted img lab).
  exists out, (NdArray (shape img) d), (<[out := Image (NdArray (shape img) d)]> h).
  assert (length d = length (data img)) as Hd by apply length_painted.
  assert (∀ k l, data lab !! k = Some l →
            d !! k = Some (cast <$> mean_axis0 (members img lab l))) as Hread.
  { intros k l Hk. unfold d, painted.
    rewrite (lookup_paint_all _ _ _ _ _ l); [|
      unfold Np.zeros_like; simpl; rewrite length_fmap, Hlen;
      by eapply lookup_lt_Some|done].
    rewrite decide_True; [done|].
    apply elem_of_unique, list_elem_of_lookup. eauto. }
  split_and!.
  - by apply mean_color_eval.
  - done.
  - by rewrite lookup_insert_eq.
  - intros l ?. by rewrite lookup_insert_ne.
  - by rewrite lookup_insert_ne.
  - by rewrite lookup_insert_ne.
  - done.
  - unfold wf in *. simpl. congruence.
  - unfold channels. simpl. apply Forall_lookup. intros k px Hk.
    destruct (lookup_lt_is_Some_2 (data lab) k) as [l Hlk].
    { rewrite <-Hlen, <-Hd. by eapply lookup_lt_Some. }
    rewrite (Hread k l Hlk) in Hk. injection Hk as <-.
    apply length_cast_mean; [by eapply members_nonempty|by apply members_channels].
  - split; [|simpl; by rewrite Hd].
    unfold uint8. simpl. apply Forall_lookup. intros k px Hk.
    destruct (lookup_lt_is_Some_2 (data lab) k) as [l Hlk].
    { rewrite <-Hlen, <-Hd. by eapply lookup_lt_Some. }
    rewrite (Hread k l Hlk) in Hk. injection Hk as <-.
    assert (members img lab l ≠ []) as Hne by (by eapply members_nonempty).
    apply Forall_lookup. intros j v Hj.
    assert (j < c)%nat as Hjc.
    { apply lookup_lt_Some in Hj.
      rewrite (length_cast_mean c) in Hj; [done|done|by apply members_channels]. }
    rewrite (lookup_cast_mean c) in Hj; [|done|by apply members_channels|done].
    injection Hj as <-. by apply mean_of_range, members_uint8.
  - intros k l j Hk Hj. simpl. rewrite (Hread k l Hk). eexists. split; [done|].
    apply (lookup_cast_mean c); [by eapply members_nonempty|by apply members_channels|done].
  - intros fl k l Hfl Hk. simpl. rewrite (Hread k l Hk). f_equal. symmetry.
    apply (float_cast_mean fl c); [done|by eapply members_nonempty|
      by apply members_channels|by apply members_uint8|].
    pose proof (length_members img lab l). lia.
Qed.

Lemma mean_color_region_means_witness :
  ∃ out o h',
    mean_color 0%nat 1%nat h1 = (Ok out, h') ∧
    h' !! out = Some (Image o) ∧
    h' !! 0%nat = Some (Image img1) ∧
    h' !! 1%nat = Some (Labels lab1) ∧
    shape o = shape img1 ∧
    ∀ k l j, data lab1 !! k = Some l → (j < 3)%nat →
      ∃ px, data o !! k = Some px ∧ px !! j = Some (mean_of j (members img1 lab1 l)).
Proof.
  destruct (mean_color_region_means h1 0%nat 1%nat img1 lab1 3%nat)
    as (out & o & h' & Hrun & _ & Ho & _ & Hi & Hl & Hs & _ & _ & _ & Hm & _).
  - vm_compute. reflexivity.
  - vm_compute. reflexivity.
  - reflexivity.
  - reflexivity.
  - reflexivity.
  - repeat constructor.
  - split; [|vm_compute; discriminate].
    apply (bool_decide_unpack _). vm_compute. exact I.
  - exists out, o, h'. auto 10.
Defined.

End MeanColor.

Module NbCorrect.
Import Np Py Paint Nb Coins Contracts NpFacts MeanColorFacts CoinsFacts NbFacts Examples.
#[local] Open Scope string_scope.

(** C8.  A clustering cell whose call of [seg.slic] returns overwrites
    [labels] with the label map that [seg.slic] computes from the image
    and the arguments of that call.  Two such runs on the same image with
    the same arguments end with the same label map, whatever the name
    [labels] (or any other name) referred to before in either run.  When
    [seg.slic] raises instead, the cell raises the same exception and no
    name or array has changed: [labels] is what it was. *)
Theorem rerun_depends_on_image_and_arguments
    (slic : ndarray pixel → slic_kwargs → result (ndarray Z)) kw
    (sa sb : state) img :
  globals sa !! "seg" = Some Lib → globals sb !! "seg" = Some Lib →
  var sa "image" = Some (Image img) →
  var sb "image" = Some (Image img) →
  (∀ lab, slic img kw = Ok lab →
     var (rerun slic kw sa).2 "labels" = var (rerun slic kw sb).2 "labels" ∧
     var (rerun slic kw sa).2 "labels" = Some (Labels lab) ∧
     var (cluster slic kw sa).2 "labels" = var (cluster slic kw sb).2 "labels" ∧
     var (cluster slic kw sa).2 "labels" = Some (Labels lab)) ∧
  (∀ e, slic img kw = Raise e →
     rerun slic kw sa = (Raise e, sa) ∧ cluster slic kw sa = (Raise e, sa)).
Proof.
  intros Hsa Hsb Ha Hb. split.
  - intros lab Hl.
    pose proof (rerun_labels slic kw sa img lab Hsa Ha Hl) as Hra.
    pose proof (rerun_labels slic kw sb img lab Hsb Hb Hl) as Hrb.
    pose proof (cluster_labels slic kw sa img lab Hsa Ha Hl) as Hca.
    pose proof (cluster_labels slic kw sb img lab Hsb Hb Hl) as Hcb.
    split_and!; congruence.
  - intros e He. apply var_image_inv in Ha as (image & Hg & Hh). split.
    + by apply (rerun_raise slic kw sa image img e).
    + by apply (cluster_raise slic kw sa image img e).
Qed.

Lemma rerun_depends_on_image_and_arguments_witness :
  (var (rerun slic1 kw_sigma s1).2 "labels" = var (rerun slic1 kw_sigma s2).2 "labels" ∧
   var (rerun slic1 kw_sigma s1).2 "labels"
     = Some (Labels (NdArray [2; 3]%nat [18; 18; 18; 18; 18; 18])) ∧
   var (cluster slic1 kw_sigma s1).2 "labels" = var (cluster slic1 kw_sigma s2).2 "labels" ∧
   var (cluster slic1 kw_sigma s1).2 "labels"
     = Some (Labels (NdArray [2; 3]%nat [18; 18; 18; 18; 18; 18]))) ∧
  (rerun slic1 kw_bad s1 = (Raise ValueError, s1) ∧
   cluster slic1 kw_bad s1 = (Raise ValueError, s1)).
Proof.
  split.
  - apply (rerun_depends_on_image_and_arguments slic1 kw_sigma s1 s2 img1);
      vm_compute; reflexivity.
  - apply (rerun_depends_on_image_and_arguments slic1 kw_bad s1 s2 img1);
      vm_compute; reflexivity.
Defined.




End NbCorrect.

Module RegionFilterCorrect.
Import Np Py MeanColorFacts RegionFilter RegionFilterFacts Examples.

(** C4.  The region filter returns a new label map; the map [ws] it was
    given is unchanged in the store.  A pixel of a region whose eccentricity
    exceeds 0.6 is 0 in the new map, a pixel of a region with eccentricity
    at most 0.6 keeps its label, and so does a pixel outside every region.
    The library's descriptors carry pairwise distinct labels. *)
Theorem region_filter_frame (regionprops : ndarray Z → list region)
    (h : store) ws a :
  h !! ws = Some (Labels a) →
  NoDup (label <$> regionprops a) →
  ∃ upd a' h',
    filter_regions regionprops ws h = (Ok upd, h') ∧
    h !! upd = None ∧
    h' !! upd = Some (Labels a') ∧
    h' !! ws = Some (Labels a) ∧
    (∀ l, l ≠ upd → h' !! l = h !! l) ∧
    shape a' = shape a ∧ length (data a') = length (data a) ∧
    (∀ k r, r ∈ regionprops a → data a !! k = Some (label r) →
       ((max_eccentricity < eccentricity r)%Q → data a' !! k = Some 0) ∧
       ((eccentricity r <= max_eccentricity)%Q → data a' !! k = Some (label r))) ∧
    (∀ k l, data a !! k = Some l → l ∉ label <$> regionprops a →
       data a' !! k = Some l).
Proof.
  intros Hws Hnd.
  set (upd := fresh (dom h)).
  assert (h !! upd = None) as Hfresh by (apply not_elem_of_dom, is_fresh).
  assert (upd ≠ ws) as Hne by (intros ->; congruence).
  set (rs := regionprops a) in *.
  set (a' := NdArray (shape a) ((λ y, foldl (λ y r, step r y) y rs) <$> data a)).
  exists upd, a', (<[upd := Labels a']> h).
  split_and!.
  - unfold filter_regions.
    rewrite (bind_ok _ _ h rs h)
      by (unfold regionprops_at, labels_at; run; by rewrite Hws).
    rewrite (bind_ok _ _ h upd (<[upd := Labels (Np.copy a)]> h))
      by (unfold copy, labels_at, alloc; run; by rewrite Hws).
    erewrite bind_ok.
    2:{ apply (filter_loop_run _ upd (Np.copy a)). by rewrite lookup_insert_eq. }
    unfold mret, M_ret. simpl. by rewrite insert_insert_eq.
  - done.
  - by rewrite lookup_insert_eq.
  - by rewrite lookup_insert_ne.
  - intros l ?. by rewrite lookup_insert_ne.
  - done.
  - unfold a'. simpl. by rewrite length_fmap.
  - intros k r Hr Hk. unfold a'. simpl. rewrite list_lookup_fmap, Hk. simpl.
    rewrite foldl_step. split.
    + intros Hbig. rewrite decide_True; [done|].
      apply Exists_exists. exists r. by split.
    + intros Hsmall. rewrite decide_False; [done|].
      intros (r' & Hr' & Hlab & Hbig)%Exists_exists.
      assert (r' = r) as ->.
      { apply list_elem_of_lookup in Hr as [i Hi], Hr' as [i' Hi'].
        assert (i' = i) as ->; [|congruence].
        apply (NoDup_lookup _ i' i (label r) Hnd);
          rewrite list_lookup_fmap; [rewrite Hi'|rewrite Hi]; simpl; congruence. }
      by apply Qlt_not_le in Hbig.
  - intros k l Hk Hl. unfold a'. simpl. rewrite list_lookup_fmap, Hk. simpl.
    rewrite foldl_step. rewrite decide_False; [done|].
    intros (r & Hr & Hlab & _)%Exists_exists. apply Hl.
    apply list_elem_of_fmap. exists r. by split.
Qed.

Lemma region_filter_frame_witness :
  ∃ upd a' h',
    filter_regions regions1 5%nat h2 = (Ok upd, h') ∧
    h' !! upd = Some (Labels a') ∧
    h' !! 5%nat = Some (Labels ws1) ∧
    data a' !! 2%nat = Some 0 ∧ data a' !! 0%nat = Some 1.
Proof.
  destruct (region_filter_frame regions1 h2 5%nat ws1)
    as (upd & a' & h' & Hrun & _ & Hupd & Hws & _ & _ & _ & Hreg & _).
  - vm_compute. reflexivity.
  - apply (bool_decide_unpack _). vm_compute. exact I.
  - exists upd, a', h'. split_and!; try done.
    + apply (Hreg 2%nat (Region 2 (9 # 10))); [|done|done].
      apply (list_elem_of_lookup_2 _ 1%nat). reflexivity.
    + apply (Hreg 0%nat (Region 1 (1 # 2))); [|done|].
      * apply (list_elem_of_lookup_2 _ 0%nat). reflexivity.
      * vm_compute. discriminate.
Defined.

End RegionFilterCorrect.

Module CoinsCorrect.
Import Np NpFacts Coins CoinsFacts Examples.

(** C5.  Given SciPy's contract for the distance transform at the mask
    [edges < 0.4], the distance map of the notebook holds, at every pixel,
    the Euclidean distance to the nearest boundary pixel, a boundary pixel
    being one whose Sobel response is at least 0.4: the value is 0 on a
    boundary pixel, and (when there is a boundary pixel at all) it is the
    distance to a boundary pixel that no other boundary pixel is nearer
    than, as float64 holds that distance. *)
Theorem distance_to_nearest_boundary
    (distance_transform_edt : ndarray bool → ndarray R) (edges : ndarray Q) :
  is_edt (lt_scalar edges (4 # 10))
         (distance_transform_edt (lt_scalar edges (4 # 10))) →
  shape (distance_from_edge distance_transform_edt edges) = shape edges ∧
  ∀ ix k, ravel (shape edges) ix = Some k →
    ∃ v, data (distance_from_edge distance_transform_edt edges) !! k = Some v ∧
      (boundary edges k → v = 0%R) ∧
      ((∃ j, boundary edges j) →
         ∃ jx j, ravel (shape edges) jx = Some j ∧ boundary edges j ∧
           (∀ jx' j', ravel (shape edges) jx' = Some j' → boundary edges j' →
              sq_dist ix jx ≤ sq_dist ix jx') ∧
           rounds (euclid ix jx) v).
Proof.
  intros [Hsh Hedt]. split; [done|].
  intros ix k Hk. destruct (Hedt ix k Hk) as (v & Hv & H0 & Hmin).
  exists v. split; [done|]. split.
  - intros Hb. by apply H0, non_edges_false.
  - intros [j Hb]. destruct Hmin as (jx & j' & Hj' & Hf & Hnear & Hv').
    { exists j. by apply non_edges_false. }
    exists jx, j'. split_and!; [done| | |done].
    + by apply non_edges_false.
    + intros jx' j'' Hj'' Hb'. apply (Hnear jx' j''); [done|].
      by apply non_edges_false.
Qed.

Lemma euclid_self ix : euclid ix ix = 0%R.
Proof.
  unfold euclid. replace (sq_dist ix ix) with 0; [apply sqrt_0|].
  unfold sq_dist. induction ix as [|i ix IH]; simpl; [done|].
  rewrite <-IH. replace (Z.of_nat i - Z.of_nat i) with 0 by lia. done.
Qed.

Lemma rounds_refl d : (0 <= d)%R → rounds d d.
Proof.
  intros Hd. unfold rounds, eps.
  replace (d - d)%R with 0%R by lra. rewrite Rabs_R0. nra.
Qed.

Lemma edt1_is_edt :
  is_edt (lt_scalar edges1 (4 # 10)) (edt1 (lt_scalar edges1 (4 # 10))).
Proof.
  split; [done|]. intros ix k Hk.
  destruct (ravel_Some _ _ _ Hk) as [Hlt <-].
  assert (∀ jx j, ravel (shape (lt_scalar edges1 (4 # 10))) jx = Some j →
            data (lt_scalar edges1 (4 # 10)) !! j = Some false →
            jx = [0; 0]%nat) as Hbg.
  { intros jx j Hj Hf. destruct (ravel_Some _ _ _ Hj) as [Hjlt <-].
    destruct j as [|[|j]]; [done|done|]. simpl in Hjlt. lia. }
  destruct k as [|[|k]]; [| |simpl in Hlt; lia].
  - exists 0%R. split; [done|]. split; [done|].
    intros _. exists [0; 0]%nat, 0%nat. split_and!; [done|done| |].
    + intros jx' j' _ _. apply sq_dist_nonneg.
    + replace (euclid _ _) with 0%R
        by (symmetry; apply (euclid_self [0; 0]%nat)).
      apply rounds_refl. lra.
  - exists 1%R. split; [done|]. split; [done|].
    intros _. exists [0; 0]%nat, 0%nat. split_and!; [done|done| |].
    + intros jx' j' Hj' Hf'. by rewrite (Hbg jx' j' Hj' Hf').
    + unfold euclid. replace (sq_dist _ _) with 1 by reflexivity.
      rewrite sqrt_1. apply rounds_refl. lra.
Qed.

Lemma distance_to_nearest_boundary_witness :
  shape (distance_from_edge edt1 edges1) = shape edges1 ∧
  ∀ ix k, ravel (shape edges1) ix = Some k →
    ∃ v, data (distance_from_edge edt1 edges1) !! k = Some v ∧
      (boundary edges1 k → v = 0%R) ∧
      ((∃ j, boundary edges1 j) →
         ∃ jx j, ravel (shape edges1) jx = Some j ∧ boundary edges1 j ∧
           (∀ jx' j', ravel (shape edges1) jx' = Some j' → boundary edges1 j' →
              sq_dist ix jx ≤ sq_dist ix jx') ∧
           rounds (euclid ix jx) v).
Proof. exact (distance_to_nearest_boundary edt1 edges1 edt1_is_edt). Defined.

(** C6.  The seeds handed to the watershed of the coins image mark exactly
    the peaks that peak finding reports on the distance transform of the
    thresholded Sobel image: a pixel is true in the seed mask
    [peaks_image] if and only if [peak_local_max] listed it, and the
    labelled seed array passed to [watershed] is non-zero at exactly those
    pixels.  Peak finding reports positions of the image, and [ndi.label]
    keeps the background at 0 and labels every marked pixel. *)
Theorem seeds_mark_the_peaks
    (sobel : ndarray Z → ndarray Q)
    (distance_transform_edt : ndarray bool → ndarray R)
    (peak_local_max : ndarray R → list (list nat))
    (ndi_label : ndarray bool → ndarray Z * nat)
    (watershed : ndarray Q → ndarray Z → ndarray Z)
    (coins : ndarray Z) :
  let reported :=
    peak_local_max (distance_transform_edt (lt_scalar (sobel coins) (4 # 10))) in
  Forall (λ ix, is_Some (ravel (shape coins) ix)) reported →
  (∀ m, is_labelling m (ndi_label m).1) →
  ∃ mask seeds,
    peaks_image coins (peaks_of sobel distance_transform_edt peak_local_max coins)
      = Some mask ∧
    seeds_of sobel distance_transform_edt peak_local_max ndi_label coins
      = Some seeds ∧
    ws_of sobel distance_transform_edt peak_local_max ndi_label watershed coins
      = Some (watershed (sobel coins) seeds) ∧
    ∀ ix k, ravel (shape coins) ix = Some k →
      (data mask !! k = Some true ↔ ix ∈ reported) ∧
      (∃ v, data seeds !! k = Some v ∧ (v ≠ 0 ↔ ix ∈ reported)).
Proof.
  intros reported Hpeaks Hlabel.
  assert (peaks_of sobel distance_transform_edt peak_local_max coins = reported)
    as Hrep by reflexivity.
  destruct (peaks_image_spec coins reported Hpeaks) as (m & Hm & Hsh & Hlen & Hread).
  exists m, (ndi_label m).1. rewrite Hrep. split; [done|].
  unfold ws_of, seeds_of. rewrite Hrep, Hm. simpl.
  split; [done|]. split; [done|].
  intros ix k Hk. specialize (Hread ix k Hk). split.
  - rewrite Hread. split.
    + intros [= Hb]. by apply bool_decide_eq_true in Hb.
    + intros Hin. f_equal. by apply bool_decide_eq_true.
  - destruct (Hlabel m) as [_ Hl].
    destruct (Hl k _ Hread) as (v & Hv & Hiff).
    exists v. split; [done|]. by rewrite Hiff, bool_decide_eq_true.
Qed.

Lemma label1_is_labelling m : is_labelling m (label1 m).1.
Proof.
  split; [done|]. intros k b Hk. simpl. rewrite list_lookup_fmap, Hk. simpl.
  eexists. split; [done|]. by destruct b.
Qed.

Lemma seeds_mark_the_peaks_witness :
  ∃ mask seeds,
    peaks_image coins1 (peaks_of sobel1 edt1 peaks1 coins1) = Some mask ∧
    seeds_of sobel1 edt1 peaks1 label1 coins1 = Some seeds ∧
    ws_of sobel1 edt1 peaks1 label1 watershed1 coins1
      = Some (watershed1 (sobel1 coins1) seeds) ∧
    ∀ ix k, ravel (shape coins1) ix = Some k →
      (data mask !! k = Some true ↔ ix ∈ [[0; 1]; [1; 2]]%nat) ∧
      (∃ v, data seeds !! k = Some v ∧ (v ≠ 0 ↔ ix ∈ [[0; 1]; [1; 2]]%nat)).
Proof.
  apply (seeds_mark_the_peaks sobel1 edt1 peaks1 label1 watershed1 coins1).
  - repeat constructor; by eexists.
  - exact label1_is_labelling.
Defined.

End CoinsCorrect.

Module Failures.
Import Syntax Cells Sem Static Trace Sound SemFacts SemExamples.
#[local] Open Scope string_scope.

(** C7.  Whatever the libraries do and however long the run, a failure of
    any library operation in any cell is the outcome of the whole run: the
    exception reaches the top uncaught, the failing operation is the last
    one performed (nothing of the notebook runs after it, so nothing
    handles, retries or reports it), and it is the only failure. *)
Theorem library_errors_propagate
    (W : Type) (lib : prim → list val → W → (val + exn) * W) n w ev e :
  ev ∈ log (run W lib n notebook w).2 →
  outcome ev = inr e →
  (run W lib n notebook w).1 = Exc e ∧
  ∃ l0 : list event,
    log (run W lib n notebook w).2 = (l0 ++ [ev])%list ∧ clean l0.
Proof.
  intros Hin He.
  assert (good_cells anything notebook = true) as Hgood by reflexivity.
  destruct (run_post lib anything n notebook w Hgood) as (_ & _ & Hr).
  destruct ((run W lib n notebook w).1) as [[]|v|e'|];
    try (exfalso; by eapply clean_no_failure).
  destruct Hr as [Hclean|Hlast]; [exfalso; by eapply clean_no_failure|].
  destruct (failure_is_last _ _ _ _ Hlast Hin He) as [-> ?]. done.
Qed.

Lemma library_errors_propagate_witness :
  (run unit lib_no_file 100 notebook tt).1 = Exc "IOError" ∧
  ∃ l0 : list event,
    log (run unit lib_no_file 100 notebook tt).2
    = (l0 ++ [Event (PCall (Attr (Name "io") "imread"))
                    [VObj 0; VStr "../images/spice_1.jpg"] (inr "IOError")])%list
    ∧ clean l0.
Proof.
  apply (library_errors_propagate unit lib_no_file 100 tt
           (Event (PCall (Attr (Name "io") "imread"))
                  [VObj 0; VStr "../images/spice_1.jpg"] (inr "IOError"))
           "IOError").
  - vm_compute. repeat constructor.
  - reflexivity.
Defined.

End Failures.

Module Outside.
Import Syntax Cells Sem Static Trace Sound SemFacts IO SemExamples.
#[local] Open Scope string_scope.

(** C9, as stated, fails: a run in which every library operation succeeds
    prints text ([print(labels)] in the first clustering cell is the
    first), which is neither the reading of an image nor the rendering of
    a plot. *)
Lemma the_notebook_prints :
  ¬ images_and_plots_only (log (run unit lib_ok 100 notebook tt).2).
Proof.
  intros H.
  apply (Forall_lookup_1 _ _ 24
           (Event (PCall (Name "print")) [VObj 0; VObj 0] (inl (VObj 0)))) in H;
    [|vm_compute; reflexivity].
  vm_compute in H. apply list_elem_of_In in H. simpl in H.
  intuition discriminate.
Qed.

(** C9, amended.  Whatever the libraries do and however long the run,
    every operation of the notebook is a computation in memory, the loading
    of a module or a kernel setting, the reading of an image file, the
    rendering of a plot, the printing of text into the cell output, or the
    loading of the stylesheet by the last cell; none is an operation
    outside this list, so no step writes a file, opens a network connection
    or reads a command line.  The only call of [io.imread] reads the name
    [url], whose only binding is the relative path of the spice image, and
    the only other image comes from [data.coins()], without arguments. *)
Theorem outside_effects_of_every_run
    (W : Type) (lib : prim → list val → W → (val + exn) * W) n w :
  Forall (λ ev, io_of (op ev) ∈ [Pure; Kernel; ReadImage; Render; PrintText; ReadStyle])
         (log (run W lib n notebook w).2) ∧
  flat_map (flat_map (calls_in ["io"; "imread"])) notebook = [[Name "url"]] ∧
  flat_map (flat_map (bindings "url")) notebook = [Some (Str "../images/spice_1.jpg")] ∧
  has_scheme "../images/spice_1.jpg" = false ∧
  flat_map (flat_map (calls_in ["data"; "coins"])) notebook = [[]].
Proof.
  split_and!; try reflexivity.
  assert (good_cells permitted notebook = true) as Hgood by (vm_compute; reflexivity).
  destruct (run_post lib permitted n notebook w Hgood) as (_ & Hw & _).
  eapply Forall_impl; [exact Hw|]. intros ev Hev. simpl in Hev.
  by apply bool_decide_eq_true in Hev.
Qed.

End Outside.

(** ** More about [mean_color] *)

Module MeanColorMore.
Import Np Py Paint NpFacts MeanSpec MeanFacts MeanColorFacts FrameFacts Outcome.

(** What the painted data holds at a position with label [l]. *)
Lemma lookup_painted img lab k l :
  length (data img) = length (data lab) → data lab !! k = Some l →
  painted img lab !! k = Some (cast <$> mean_axis0 (members img lab l)).
Proof.
  intros Hlen Hk. unfold painted.
  rewrite (lookup_paint_all _ _ _ _ _ l); [| |done].
  - rewrite decide_True; [done|].
    apply elem_of_unique, list_elem_of_lookup. eauto.
  - unfold Np.zeros_like. simpl. rewrite length_fmap, Hlen.
    by eapply lookup_lt_Some.
Qed.

Lemma lookup_painted_None img lab k :
  length (data img) = length (data lab) → data lab !! k = None →
  painted img lab !! k = None.
Proof.
  intros Hlen Hk. apply lookup_ge_None. rewrite length_painted, Hlen.
  by apply lookup_ge_None.
Qed.

Lemma mean_color_returns (h : store) image labels img lab :
  h !! image = Some (Image img) → h !! labels = Some (Labels lab) →
  wf img → wf lab → shape lab = shape img →
  returned (mean_color image labels h)
  = Some (NdArray (shape img) (painted img lab)).
Proof.
  intros Hi Hl Wi Wl Sl.
  rewrite (mean_color_eval h image labels img lab) by done.
  unfold returned. by rewrite lookup_insert_eq.
Qed.

Lemma mapM_const {A B} (f : A → option B) ks v :
  (∀ k, k ∈ ks → f k = Some v) → mapM f ks = Some (replicate (length ks) v).
Proof.
  intros H. apply mapM_Some.
  induction ks as [|k ks IH]; simpl; constructor.
  - apply H, list_elem_of_here.
  - apply IH. intros k' Hk'. by apply H, list_elem_of_further.
Qed.

(** The pixels of a region of an image that is constant on that region. *)
Lemma members_const o lab l v :
  length (data o) = length (data lab) →
  (∀ k, data lab !! k = Some l → data o !! k = Some v) →
  members o lab l = replicate (length (where_eq lab l)) v.
Proof.
  intros Hlen Hv. pose proof (gather_members o lab l Hlen) as Hg.
  rewrite (mapM_const _ _ v) in Hg; [congruence|].
  intros k Hk%elem_of_where_eq. by apply Hv.
Qed.

Lemma sumZ_chan_replicate j n v :
  sumZ (chan j <$> replicate n v) = Z.of_nat n * chan j v.
Proof.
  induction n as [|n IH]; [done|].
  cbn [replicate]. rewrite fmap_cons, sumZ_cons, IH. lia.
Qed.

(** The mean of equal pixels is that pixel: nothing is lost to rounding. *)
Lemma mean_replicate n v :
  (0 < n)%nat → cast <$> mean_axis0 (replicate n v) = v.
Proof.
  intros Hn.
  assert (replicate n v ≠ []) as Hne by (destruct n; [lia|done]).
  assert (Forall (λ q, length q = length v) (replicate n v)) as Hall.
  { apply Forall_forall. by intros q [-> _]%elem_of_replicate. }
  apply list_eq. intros j.
  destruct (decide (j < length v)%nat) as [Hj|Hj].
  - rewrite (lookup_cast_mean (length v)) by done.
    unfold mean_of. rewrite sumZ_chan_replicate, length_replicate.
    rewrite Z.mul_comm, Z.quot_mul by lia.
    unfold chan. destruct (lookup_lt_is_Some_2 v j Hj) as [x ->]. done.
  - rewrite (lookup_ge_None_2 v) by lia.
    apply lookup_ge_None. rewrite (length_cast_mean (length v)) by done. lia.
Qed.

Lemma where_eq_nonempty lab k l :
  data lab !! k = Some l → (0 < length (where_eq lab l))%nat.
Proof.
  intros Hk%elem_of_where_eq. destruct (where_eq lab l); [|simpl; lia].
  by apply not_elem_of_nil in Hk.
Qed.

Lemma painted_idem sh img lab :
  length (data img) = length (data lab) →
  painted (NdArray sh (painted img lab)) lab = painted img lab.
Proof.
  intros Hlen.
  assert (length (data (NdArray sh (painted img lab))) = length (data lab))
    as Hlen' by (simpl; by rewrite length_painted).
  apply list_eq. intros k.
  destruct (data lab !! k) as [l|] eqn:Hk.
  - rewrite (lookup_painted _ lab k l), (lookup_painted img lab k l) by done.
    f_equal.
    rewrite (members_const _ lab l (cast <$> mean_axis0 (members img lab l)))
      by (try done; intros k' Hk'; simpl; by apply lookup_painted).
    apply mean_replicate. by eapply where_eq_nonempty.
  - by rewrite !lookup_painted_None.
Qed.

Lemma singleton_of_NoDup (ks : list nat) k :
  NoDup ks → (∀ x, x ∈ ks ↔ x = k) → ks = [k].
Proof.
  intros Hnd Hks. destruct ks as [|a ks].
  - exfalso. eapply not_elem_of_nil. by apply Hks.
  - assert (a = k) as -> by (apply Hks, list_elem_of_here).
    destruct ks as [|b ks]; [done|].
    assert (b = k) as ->
      by (apply Hks, list_elem_of_further, list_elem_of_here).
    apply NoDup_cons in Hnd as [Hnotin _]. exfalso. apply Hnotin, list_elem_of_here.
Qed.

Lemma where_eq_single lab k l :
  NoDup (data lab) → data lab !! k = Some l → where_eq lab l = [k].
Proof.
  intros Hnd Hk. apply singleton_of_NoDup.
  - unfold where_eq. apply NoDup_filter, NoDup_seq.
  - intros k'. rewrite elem_of_where_eq. split.
    + intros Hk'. by eapply NoDup_lookup.
    + by intros ->.
Qed.

Lemma painted_own_labels img lab :
  length (data img) = length (data lab) → NoDup (data lab) →
  painted img lab = data img.
Proof.
  intros Hlen Hnd. apply list_eq. intros k.
  destruct (data lab !! k) as [l|] eqn:Hk.
  - rewrite (lookup_painted img lab k l) by done.
    destruct (lookup_lt_is_Some_2 (data img) k) as [px Hpx].
    { rewrite Hlen. by eapply lookup_lt_Some. }
    pose proof (gather_members img lab l Hlen) as Hg.
    rewrite (where_eq_single lab k l) in Hg by done.
    cbn [mapM] in Hg. rewrite Hpx in Hg. simpl in Hg.
    injection Hg as <-. rewrite Hpx. f_equal.
    apply (mean_replicate 1). lia.
  - rewrite lookup_painted_None by done. symmetry.
    apply lookup_ge_None. rewrite Hlen. by apply lookup_ge_None.
Qed.

Lemma where_eq_relabel f lab l :
  (∀ x y, x ∈ data lab → y ∈ data lab → f x = f y → x = y) →
  l ∈ data lab →
  where_eq (relabel f lab) (f l) = where_eq lab l.
Proof.
  intros Hinj Hl. unfold where_eq, relabel. simpl. rewrite length_fmap.
  apply list_filter_iff. intros k. rewrite list_lookup_fmap.
  destruct (data lab !! k) as [l'|] eqn:Hk; simpl; [|done].
  split; [|by intros [= ->]].
  intros [= Hf]. f_equal. apply Hinj; [|done|done].
  apply list_elem_of_lookup. eauto.
Qed.

Lemma members_relabel f img lab l :
  length (data img) = length (data lab) →
  (∀ x y, x ∈ data lab → y ∈ data lab → f x = f y → x = y) →
  l ∈ data lab →
  members img (relabel f lab) (f l) = members img lab l.
Proof.
  intros Hlen Hinj Hl.
  pose proof (gather_members img lab l Hlen) as Hg.
  pose proof (gather_members img (relabel f lab) (f l)) as Hg'.
  rewrite where_eq_relabel in Hg' by done.
  rewrite Hg in Hg'. symmetry. apply (inj Some), Hg'.
  simpl. by rewrite length_fmap.
Qed.

Lemma painted_relabel f img lab :
  length (data img) = length (data lab) →
  (∀ x y, x ∈ data lab → y ∈ data lab → f x = f y → x = y) →
  painted img (relabel f lab) = painted img lab.
Proof.
  intros Hlen Hinj.
  assert (length (data img) = length (data (relabel f lab))) as Hlen'
    by (simpl; by rewrite length_fmap).
  apply list_eq. intros k.
  destruct (data lab !! k) as [l|] eqn:Hk.
  - rewrite (lookup_painted img lab k l) by done.
    rewrite (lookup_painted img (relabel f lab) k (f l));
      [|done|simpl; by rewrite list_lookup_fmap, Hk].
    rewrite members_relabel; [done..|]. apply list_elem_of_lookup. eauto.
  - rewrite !lookup_painted_None; [done|done|done|done|].
    simpl. by rewrite list_lookup_fmap, Hk.
Qed.

Lemma quot_between s n lo hi :
  0 < n → lo * n ≤ s ≤ hi * n → lo ≤ Z.quot s n ≤ hi.
Proof.
  intros Hn [Hlo Hhi]. destruct (decide (0 ≤ s)) as [Hs|Hs].
  - rewrite Z.quot_div_nonneg by lia. split.
    + apply Z.div_le_lower_bound; lia.
    + apply Z.div_le_upper_bound; lia.
  - replace s with (- - s) by lia. rewrite Z.quot_opp_l by lia.
    rewrite Z.quot_div_nonneg by lia.
    assert (- hi ≤ (- s) `div` n) by (apply Z.div_le_lower_bound; lia).
    assert ((- s) `div` n ≤ - lo) by (apply Z.div_le_upper_bound; lia).
    lia.
Qed.

Lemma sumZ_chan_between j ps lo hi :
  (∀ px, px ∈ ps → lo ≤ chan j px ≤ hi) →
  lo * Z.of_nat (length ps) ≤ sumZ (chan j <$> ps) ≤ hi * Z.of_nat (length ps).
Proof.
  induction ps as [|px ps IH]; intros H; [simpl; lia|].
  rewrite fmap_cons, sumZ_cons. cbn [length].
  pose proof (H px (list_elem_of_here _ _)).
  assert (∀ q, q ∈ ps → lo ≤ chan j q ≤ hi) as H'
    by (intros q Hq; by apply H, list_elem_of_further).
  specialize (IH H'). lia.
Qed.

(** The result of [mean_color] on a uint8 image is uint8 again, and as
    large. *)
Lemma painted_exact img lab c :
  wf img → wf lab → shape lab = shape img → channels c img →
  exact_in_float64 img →
  exact_in_float64 (NdArray (shape img) (painted img lab)).
Proof.
  intros Wi Wl Sl Hc [Hu Hsmall].
  assert (length (data img) = length (data lab)) as Hlen
    by (unfold wf in *; congruence).
  split; [|simpl; by rewrite length_painted].
  unfold uint8. simpl. apply Forall_lookup. intros k px Hk.
  destruct (lookup_lt_is_Some_2 (data lab) k) as [l Hlk].
  { rewrite <-Hlen, <-(length_painted img lab). by eapply lookup_lt_Some. }
  rewrite (lookup_painted img lab k l) in Hk by done. injection Hk as <-.
  assert (members img lab l ≠ []) as Hne by (by eapply members_nonempty).
  apply Forall_lookup. intros j v Hj.
  assert (j < c)%nat as Hjc.
  { apply lookup_lt_Some in Hj.
    rewrite (length_cast_mean c) in Hj; [done|done|by apply members_channels]. }
  rewrite (lookup_cast_mean c) in Hj; [|done|by apply members_channels|done].
  injection Hj as <-. by apply mean_of_range, members_uint8.
Qed.

End MeanColorMore.

Module MeanColorExtra.
Import Np Py Paint NpFacts MeanSpec MeanFacts MeanColorFacts Frame FrameFacts.
Import Outcome MeanColorMore Examples MoreExamples.

(** X1.  On any store and any two references, [mean_color] leaves every
    array that existed before the call as it was, also when it raises
    (a label map of another shape, a reference to something that is not an
    array); and a reference it returns did not exist before. *)
Theorem mean_color_touches_nothing (h : store) image labels :
  (∀ l, is_Some (h !! l) → (mean_color image labels h).2 !! l = h !! l) ∧
  (∀ out, (mean_color image labels h).1 = Ok out → h !! out = None).
Proof.
  split.
  - intros l Hl. by apply (frame_mean_color l image labels h).
  - intros out Hout. destruct (h !! out) as [o|] eqn:Ho; [|done].
    destruct (frame_mean_color out image labels h) as [_ Hne]; [by eexists|].
    by destruct (Hne out Hout).
Qed.

(** X2.  On a uint8 image of at most 2^44 pixels,
    [mean_color(mean_color(image, labels), labels)] is
    [mean_color(image, labels)]: the second call succeeds, allocates
    another array, and that array has the contents of the first result,
    which is uint8 again.  The mean of a region that is already constant
    is its value. *)
Theorem mean_color_twice (h : store) image labels img lab c :
  h !! image = Some (Image img) → h !! labels = Some (Labels lab) →
  wf img → wf lab → shape lab = shape img → channels c img →
  exact_in_float64 img →
  ∃ out h' out2 h'' o,
    mean_color image labels h = (Ok out, h') ∧
    mean_color out labels h' = (Ok out2, h'') ∧
    out2 ≠ out ∧
    h'' !! out = Some (Image o) ∧ h'' !! out2 = Some (Image o) ∧
    exact_in_float64 o.
Proof.
  intros Hi Hl Wi Wl Sl Hc Hx.
  assert (length (data img) = length (data lab)) as Hlen
    by (unfold wf in *; congruence).
  set (out := fresh (dom h)).
  assert (h !! out = None) as Hfresh by (apply not_elem_of_dom, is_fresh).
  assert (out ≠ labels) as Nl by (intros ->; congruence).
  set (o := NdArray (shape img) (painted img lab)).
  set (h' := <[out := Image o]> h).
  set (out2 := fresh (dom h')).
  assert (h' !! out2 = None) as Hfresh2 by (apply not_elem_of_dom, is_fresh).
  assert (out2 ≠ out) as Hne.
  { intros E. rewrite E in Hfresh2. unfold h' in Hfresh2.
    by rewrite lookup_insert_eq in Hfresh2. }
  exists out, h', out2, (<[out2 := Image o]> h'), o. split_and!.
  - by apply mean_color_eval.
  - assert (wf o) as Wo
      by (unfold wf, o in *; simpl; rewrite length_painted; congruence).
    assert (h' !! out = Some (Image o)) as Ho
      by (unfold h'; by rewrite lookup_insert_eq).
    assert (h' !! labels = Some (Labels lab)) as Hl'
      by (unfold h'; by rewrite lookup_insert_ne).
    rewrite (mean_color_eval h' out labels o lab Ho Hl' Wo Wl Sl).
    fold out2. do 3 f_equal. unfold o. simpl. f_equal. by apply painted_idem.
  - done.
  - rewrite lookup_insert_ne by done. unfold h'. by rewrite lookup_insert_eq.
  - by rewrite lookup_insert_eq.
  - by apply (painted_exact img lab c).
Qed.

Lemma mean_color_twice_witness :
  ∃ out h' out2 h'' o,
    mean_color 0%nat 1%nat h1 = (Ok out, h') ∧
    mean_color out 1%nat h' = (Ok out2, h'') ∧
    out2 ≠ out ∧
    h'' !! out = Some (Image o) ∧ h'' !! out2 = Some (Image o) ∧
    exact_in_float64 o.
Proof.
  apply (mean_color_twice h1 0%nat 1%nat img1 lab1 3%nat).
  - vm_compute. reflexivity.
  - vm_compute. reflexivity.
  - reflexivity.
  - reflexivity.
  - reflexivity.
  - repeat constructor.
  - split; [|vm_compute; discriminate].
    apply (bool_decide_unpack _). vm_compute. exact I.
Defined.

(** X3.  With a label of its own for every pixel, [mean_color] returns a
    copy of a uint8 image: every region is one pixel, and its mean is the
    pixel (a value below 256 is a float64 and comes back unchanged). *)
Theorem mean_color_own_labels (h : store) image labels img lab :
  h !! image = Some (Image img) → h !! labels = Some (Labels lab) →
  wf img → wf lab → shape lab = shape img →
  uint8 img →
  NoDup (data lab) →
  returned (mean_color image labels h) = Some img ∧
  (mean_color image labels h).1 ≠ Ok image.
Proof.
  intros Hi Hl Wi Wl Sl _ Hnd.
  assert (length (data img) = length (data lab)) as Hlen
    by (unfold wf in *; congruence).
  split.
  - rewrite (mean_color_returns h image labels img lab) by done.
    rewrite painted_own_labels by done. by destruct img.
  - rewrite (mean_color_eval h image labels img lab) by done. simpl.
    intros [= E].
    assert (h !! fresh (dom h) = None) as Hfresh
      by (apply not_elem_of_dom, is_fresh).
    congruence.
Qed.

Lemma mean_color_own_labels_witness :
  returned (mean_color 0%nat 1%nat h_own) = Some img1 ∧
  (mean_color 0%nat 1%nat h_own).1 ≠ Ok 0%nat.
Proof.
  apply (mean_color_own_labels h_own 0%nat 1%nat img1 lab_own).
  - vm_compute. reflexivity.
  - vm_compute. reflexivity.
  - reflexivity.
  - reflexivity.
  - reflexivity.
  - apply (bool_decide_unpack _). vm_compute. exact I.
  - apply (bool_decide_unpack _). vm_compute. exact I.
Defined.

(** X4.  Only the regions matter, not the numbers that name them: two
    label maps that differ by a renaming of the labels (one that keeps
    different labels different) give the same mean-colour image, in any
    two stores. *)
Theorem mean_color_relabel (f : Z → Z) (h h' : store)
    image labels image' labels' img lab :
  h !! image = Some (Image img) → h !! labels = Some (Labels lab) →
  h' !! image' = Some (Image img) →
  h' !! labels' = Some (Labels (relabel f lab)) →
  wf img → wf lab → shape lab = shape img →
  (∀ x y, x ∈ data lab → y ∈ data lab → f x = f y → x = y) →
  returned (mean_color image' labels' h') = returned (mean_color image labels h) ∧
  is_Some (returned (mean_color image labels h)).
Proof.
  intros Hi Hl Hi' Hl' Wi Wl Sl Hinj.
  assert (length (data img) = length (data lab)) as Hlen
    by (unfold wf in *; congruence).
  rewrite (mean_color_returns h image labels img lab) by done.
  rewrite (mean_color_returns h' image' labels' img (relabel f lab));
    [|done|done|done| |done].
  - rewrite painted_relabel by done. split; [done|by eexists].
  - unfold wf, relabel in *. simpl. by rewrite length_fmap.
Qed.

Lemma mean_color_relabel_witness :
  returned (mean_color 3%nat 7%nat h_moved) = returned (mean_color 0%nat 1%nat h1) ∧
  is_Some (returned (mean_color 0%nat 1%nat h1)).
Proof.
  apply (mean_color_relabel (λ x, x + 10) h1 h_moved 0%nat 1%nat 3%nat 7%nat img1 lab1).
  - vm_compute. reflexivity.
  - vm_compute. reflexivity.
  - vm_compute. reflexivity.
  - vm_compute. reflexivity.
  - reflexivity.
  - reflexivity.
  - reflexivity.
  - intros x y _ _ E. lia.
Defined.

(** X5.  A mean stays between the values it averages.  On a uint8 image
    of at most 2^44 pixels: if, in one channel, all pixels of a region lie
    between [lo] and [hi], so does the value that [mean_color] writes for
    that region in that channel.  The truncation to uint8 never leaves the
    range the region spans. *)
Theorem mean_color_between (h : store) image labels img lab c k l j lo hi :
  h !! image = Some (Image img) → h !! labels = Some (Labels lab) →
  wf img → wf lab → shape lab = shape img → channels c img →
  exact_in_float64 img →
  data lab !! k = Some l → (j < c)%nat →
  (∀ px, px ∈ members img lab l → lo ≤ chan j px ≤ hi) →
  ∃ o px v,
    returned (mean_color image labels h) = Some o ∧
    data o !! k = Some px ∧ px !! j = Some v ∧ lo ≤ v ≤ hi.
Proof.
  intros Hi Hl Wi Wl Sl Hc _ Hk Hj Hrange.
  assert (length (data img) = length (data lab)) as Hlen
    by (unfold wf in *; congruence).
  assert (members img lab l ≠ []) as Hne by (by eapply members_nonempty).
  exists (NdArray (shape img) (painted img lab)),
         (cast <$> mean_axis0 (members img lab l)),
         (mean_of j (members img lab l)).
  split; [|split; [|split]].
  - by apply mean_color_returns.
  - simpl. by apply lookup_painted.
  - apply (lookup_cast_mean c); [done|by apply members_channels|done].
  - apply quot_between.
    + destruct (members img lab l); [done|simpl; lia].
    + by apply sumZ_chan_between.
Qed.

Lemma mean_color_between_witness :
  ∃ o px v,
    returned (mean_color 0%nat 1%nat h1) = Some o ∧
    data o !! 0%nat = Some px ∧ px !! 0%nat = Some v ∧ 7 ≤ v ≤ 255.
Proof.
  apply (mean_color_between h1 0%nat 1%nat img1 lab1 3%nat 0%nat 1 0%nat 7 255).
  - vm_compute. reflexivity.
  - vm_compute. reflexivity.
  - reflexivity.
  - reflexivity.
  - reflexivity.
  - repeat constructor.
  - split; [|vm_compute; discriminate].
    apply (bool_decide_unpack _). vm_compute. exact I.
  - reflexivity.
  - lia.
  - intros px Hpx. vm_compute in Hpx.
    repeat (apply elem_of_cons in Hpx as [->|Hpx]; [vm_compute; split; discriminate|]).
    by apply not_elem_of_nil in Hpx.
Defined.

End MeanColorExtra.

(** ** More about the region filter *)

Module RegionFilterMore.
Import Np Py MeanColorFacts RegionFilter RegionFilterFacts.

(** The filter cell, evaluated: the result is allocated at the next free
    reference and holds every label after all descriptors had their turn. *)
Lemma filter_regions_eval (regionprops : ndarray Z → list region) (h : store) ws a :
  h !! ws = Some (Labels a) →
  filter_regions regionprops ws h =
    (Ok (fresh (dom h)),
     <[fresh (dom h) :=
         Labels (NdArray (shape a)
                   ((λ y, foldl (λ y r, step r y) y (regionprops a)) <$> data a))]> h).
Proof.
  intros Hws. unfold filter_regions.
  rewrite (bind_ok _ _ h (regionprops a) h)
    by (unfold regionprops_at, labels_at; run; by rewrite Hws).
  rewrite (bind_ok _ _ h (fresh (dom h)) (<[fresh (dom h) := Labels (Np.copy a)]> h))
    by (unfold copy, labels_at, alloc; run; by rewrite Hws).
  erewrite bind_ok.
  2:{ apply (filter_loop_run _ (fresh (dom h)) (Np.copy a)). by rewrite lookup_insert_eq. }
  unfold mret, M_ret. simpl. by rewrite insert_insert_eq.
Qed.

Lemma foldl_step_id rs x :
  Forall (λ r, (eccentricity r <= max_eccentricity)%Q) rs →
  foldl (λ y r, step r y) x rs = x.
Proof.
  intros H. rewrite foldl_step. rewrite decide_False; [done|].
  intros (r & Hr & _ & Hbig)%Exists_exists.
  eapply Forall_forall in H; [|done]. by apply Qlt_not_le in Hbig.
Qed.

End RegionFilterMore.

Module RegionFilterExtra.
Import Np Py MeanColorFacts RegionFilter RegionFilterFacts RegionFilterMore Examples.

(** X6.  Whatever descriptors the library hands over (also with a label
    listed more than once), the filter cell succeeds on a label map and
    every pixel of its result is either the pixel's old label or 0: it is 0
    exactly when some descriptor with that label has an eccentricity above
    0.6, or the pixel was background already.  No pixel ever gets a label
    it did not have. *)
Theorem region_filter_erases_exactly
    (regionprops : ndarray Z → list region) (h : store) ws a :
  h !! ws = Some (Labels a) →
  ∃ upd a' h',
    filter_regions regionprops ws h = (Ok upd, h') ∧
    h' !! upd = Some (Labels a') ∧
    shape a' = shape a ∧ length (data a') = length (data a) ∧
    ∀ k l, data a !! k = Some l →
      (data a' !! k = Some l ∨ data a' !! k = Some 0) ∧
      (data a' !! k = Some 0 ↔
         l = 0 ∨ Exists (too_eccentric l) (regionprops a)).
Proof.
  intros Hws. do 3 eexists. split; [by apply filter_regions_eval|].
  rewrite lookup_insert_eq. split; [done|]. simpl.
  split; [done|]. split; [by rewrite length_fmap|].
  intros k l Hk. rewrite list_lookup_fmap, Hk. simpl. rewrite foldl_step.
  destruct (decide (Exists (too_eccentric l) (regionprops a))) as [Hex|Hex].
  - split; [by right|]. split; [by right|done].
  - split; [by left|]. split.
    + intros [= ->]. by left.
    + intros [->|?]; done.
Qed.

Lemma region_filter_erases_exactly_witness :
  ∃ upd a' h',
    filter_regions regions1 5%nat h2 = (Ok upd, h') ∧
    h' !! upd = Some (Labels a') ∧
    shape a' = shape ws1 ∧ length (data a') = length (data ws1) ∧
    ∀ k l, data ws1 !! k = Some l →
      (data a' !! k = Some l ∨ data a' !! k = Some 0) ∧
      (data a' !! k = Some 0 ↔
         l = 0 ∨ Exists (too_eccentric l) (regions1 ws1)).
Proof.
  apply (region_filter_erases_exactly regions1 h2 5%nat ws1).
  vm_compute. reflexivity.
Defined.

(** X7.  When no descriptor is above 0.6 (in particular when the library
    finds no region at all), the cell yields an exact copy of the label
    map: the same shape and labels, in a different array. *)
Theorem region_filter_keeps_round_regions
    (regionprops : ndarray Z → list region) (h : store) ws a :
  h !! ws = Some (Labels a) →
  Forall (λ r, (eccentricity r <= max_eccentricity)%Q) (regionprops a) →
  ∃ upd h',
    filter_regions regionprops ws h = (Ok upd, h') ∧
    upd ≠ ws ∧
    h' !! upd = Some (Labels a) ∧ h' !! ws = Some (Labels a).
Proof.
  intros Hws Hround.
  assert (h !! fresh (dom h) = None) as Hfresh by (apply not_elem_of_dom, is_fresh).
  assert (fresh (dom h) ≠ ws) as Hne by (intros E; congruence).
  do 2 eexists. split; [by apply filter_regions_eval|].
  split; [done|]. rewrite lookup_insert_eq, lookup_insert_ne by done.
  split; [|done]. do 2 f_equal. destruct a as [sh d]. simpl in *. f_equal.
  rewrite <-(list_fmap_id d) at 2. apply list_fmap_ext.
  intros i x _. by apply foldl_step_id.
Qed.

Lemma region_filter_keeps_round_regions_witness :
  ∃ upd h',
    filter_regions (λ _, [Region 1 (1 # 2); Region 3 (6 # 10)]) 5%nat h2 = (Ok upd, h') ∧
    upd ≠ 5%nat ∧
    h' !! upd = Some (Labels ws1) ∧ h' !! 5%nat = Some (Labels ws1).
Proof.
  apply (region_filter_keeps_round_regions
           (λ _, [Region 1 (1 # 2); Region 3 (6 # 10)]) h2 5%nat ws1).
  - vm_compute. reflexivity.
  - repeat constructor; vm_compute; discriminate.
Defined.

End RegionFilterExtra.

(** ** More about the seeds and the distance map *)

Module CoinsExtra.
Import Np NpFacts Coins CoinsFacts Examples.

(** X8.  Peak finding returns an (N, ndim) array: every row has one
    coordinate per axis of the image.  On such peaks, building the seed
    mask raises IndexError exactly when some coordinate is at or beyond
    the extent of its axis.  One such row is enough, wherever it
    stands. *)
Theorem peaks_image_out_of_bounds (coins : ndarray Z) peaks :
  Forall (λ ix, length ix = length (shape coins)) peaks →
  peaks_image coins peaks = None ↔
  Exists (λ ix, Exists (λ inn, (inn.2 ≤ inn.1)%nat) (zip ix (shape coins))) peaks.
Proof.
  intros Hfull. rewrite peaks_image_None.
  rewrite !Exists_exists. apply exist_proper. intros ix.
  split; intros [Hix H]; (split; [done|]);
    (eapply Forall_forall in Hfull; [|exact Hix]).
  - apply out_of_bounds; [done|].
    apply eq_None_not_Some in H. by rewrite ravel_is_Some in H.
  - apply eq_None_not_Some. rewrite ravel_is_Some. by apply out_of_bounds.
Qed.

Lemma peaks_image_out_of_bounds_witness :
  peaks_image coins1 [[0; 1]; [2; 0]]%nat = None ↔
  Exists (λ ix, Exists (λ inn : nat * nat, (inn.2 ≤ inn.1)%nat)
                       (zip ix (shape coins1)))
         [[0; 1]; [2; 0]]%nat.
Proof.
  apply (peaks_image_out_of_bounds coins1 [[0; 1]; [2; 0]]%nat).
  repeat constructor.
Defined.

(** X9.  The seed mask depends on which positions are reported, not on
    their order nor on how often each is reported: two lists of peaks with
    the same elements give the same mask (or both fail). *)
Theorem peaks_image_set (coins : ndarray Z) peaks peaks' :
  (∀ ix, ix ∈ peaks ↔ ix ∈ peaks') →
  peaks_image coins peaks = peaks_image coins peaks'.
Proof.
  intros Hsame.
  destruct (peaks_image coins peaks) as [m|] eqn:Hm.
  - assert (Forall (λ ix, is_Some (ravel (shape coins) ix)) peaks) as Hok.
    { apply Forall_forall. intros ix Hix.
      destruct (ravel (shape coins) ix) eqn:E; [by eexists|].
      assert (peaks_image coins peaks = None) as Hn
        by (apply peaks_image_None, Exists_exists; eauto).
      congruence. }
    assert (Forall (λ ix, is_Some (ravel (shape coins) ix)) peaks') as Hok'.
    { apply Forall_forall. intros ix Hix%Hsame.
      by eapply Forall_forall in Hok. }
    destruct (peaks_image_spec coins peaks Hok) as (m1 & Hm1 & Hs1 & Hl1 & Hr1).
    destruct (peaks_image_spec coins peaks' Hok') as (m2 & Hm2 & Hs2 & Hl2 & Hr2).
    rewrite Hm2. rewrite Hm1 in Hm. injection Hm as <-. f_equal.
    destruct m1 as [sh1 d1], m2 as [sh2 d2]. simpl in *. subst sh1 sh2.
    f_equal. apply list_eq. intros k.
    destruct (decide (k < size (shape coins))%nat) as [Hk|Hk].
    + pose proof (ravel_unravel _ _ Hk) as Hrav.
      rewrite (Hr1 _ _ Hrav), (Hr2 _ _ Hrav). f_equal.
      apply bool_decide_ext, Hsame.
    + rewrite !(proj2 (lookup_ge_None _ _)) by lia. done.
  - symmetry. apply peaks_image_None.
    apply peaks_image_None in Hm. apply Exists_exists in Hm as (ix & Hix & Hnone).
    apply Exists_exists. exists ix. split; [by apply Hsame|done].
Qed.

Lemma peaks_image_set_witness :
  peaks_image coins1 [[0; 1]; [1; 2]]%nat
  = peaks_image coins1 [[1; 2]; [0; 1]; [1; 2]]%nat.
Proof.
  apply (peaks_image_set coins1).
  intros ix. rewrite !elem_of_cons, !elem_of_nil. tauto.
Defined.

(** X10.  Given SciPy's contract for the distance transform at the mask
    [edges < 0.4] and at least one boundary pixel, the distance map is 0
    on the boundary pixels and nowhere else: at every other pixel it is at
    least 1, the distance between two neighbouring positions, up to the
    rounding of float64. *)
Theorem distance_zero_on_boundary_only
    (distance_transform_edt : ndarray bool → ndarray R) (edges : ndarray Q) :
  is_edt (lt_scalar edges (4 # 10))
         (distance_transform_edt (lt_scalar edges (4 # 10))) →
  (∃ j, boundary edges j) →
  ∀ ix k, ravel (shape edges) ix = Some k →
    ∃ v, data (distance_from_edge distance_transform_edt edges) !! k = Some v ∧
      (v = 0%R ↔ boundary edges k) ∧
      (¬ boundary edges k → (1 - eps <= v)%R).
Proof.
  intros [Hsh Hedt] [j0 Hj0] ix k Hk.
  destruct (Hedt ix k Hk) as (v & Hv & H0 & Hmin).
  exists v. split; [done|].
  assert (¬ boundary edges k → (1 - eps <= v)%R) as Hfar.
  { intros Hnb. destruct Hmin as (jx & j & Hj & Hf & _ & Hr).
    { exists j0. by apply non_edges_false. }
    apply non_edges_false in Hf. simpl in Hk, Hj.
    assert (1 <= euclid ix jx)%R as Hd.
    { apply euclid_ge_1.
      - by rewrite (ravel_length _ _ _ Hk), (ravel_length _ _ _ Hj).
      - intros ->. assert (j = k) as -> by congruence. done. }
    unfold rounds in Hr. apply Rabs_le_bounds in Hr. unfold eps in *. nra. }
  split; [split|done].
  - intros ->.
    assert (¬ boundary edges k → False) as Hno.
    { intros Hnb. apply Hfar in Hnb. unfold eps in Hnb. lra. }
    destruct (data edges !! k) as [e|] eqn:He.
    + destruct (Qlt_le_dec e (4 # 10)) as [Hlt|Hle]; [|by exists e].
      destruct Hno. intros (e' & He' & Hle'). rewrite He in He'.
      injection He' as <-. by apply Qle_not_lt in Hle'.
    + destruct Hno. intros (e' & He' & _). congruence.
  - intros Hb. by apply H0, non_edges_false.
Qed.

Lemma distance_zero_on_boundary_only_witness :
  ∃ v, data (distance_from_edge edt1 edges1) !! 1%nat = Some v ∧
    (v = 0%R ↔ boundary edges1 1) ∧
    (¬ boundary edges1 1 → (1 - eps <= v)%R).
Proof.
  apply (distance_zero_on_boundary_only edt1 edges1) with (ix := [0; 1]%nat).
  - exact CoinsCorrect.edt1_is_edt.
  - exists 0%nat, (1 # 2)%Q. split; [reflexivity|]. vm_compute. discriminate.
  - reflexivity.
Defined.

End CoinsExtra.

(** ** More about the clustering cells *)

Module NbMore.
Import Np Py Paint Nb MeanColorFacts Frame FrameFacts NbFacts Outcome.
#[local] Open Scope string_scope.

Lemma run_each_snoc cells cell s :
  run_each (cells ++ [cell]) s = (cell (run_each cells s)).2.
Proof. unfold run_each. by rewrite foldl_app. Qed.

(** A re-run keeps the import of [seg] and the image, whatever happens
    in it. *)
Lemma rerun_keeps slic kw s img :
  globals s !! "seg" = Some Lib → var s "image" = Some (Image img) →
  globals (rerun slic kw s).2 !! "seg" = Some Lib ∧
  var (rerun slic kw s).2 "image" = Some (Image img).
Proof.
  intros Hs Hi.
  assert (∀ x, x ≠ "labels" → x ≠ "label_image" →
               x ∉ ["labels"; "label_image"]) as Hnot.
  { intros x ? ?. rewrite !elem_of_cons, elem_of_nil. tauto. }
  split.
  - destruct (keeps_rerun slic kw s) as [_ Hg]. rewrite Hg; [done|].
    by apply Hnot.
  - apply (keeps_var ["labels"; "label_image"]);
      [apply keeps_rerun|by apply Hnot|done].
Qed.

Lemma reruns_keep slic kws s img :
  globals s !! "seg" = Some Lib → var s "image" = Some (Image img) →
  globals (run_each (rerun slic <$> kws) s) !! "seg" = Some Lib ∧
  var (run_each (rerun slic <$> kws) s) "image" = Some (Image img).
Proof.
  intros Hs Hi. induction kws as [|kw kws IH] using rev_ind; [done|].
  rewrite fmap_app. change (rerun slic <$> [kw]) with [rerun slic kw].
  rewrite run_each_snoc. destruct IH as [IHs IHi]. by apply rerun_keeps.
Qed.

End NbMore.

Module NbExtra.
Import Np Py Paint Nb MeanColorFacts Frame FrameFacts NbFacts Outcome NbMore.
Import Examples.
#[local] Open Scope string_scope.

(** X11.  A clustering cell never writes into an array that exists: on
    every state, also one in which it raises, all objects are afterwards
    what they were (the image and the label map of the run before
    included), and no name other than [labels] and [label_image] is
    rebound.  The first cell rebinds [labels] only. *)
Theorem clustering_cells_touch_no_array
    (slic : ndarray pixel → slic_kwargs → result (ndarray Z)) kw (s : state) :
  (∀ l, is_Some (objects s !! l) →
        objects (rerun slic kw s).2 !! l = objects s !! l) ∧
  (∀ x, x ≠ "labels" → x ≠ "label_image" →
        globals (rerun slic kw s).2 !! x = globals s !! x) ∧
  (∀ l, is_Some (objects s !! l) →
        objects (cluster slic kw s).2 !! l = objects s !! l) ∧
  (∀ x, x ≠ "labels" →
        globals (cluster slic kw s).2 !! x = globals s !! x).
Proof.
  destruct (keeps_rerun slic kw s) as [Hro Hrg].
  destruct (keeps_cluster slic kw s) as [Hco Hcg].
  split_and!; [done| |done|].
  - intros x ? ?. apply Hrg. rewrite !elem_of_cons, elem_of_nil. tauto.
  - intros x ?. apply Hcg. rewrite !elem_of_cons, elem_of_nil. tauto.
Qed.

(** X12.  Take any number of re-runs, run one after the other with any
    arguments, in a kernel where [seg] is imported and [image] is an
    image.  If the call of [seg.slic] in the last one returns, [labels]
    is the label map of that call, whatever the earlier re-runs did and
    whether they raised or not; if it raises, the last re-run leaves
    every name and array as the re-runs before it left them.  In both
    cases [image] is still the image. *)
Theorem last_rerun_wins
    (slic : ndarray pixel → slic_kwargs → result (ndarray Z))
    (kws : list slic_kwargs) (kw : slic_kwargs) (s : state) img :
  globals s !! "seg" = Some Lib →
  var s "image" = Some (Image img) →
  (∀ lab, slic img kw = Ok lab →
     var (run_each (rerun slic <$> (kws ++ [kw])%list) s) "labels"
       = Some (Labels lab)) ∧
  (∀ e, slic img kw = Raise e →
     run_each (rerun slic <$> (kws ++ [kw])%list) s
       = run_each (rerun slic <$> kws) s) ∧
  var (run_each (rerun slic <$> (kws ++ [kw])%list) s) "image" = Some (Image img).
Proof.
  intros Hs Hi.
  destruct (reruns_keep slic kws s img Hs Hi) as [Hs' Hi'].
  split_and!.
  - intros lab Hl. rewrite fmap_app.
    change (rerun slic <$> [kw]) with [rerun slic kw].
    rewrite run_each_snoc. by apply (rerun_labels slic kw _ img).
  - intros e He. rewrite fmap_app.
    change (rerun slic <$> [kw]) with [rerun slic kw].
    rewrite run_each_snoc.
    pose proof Hi' as (image & Hg & Hh)%var_image_inv.
    by rewrite (rerun_raise slic kw _ image img e).
  - by apply reruns_keep.
Qed.

Lemma last_rerun_wins_witness :
  var (run_each (rerun slic1 <$>
                   ([kw_connectivity; kw_bad; kw_segments] ++ [kw_compactness])%list) s1)
      "labels"
    = Some (Labels (NdArray [2; 3]%nat [24; 24; 24; 24; 24; 24])) ∧
  run_each (rerun slic1 <$> ([kw_connectivity; kw_segments] ++ [kw_bad])%list) s1
    = run_each (rerun slic1 <$> [kw_connectivity; kw_segments]) s1.
Proof.
  split.
  - destruct (last_rerun_wins slic1 [kw_connectivity; kw_bad; kw_segments]
                kw_compactness s1 img1) as (Hok & _ & _).
    + vm_compute. reflexivity.
    + vm_compute. reflexivity.
    + apply Hok. vm_compute. reflexivity.
  - destruct (last_rerun_wins slic1 [kw_connectivity; kw_segments]
                kw_bad s1 img1) as (_ & Hraise & _).
    + vm_compute. reflexivity.
    + vm_compute. reflexivity.
    + apply (Hraise ValueError). vm_compute. reflexivity.
Defined.

End NbExtra.

(** ** Names are bound before they are read *)

Module BoundFacts.
Import Syntax Cells Sem Flow Bound.
#[local] Open Scope string_scope.

Section Runs.
Context {W : Type} (lib : prim → list val → W → (val + exn) * W).































End Runs.

End BoundFacts.

Module BoundMore.
Import Syntax Cells Sem Flow Bound.
#[local] Open Scope string_scope.



End BoundMore.

Module BoundExtra.
Import Syntax Cells Sem Flow Bound BoundFacts BoundMore SemExamples.
#[local] Open Scope string_scope.


(** The order matters: with the cell that loads the image left out, the
    first thing the clustering cell does is to ask the kernel for [seg]. *)
Example clustering_before_loading :
  head (log (run unit lib_ok 10 [cell_slic] ()).2)
    = Some (Event (PBuiltin "seg") [] (inl (VObj 0))).
Proof. vm_compute. reflexivity. Qed.

End BoundExtra.

(** ** More about the one-dimensional example *)

Module OneDimMore.
Import Np OneDim MeanColorFacts.

Lemma filter_fmap {A C} (f : A → C) (P : C → Prop) `{!∀ x, Decision (P x)}
    (l : list A) :
  filter P (f <$> l) = f <$> filter (λ x, P (f x)) l.
Proof.
  induction l as [|a l IH]; [done|]. rewrite fmap_cons, !filter_cons.
  destruct (decide (P (f a))); by rewrite ?fmap_cons, IH.
Qed.

Lemma argwhere_cons v a :
  argwhere (v :: a) = ((if decide (v = 0) then [] else [0%nat]) ++ (S <$> argwhere a))%list.
Proof.
  unfold argwhere. cbn [length seq]. rewrite filter_cons. simpl.
  rewrite <- fmap_S_seq, filter_fmap. simpl.
  destruct (decide (v = 0)) as [->|Hv].
  - rewrite decide_False by (by intros H; apply H). done.
  - rewrite decide_True by congruence. done.
Qed.

Lemma diff_cons a b r : diff (a :: b :: r) = (b - a) :: diff (b :: r).
Proof. reflexivity. Qed.

Lemma lookup_diff r k :
  diff r !! k = b ← r !! S k; a ← r !! k; Some (b - a).
Proof. unfold diff. by rewrite lookup_zip_with, lookup_drop. Qed.

Lemma elem_of_argwhere a k : k ∈ argwhere a ↔ ∃ v, a !! k = Some v ∧ v ≠ 0.
Proof.
  unfold argwhere. rewrite list_elem_of_filter, elem_of_seq. split.
  - intros [Hk [_ Hlt]]. destruct (lookup_lt_is_Some_2 a k) as [v Hv]; [lia|].
    exists v. split; [done|]. congruence.
  - intros (v & Hv & Hne). split; [congruence|].
    apply lookup_lt_Some in Hv. lia.
Qed.

Lemma length_remove_dups_cons (a : Z) l :
  (length (remove_dups (a :: l)) ≤ S (length (remove_dups l)))%nat ∧
  (a ∈ l → length (remove_dups (a :: l)) = length (remove_dups l)).
Proof.
  simpl. destruct (decide_rel elem_of a l); simpl; split; (lia || done).
Qed.

Lemma distinct_changes r :
  (length (remove_dups r) ≤ S (length (argwhere (diff r))))%nat.
Proof.
  induction r as [|a [|b r] IH]; [simpl; lia|simpl; lia|].
  rewrite diff_cons, argwhere_cons, length_app, length_fmap.
  destruct (length_remove_dups_cons a (b :: r)) as [Hle Heq].
  destruct (decide (b - a = 0)) as [E|E]; cbn [length Nat.add].
  - assert (a = b) as -> by lia. rewrite Heq by left. exact IH.
  - lia.
Qed.

Lemma length_unique r : length (unique (array r)) = length (remove_dups r).
Proof.
  apply Permutation_length, NoDup_Permutation; try apply NoDup_remove_dups.
  intros v. rewrite elem_of_unique, elem_of_remove_dups. done.
Qed.

Lemma length_mask_zip {A} (x : list A) (r : list Z) v :
  length x = length r →
  length (filter (λ p : A * bool, p.2 = true)
            (zip x ((λ u, bool_decide (u = v)) <$> r))) = count v r.
Proof.
  unfold count. revert x. induction r as [|u r IH]; intros [|a x] Hlen; try done.
  simpl in Hlen. injection Hlen as Hlen.
  rewrite fmap_cons. cbn [zip zip_with]. rewrite !filter_cons. simpl.
  destruct (decide (u = v)) as [->|Hne].
  - rewrite bool_decide_eq_true_2 by done. rewrite decide_True by done.
    simpl. f_equal. by apply IH.
  - rewrite bool_decide_eq_false_2 by done. rewrite decide_False by done.
    by apply IH.
Qed.

Lemma getmask_eq_mask {A} (x : list A) (r : list Z) v :
  length x = length r →
  ∃ xs, getmask x (data (eq_scalar (array r) v)) = Some xs ∧ length xs = count v r.
Proof.
  intros Hlen. unfold getmask, eq_scalar. simpl. rewrite length_fmap.
  rewrite decide_True by done. eexists. split; [done|].
  rewrite length_fmap. by apply length_mask_zip.
Qed.

Lemma getmask_self (r : list Z) v :
  getmask r (data (eq_scalar (array r) v)) = Some (replicate (count v r) v).
Proof.
  unfold getmask, eq_scalar, count. simpl. rewrite length_fmap.
  rewrite decide_True by done. f_equal.
  induction r as [|u r IH]; [done|].
  rewrite fmap_cons. cbn [zip zip_with]. rewrite !filter_cons. simpl.
  destruct (decide (u = v)) as [->|Hne].
  - rewrite bool_decide_eq_true_2 by done. rewrite decide_True by done.
    simpl. f_equal. exact IH.
  - rewrite bool_decide_eq_false_2 by done. rewrite decide_False by done.
    exact IH.
Qed.

Lemma getmask_length_None {A} (x : list A) m :
  length m ≠ length x → getmask x m = None.
Proof. intros H. unfold getmask. by rewrite decide_False. Qed.

Lemma length_but_last {A} (l : list A) : length (but_last l) = (length l - 1)%nat.
Proof. unfold but_last. rewrite length_take. lia. Qed.

Lemma but_last_replicate {A} n (v : A) :
  but_last (replicate n v) = replicate (n - 1) v.
Proof.
  unfold but_last. rewrite length_replicate, take_replicate. f_equal. lia.
Qed.

Lemma count_cons u v r :
  count v (u :: r) = ((if decide (u = v) then 1 else 0) + count v r)%nat.
Proof. unfold count. rewrite filter_cons. by destruct (decide (u = v)). Qed.

Lemma count_pos v r : v ∈ r → (0 < count v r)%nat.
Proof.
  intros Hv. unfold count.
  assert (v ∈ filter (λ u, u = v) r) as H by (by apply list_elem_of_filter).
  destruct (filter _ r); [by apply elem_of_nil in H|simpl; lia].
Qed.

Lemma sum_indicator (u : Z) ls :
  NoDup ls →
  sum_list ((λ l, if decide (u = l) then 1 else 0)%nat <$> ls)
    = (if decide (u ∈ ls) then 1 else 0)%nat.
Proof.
  induction 1 as [|l ls Hl Hnd IH]; [done|].
  rewrite fmap_cons. cbn [sum_list]. rewrite IH.
  destruct (decide (u = l)) as [->|Hne].
  - rewrite (decide_True (P := l ∈ l :: ls)) by left.
    by rewrite (decide_False (P := l ∈ ls)).
  - destruct (decide (u ∈ ls)).
    + rewrite (decide_True (P := u ∈ l :: ls)) by (by right). done.
    + rewrite (decide_False (P := u ∈ l :: ls)); [done|].
      by intros [?|?]%elem_of_cons.
Qed.

Lemma sum_list_fmap_add {A} (f g : A → nat) ls :
  sum_list ((λ l, f l + g l)%nat <$> ls)
    = (sum_list (f <$> ls) + sum_list (g <$> ls))%nat.
Proof. induction ls as [|l ls IH]; csimpl; lia. Qed.

(** Every sample carries exactly one of the labels. *)
Lemma sum_count ls r :
  NoDup ls → (∀ v, v ∈ r → v ∈ ls) →
  sum_list ((λ l, count l r) <$> ls) = length r.
Proof.
  intros Hnd. induction r as [|u r IH]; intros Hall.
  - clear. induction ls as [|l ls IHl]; [done|].
    rewrite fmap_cons. cbn [sum_list]. by rewrite IHl.
  - transitivity (sum_list ((λ l, if decide (u = l) then 1 else 0)%nat <$> ls)
                  + sum_list ((λ l, count l r) <$> ls))%nat.
    + rewrite <- sum_list_fmap_add. f_equal. apply list_fmap_ext.
      intros _ l _. apply count_cons.
    + rewrite sum_indicator by done. rewrite decide_True by (apply Hall; left).
      rewrite IH; [done|]. intros v Hv. apply Hall. by right.
Qed.

Lemma NoDup_unique a : NoDup (unique a).
Proof. apply NoDup_remove_dups. Qed.

(** What [plt.bar] gets for one label. *)
Lemma bar_of_label (x result : list Z) label :
  length x = length result →
  ∃ xs,
    (xs' ← getmask x (data (eq_scalar (array result) label));
     hs ← getmask result (data (eq_scalar (array result) label));
     Some (but_last xs', but_last hs))
      = Some (xs, replicate (count label result - 1) label) ∧
    length xs = (count label result - 1)%nat.
Proof.
  intros Hlen.
  destruct (getmask_eq_mask x result label Hlen) as (xs & -> & Hxs).
  rewrite getmask_self. simpl. exists (but_last xs).
  rewrite but_last_replicate. split; [done|].
  rewrite length_but_last. lia.
Qed.

Lemma filter_ext_in {A} (P1 P2 : A → Prop)
    `{!∀ x, Decision (P1 x), !∀ x, Decision (P2 x)} (l : list A) :
  (∀ x, x ∈ l → P1 x ↔ P2 x) → filter P1 l = filter P2 l.
Proof.
  induction l as [|a l IH]; intros Hiff; [done|].
  rewrite !filter_cons, IH by (intros; apply Hiff; by right).
  assert (P1 a ↔ P2 a) as Ha by (apply Hiff; left).
  destruct (decide (P1 a)), (decide (P2 a)); tauto || done.
Qed.

End OneDimMore.

Module OneDimExtra.
Import Np OneDim MeanColorFacts OneDimMore.

(** X15.  The bars of the one-dimensional plot.  Indexing with the mask of
    a label raises IndexError exactly when [x] does not have the length of
    [result] (and there is a label at all).  Otherwise [plt.bar] gets, for
    every label, positions and heights of the same length, the heights all
    equal to the label, and one sample of each region is left out: the
    bars and the regions together are as many as the samples. *)
Theorem bars_leave_out_one_sample_per_region (x result : list Z) :
  (bars x result = None ↔ length x ≠ length result ∧ result ≠ []) ∧
  (∀ bs, bars x result = Some bs →
     Forall2 (λ label b,
                b.2 = replicate (count label result - 1) label ∧
                length b.1 = length b.2 ∧
                (0 < count label result)%nat)
             (unique (array result)) bs ∧
     (sum_list ((λ b, length b.1) <$> bs) + length bs = length result)%nat).
Proof.
  assert (∀ v, v ∈ result ↔ v ∈ unique (array result)) as Hun.
  { intros v. by rewrite elem_of_unique. }
  destruct (decide (length x = length result)) as [Hlen|Hlen].
  - assert (∃ bs, bars x result = Some bs ∧
              Forall2 (λ label b,
                b.2 = replicate (count label result - 1) label ∧
                length b.1 = length b.2 ∧
                (0 < count label result)%nat)
              (unique (array result)) bs) as (bs & Hbs & HF).
    { unfold bars.
      assert (∀ label, label ∈ unique (array result) → label ∈ result) as Hin
        by (intros; by apply Hun).
      clear Hun. induction (unique (array result)) as [|label ls IH].
      - by exists [].
      - destruct IH as (bs & Hbs & HF); [intros; apply Hin; by right|].
        destruct (bar_of_label x result label Hlen) as (xs & Hbar & Hxs).
        exists ((xs, replicate (count label result - 1) label) :: bs). split.
        + apply mapM_Some. constructor; [exact Hbar|by apply mapM_Some].
        + constructor; [|done]. simpl. split_and!; [done| |].
          * by rewrite length_replicate.
          * apply count_pos, Hin. left. }
    split.
    + rewrite Hbs. split; [done|]. by intros [? _].
    + intros bs' Hbs'. rewrite Hbs in Hbs'. injection Hbs' as <-.
      split; [done|].
      rewrite <- (sum_count (unique (array result)) result);
        [|apply NoDup_unique|intros; by apply Hun].
      clear -HF. induction HF as [|label b ls bs (Hb2 & Hb1 & Hpos) _ IH]; [done|].
      rewrite !fmap_cons. cbn [sum_list length]. rewrite <- IH.
      rewrite Hb1, Hb2, length_replicate. unfold Datatypes.id. lia.
  - assert (∀ label, (xs' ← getmask x (data (eq_scalar (array result) label));
                      hs ← getmask result (data (eq_scalar (array result) label));
                      Some (but_last xs', but_last hs)) = None) as Hnone.
    { intros label.
      rewrite (getmask_length_None x); [reflexivity|].
      simpl. rewrite length_fmap. congruence. }
    destruct result as [|v result].
    + split; [split; [done|by intros [_ ?]]|].
      intros bs [= <-]. by split.
    + assert (bars x (v :: result) = None) as Hbars.
      { unfold bars.
        destruct (unique (array (v :: result))) as [|label ls] eqn:E.
        - assert (v ∈ @nil Z) as []%elem_of_nil. apply Hun. left.
        - cbn [mapM]. by rewrite Hnone. }
      rewrite Hbars. split; [done|]. by intros bs.
Qed.

Lemma bars_leave_out_one_sample_per_region_witness :
  ∃ bs, bars x12 result12 = Some bs ∧
    (sum_list ((λ b, length b.1) <$> bs) + length bs = 12)%nat.
Proof.
  exists [([0; 1; 2; 3], [1; 1; 1; 1]); ([5; 6; 7], [2; 2; 2]); ([9; 10], [3; 3])].
  assert (bars x12 result12
          = Some [([0; 1; 2; 3], [1; 1; 1; 1]); ([5; 6; 7], [2; 2; 2]);
                  ([9; 10], [3; 3])]) as H by (vm_compute; reflexivity).
  split; [exact H|].
  exact (proj2 (proj2 (bars_leave_out_one_sample_per_region x12 result12) _ H)).
Defined.

(** X16.  The dashed lines of the one-dimensional plot stand exactly where
    the label changes from one sample to the next, half a sample to the
    right of the first of the two; there are at least as many of them as
    there are regions but one. *)
Theorem lines_where_the_label_changes (result : list Z) :
  (∀ q, q ∈ vlines result ↔
        ∃ (k : nat) a b,
          q = (inject_Z (Z.of_nat k) + (1 # 2))%Q ∧
          result !! k = Some a ∧ result !! S k = Some b ∧ a ≠ b) ∧
  (length (unique (array result)) ≤ S (length (vlines result)))%nat.
Proof.
  assert (∀ k, k ∈ argwhere (diff result) ↔
            ∃ a b, result !! k = Some a ∧ result !! S k = Some b ∧ a ≠ b) as Hk.
  { intros k. rewrite elem_of_argwhere. setoid_rewrite lookup_diff. split.
    - intros (d & Hd & Hne).
      destruct (result !! S k) as [b|]; [|done].
      destruct (result !! k) as [a|]; [|done]. simpl in Hd.
      exists a, b. split_and!; [done|done|]. injection Hd as <-. lia.
    - intros (a & b & -> & -> & Hne). exists (b - a). split; [done|lia]. }
  split.
  - intros q. unfold vlines. rewrite list_elem_of_fmap. split.
    + intros (k & -> & (a & b & H)%Hk). by exists k, a, b.
    + intros (k & a & b & -> & H). exists k. split; [done|].
      apply Hk. by exists a, b.
  - unfold vlines. rewrite length_fmap, length_unique. apply distinct_changes.
Qed.

(** X17.  The seeds of the one-dimensional example sit exactly on the
    samples that are 0, from left to right, whatever numbers the labelling
    gives them: this is all the flooding is told about the minima of
    [y]. *)
Theorem seed_positions_are_the_zeros
    (ndi_label : ndarray bool → ndarray Z * nat) (y : list Z) :
  Coins.is_labelling (eq_scalar (array y) 0) (ndi_label (eq_scalar (array y) 0)).1 →
  wf (ndi_label (eq_scalar (array y) 0)).1 →
  seed_positions ndi_label y
    = filter (λ k, y !! k = Some 0) (seq 0 (length y)).
Proof.
  intros [Hshape Hlab] Hwf. unfold seed_positions, seeds, argwhere.
  set (s := (ndi_label (eq_scalar (array y) 0)).1) in *.
  assert (length (data s) = length y) as ->.
  { rewrite Hwf, Hshape. simpl. lia. }
  apply filter_ext_in. intros k [_ Hk]%elem_of_seq.
  destruct (lookup_lt_is_Some_2 y k) as [u Hu]; [lia|].
  destruct (Hlab k (bool_decide (u = 0))) as (v & Hv & Hiff).
  { simpl. by rewrite list_lookup_fmap, Hu. }
  rewrite Hv, Hu. split.
  - intros Hne. f_equal. destruct (decide (u = 0)) as [|Hu0]; [done|].
    destruct (decide (v = 0)) as [->|Hv0]; [done|].
    apply Hiff in Hv0. by apply bool_decide_eq_true in Hv0.
  - intros [= ->] [= ->]. destruct Hiff as [_ Hiff].
    by apply Hiff; [apply bool_decide_eq_true_2|].
Qed.

Lemma seed_positions_are_the_zeros_witness :
  seed_positions Examples.label1 y12 = [1; 7; 11]%nat.
Proof.
  rewrite (seed_positions_are_the_zeros Examples.label1 y12).
  - reflexivity.
  - apply CoinsCorrect.label1_is_labelling.
  - reflexivity.
Defined.

End OneDimExtra.
